(** * ultimate-express: route matching and request dispatch

    A shallow embedding of [src/router.js] and of the pattern helpers of
    [src/utils.js] ([patternToRegex], [needsConversionToRegex]), with the
    properties of the routing specification stated over it.

    Layout:
    - [JsString]   the string built-ins the router calls;
    - [RegExp]     the JavaScript regular expressions the router builds and
                   runs (syntax tree, [new RegExp], [exec], [test], [replace]);
    - [Utils]      [patternToRegex], [needsConversionToRegex];
    - the router: route entries, registration ([createRoute], [use],
      [param]), the optimizer ([optimizeRoute], the native handler of
      [registerUwsRoute]) and the generic walk ([_routeRequest]);
    - the properties. *)

From Stdlib Require Import ZArith Ascii String List Bool Lia.
From stdpp Require Import base gmap strings list.

Local Open Scope Z_scope.
Local Open Scope nat_scope.
Local Open Scope bool_scope.
Local Open Scope list_scope.

(* ===================================================================== *)
(** * String built-ins *)
(* ===================================================================== *)

Module JsString.

(** [s.startsWith(p)] *)
Fixpoint startsWith (s p : string) : bool :=
  match p, s with
  | EmptyString, _ => true
  | String a p', String b s' => Ascii.eqb a b && startsWith s' p'
  | String _ _, EmptyString => false
  end.

(** [s.includes(p)] *)
Fixpoint includes (s p : string) : bool :=
  startsWith s p ||
  match s with
  | EmptyString => false
  | String _ s' => includes s' p
  end.

(** [s.endsWith(p)] *)
Fixpoint endsWith (s p : string) : bool :=
  String.eqb s p ||
  match s with
  | EmptyString => false
  | String _ s' => endsWith s' p
  end.

(** [s.slice(0, -1)] *)
Definition slice_0_m1 (s : string) : string :=
  String.substring 0 (String.length s - 1) s.

(** [s.slice(n)] *)
Fixpoint drop (n : nat) (s : string) : string :=
  match n, s with
  | O, _ => s
  | S n', String _ s' => drop n' s'
  | S _, EmptyString => EmptyString
  end.

(** [s.replaceAll(p, r)] for a non-empty literal [p]; the fuel is the
    length of [s], one unit per character passed. *)
Fixpoint replaceAll_go (fuel : nat) (s p r : string) : string :=
  match fuel with
  | O => s
  | S fuel' =>
      match s with
      | EmptyString => EmptyString
      | String c s' =>
          if startsWith s p
          then r +:+ replaceAll_go fuel' (drop (String.length p) s) p r
          else String c (replaceAll_go fuel' s' p r)
      end
  end.

Definition replaceAll (s p r : string) : string :=
  replaceAll_go (String.length s) s p r.

Definition lower_ascii (c : ascii) : ascii :=
  let n := nat_of_ascii c in
  if (65 <=? n) && (n <=? 90) then ascii_of_nat (n + 32) else c.

(** [s.toLowerCase()], on the ASCII letters *)
Fixpoint toLowerCase (s : string) : string :=
  match s with
  | EmptyString => EmptyString
  | String c s' => String (lower_ascii c) (toLowerCase s')
  end.

Definition upper_ascii (c : ascii) : ascii :=
  let n := nat_of_ascii c in
  if (97 <=? n) && (n <=? 122) then ascii_of_nat (n - 32) else c.

(** [s.toUpperCase()], on the ASCII letters *)
Fixpoint toUpperCase (s : string) : string :=
  match s with
  | EmptyString => EmptyString
  | String c s' => String (upper_ascii c) (toUpperCase s')
  end.

(** [a.join("")] *)
Definition join (l : list string) : string := String.concat "" l.

End JsString.

(* ===================================================================== *)
(** * Regular expressions

    The router builds its matchers with [new RegExp(source)] and runs them
    with [test], [exec] and [String.prototype.replace].  The engine is
    the host's; it is modelled here by the backtracking semantics of the
    language standard, for the fragment of the syntax that
    [patternToRegex] emits or that route constraints commonly use:
    literals, [.], escapes, classes, [^] and [$], alternation, greedy and
    lazy [*] [+] [?], capturing, named and non-capturing groups,
    lookahead.  No flags. *)
(* ===================================================================== *)

Module RegExp.

(** A class item: a single character, a range, or a class escape. *)
Inductive cls : Type := Digit | Word | Space.

Inductive citem : Type :=
| CChar (c : ascii)
| CRange (lo hi : ascii)
| CCls (neg : bool) (k : cls).

Inductive rx : Type :=
| REmpty
| RChar (c : ascii)
| RAny
| RSet (neg : bool) (items : list citem)
| RBol
| REol
| RSeq (a b : rx)
| RAlt (a b : rx)
| RRep (r : rx) (min : nat) (max : option nat) (greedy : bool)
| RGroup (idx : nat) (r : rx)
| RLook (neg : bool) (r : rx).

Definition between (lo hi : nat) (c : ascii) : bool :=
  let n := nat_of_ascii c in (lo <=? n) && (n <=? hi).

Definition is_digit (c : ascii) : bool := between 48 57 c.
Definition is_word (c : ascii) : bool :=
  between 97 122 c || between 65 90 c || is_digit c || Ascii.eqb c "_".
Definition is_space (c : ascii) : bool :=
  let n := nat_of_ascii c in
  (n =? 32) || ((9 <=? n) && (n <=? 13)).
Definition is_line_end (c : ascii) : bool :=
  let n := nat_of_ascii c in (n =? 10) || (n =? 13).

Definition in_cls (k : cls) (c : ascii) : bool :=
  match k with
  | Digit => is_digit c
  | Word => is_word c
  | Space => is_space c
  end.

Definition in_item (it : citem) (c : ascii) : bool :=
  match it with
  | CChar a => Ascii.eqb a c
  | CRange lo hi => between (nat_of_ascii lo) (nat_of_ascii hi) c
  | CCls neg k => xorb neg (in_cls k c)
  end.

Definition in_set (neg : bool) (items : list citem) (c : ascii) : bool :=
  xorb neg (existsb (fun it => in_item it c) items).

(** The matcher state: how many characters lie before the current
    position, what is left of the input, and the captures so far (most
    recent first). *)
Record mstate : Type := MState {
  consumed : nat;
  rest : string;
  caps : list (nat * string);
}.

Definition cont : Type := mstate -> option mstate.

Definition advance (s : mstate) (t : string) : mstate :=
  MState (S (consumed s)) t (caps s).

Definition one_char (p : ascii -> bool) (k : cont) (s : mstate)
  : option mstate :=
  match rest s with
  | String c t => if p c then k (advance s t) else None
  | EmptyString => None
  end.

(** The text matched between state [s] and the later state [s']. *)
Definition text_between (s s' : mstate) : string :=
  String.substring 0 (consumed s' - consumed s) (rest s).

Definition set_cap (idx : nat) (s s' : mstate) : mstate :=
  MState (consumed s') (rest s') ((idx, text_between s s') :: caps s').

(** The repeat matcher of the standard: at least [min] iterations, at most
    [max]; once [min] is reached an iteration that matches the empty
    string is refused; greedy tries one more iteration first, lazy tries
    the continuation first. *)
Fixpoint rep (step : cont -> cont) (fuel : nat) (min : nat)
    (max : option nat) (greedy : bool) (k : cont) (s : mstate)
    {struct fuel} : option mstate :=
  match max with
  | Some O => k s
  | _ =>
      match fuel with
      | O => None
      | S fuel' =>
          let again : cont := fun s' =>
            if (min =? 0) && (consumed s' =? consumed s) then None
            else rep step fuel' (Nat.pred min) (Nat.pred <$> max) greedy k s' in
          if negb (min =? 0) then step again s
          else if greedy then
            match step again s with
            | Some r => Some r
            | None => k s
            end
          else
            match k s with
            | Some r => Some r
            | None => step again s
            end
      end
  end.

Fixpoint run (r : rx) (k : cont) (s : mstate) {struct r} : option mstate :=
  match r with
  | REmpty => k s
  | RChar c => one_char (Ascii.eqb c) k s
  | RAny => one_char (fun c => negb (is_line_end c)) k s
  | RSet neg items => one_char (in_set neg items) k s
  | RBol => if consumed s =? 0 then k s else None
  | REol => match rest s with EmptyString => k s | _ => None end
  | RSeq a b => run a (run b k) s
  | RAlt a b =>
      match run a k s with
      | Some x => Some x
      | None => run b k s
      end
  | RRep r' min max greedy =>
      rep (run r') (S (min + String.length (rest s))) min max greedy k s
  | RGroup idx r' => run r' (fun s' => k (set_cap idx s s')) s
  | RLook neg r' =>
      match run r' Some s with
      | Some s' =>
          if neg then None
          else k (MState (consumed s) (rest s) (caps s'))
      | None => if neg then k s else None
      end
  end.

(** ** Syntax: [new RegExp(source)]

    A recursive-descent reader of the pattern grammar (Disjunction,
    Alternative, Term, Atom).  [None] stands for a pattern the
    constructor rejects with a SyntaxError, or one outside the fragment
    modelled here (braces, back-references, lookbehind, control
    escapes). *)

Record pstate : Type := PState {
  next_idx : nat;
  seen : list (string * nat);
}.

Definition is_name_start (c : ascii) : bool :=
  between 97 122 c || between 65 90 c || Ascii.eqb c "_" || Ascii.eqb c "$".
Definition is_name_part (c : ascii) : bool :=
  is_name_start c || is_digit c.

Fixpoint read_name_rest (s : string) : option (string * string) :=
  match s with
  | String c s' =>
      if Ascii.eqb c ">" then Some (EmptyString, s')
      else if is_name_part c then
        match read_name_rest s' with
        | Some (n, r) => Some (String c n, r)
        | None => None
        end
      else None
  | EmptyString => None
  end.

Definition read_name (s : string) : option (string * string) :=
  match s with
  | String c _ => if is_name_start c then read_name_rest s else None
  | EmptyString => None
  end.

Definition is_alnum (c : ascii) : bool :=
  between 97 122 c || between 65 90 c || is_digit c.

Definition cls_escape (c : ascii) : option citem :=
  if Ascii.eqb c "d" then Some (CCls false Digit)
  else if Ascii.eqb c "D" then Some (CCls true Digit)
  else if Ascii.eqb c "w" then Some (CCls false Word)
  else if Ascii.eqb c "W" then Some (CCls true Word)
  else if Ascii.eqb c "s" then Some (CCls false Space)
  else if Ascii.eqb c "S" then Some (CCls true Space)
  else if is_alnum c then None
  else Some (CChar c).

(** The items of a class, up to the closing bracket. *)
Fixpoint read_class (s : string) : option (list citem * string) :=
  match s with
  | EmptyString => None
  | String c s1 =>
      if Ascii.eqb c "]" then Some ([], s1)
      else if Ascii.eqb c "\" then
        match s1 with
        | String e s2 =>
            match cls_escape e, read_class s2 with
            | Some it, Some (its, r) => Some (it :: its, r)
            | _, _ => None
            end
        | EmptyString => None
        end
      else
        match s1 with
        | String d (String hi s3) =>
            if Ascii.eqb d "-" && negb (Ascii.eqb hi "]") then
              if Ascii.eqb hi "\" then None
              else if nat_of_ascii hi <? nat_of_ascii c then None
              else
                match read_class s3 with
                | Some (its, r) => Some (CRange c hi :: its, r)
                | None => None
                end
            else
              match read_class s1 with
              | Some (its, r) => Some (CChar c :: its, r)
              | None => None
              end
        | _ =>
            match read_class s1 with
            | Some (its, r) => Some (CChar c :: its, r)
            | None => None
            end
        end
  end.

(** A quantifier after an atom, if there is one. *)
Definition read_quant (atom : rx) (s : string) : rx * string :=
  let lazy_ (min : nat) (max : option nat) (s' : string) :=
    match s' with
    | String "?" s'' => (RRep atom min max false, s'')
    | _ => (RRep atom min max true, s')
    end in
  match s with
  | String "*" s' => lazy_ 0 None s'
  | String "+" s' => lazy_ 1 None s'
  | String "?" s' => lazy_ 0 (Some 1) s'
  | _ => (atom, s)
  end.

Definition mk_seq (a b : rx) : rx :=
  match b with
  | REmpty => a
  | _ => RSeq a b
  end.

Definition close_paren (s : string) : option string :=
  match s with
  | String ")" s' => Some s'
  | _ => None
  end.

Definition no_quant (s : string) : bool :=
  match s with
  | String c _ =>
      negb (Ascii.eqb c "*" || Ascii.eqb c "+" || Ascii.eqb c "?")
  | EmptyString => true
  end.

Fixpoint read_disj (fuel : nat) (s : string) (st : pstate)
    {struct fuel} : option (rx * string * pstate) :=
  match fuel with
  | O => None
  | S fuel' =>
      match read_alt fuel' s st with
      | Some (a, String "|" s2, st1) =>
          match read_disj fuel' s2 st1 with
          | Some (b, s3, st3) => Some (RAlt a b, s3, st3)
          | None => None
          end
      | other => other
      end
  end
with read_alt (fuel : nat) (s : string) (st : pstate)
    {struct fuel} : option (rx * string * pstate) :=
  match fuel with
  | O => None
  | S fuel' =>
      match s with
      | EmptyString => Some (REmpty, s, st)
      | String c _ =>
          if Ascii.eqb c "|" || Ascii.eqb c ")" then Some (REmpty, s, st)
          else
            match read_term fuel' s st with
            | Some (a, s1, st1) =>
                match read_alt fuel' s1 st1 with
                | Some (b, s2, st2) => Some (mk_seq a b, s2, st2)
                | None => None
                end
            | None => None
            end
      end
  end
with read_term (fuel : nat) (s : string) (st : pstate)
    {struct fuel} : option (rx * string * pstate) :=
  match fuel with
  | O => None
  | S fuel' =>
      let group (wrap : rx -> rx) (body : string) (st' : pstate)
          (quantified : bool) :=
        match read_disj fuel' body st' with
        | Some (r, s1, st1) =>
            match close_paren s1 with
            | Some s2 =>
                if quantified then
                  let '(q, s3) := read_quant (wrap r) s2 in Some (q, s3, st1)
                else if no_quant s2 then Some (wrap r, s2, st1)
                else None
            | None => None
            end
        | None => None
        end in
      let atom (a : rx) (s' : string) :=
        let '(q, s'') := read_quant a s' in Some (q, s'', st) in
      match s with
      | EmptyString => None
      | String "^" s' => if no_quant s' then Some (RBol, s', st) else None
      | String "$" s' => if no_quant s' then Some (REol, s', st) else None
      | String "." s' => atom RAny s'
      | String "\" (String e s') =>
          match cls_escape e with
          | Some (CChar c) => atom (RChar c) s'
          | Some it => atom (RSet false [it]) s'
          | None => None
          end
      | String "[" (String "^" s') =>
          match read_class s' with
          | Some (its, s1) => atom (RSet true its) s1
          | None => None
          end
      | String "[" s' =>
          match read_class s' with
          | Some (its, s1) => atom (RSet false its) s1
          | None => None
          end
      | String "(" (String "?" (String "=" s')) =>
          group (RLook false) s' st false
      | String "(" (String "?" (String "!" s')) =>
          group (RLook true) s' st false
      | String "(" (String "?" (String ":" s')) =>
          group (fun r => r) s' st true
      | String "(" (String "?" (String "<" s')) =>
          match read_name s' with
          | Some (n, s1) =>
              if existsb (fun ni => String.eqb ni.1 n) (seen st) then None
              else
                let i := next_idx st in
                group (RGroup i) s1 (PState (S i) (seen st ++ [(n, i)])) true
          | None => None
          end
      | String "(" (String "?" _) => None
      | String "(" s' =>
          let i := next_idx st in
          group (RGroup i) s' (PState (S i) (seen st)) true
      | String c s' =>
          if Ascii.eqb c "*" || Ascii.eqb c "+" || Ascii.eqb c "?"
             || Ascii.eqb c "{" || Ascii.eqb c "}" || Ascii.eqb c "\"
             || Ascii.eqb c ")" || Ascii.eqb c "|"
          then None
          else atom (RChar c) s'
      end
  end.

(** A compiled expression: its source, its tree, the number of capturing
    groups and the names of the named ones, in source order. *)
Record t : Type := Compiled {
  source : string;
  tree : rx;
  ngroups : nat;
  names : list (string * nat);
}.

(** [new RegExp(src)]: the whole source must be one Disjunction. *)
Definition new_RegExp (src : string) : option t :=
  match read_disj (4 * String.length src + 4) src (PState 1 []) with
  | Some (r, EmptyString, st) =>
      Some (Compiled src r (Nat.pred (next_idx st)) (seen st))
  | _ => None
  end.

(** [re.toString()]: the source between slashes. *)
Definition toString (re : t) : string := "/" +:+ source re +:+ "/".

(** The result of [exec]: where the match starts, the matched text, the
    numbered captures ([None] for a group that took no part) and the
    [groups] object, its keys in source order. *)
Record match_result : Type := Match {
  index : nat;
  matched : string;
  captures : list (option string);
  groups : list (string * option string);
}.

Fixpoint cap_lookup (idx : nat) (l : list (nat * string)) : option string :=
  match l with
  | [] => None
  | (i, v) :: l' => if i =? idx then Some v else cap_lookup idx l'
  end.

Definition result_of (re : t) (start : mstate) (fin : mstate)
  : match_result :=
  Match (consumed start) (text_between start fin)
    (map (fun i => cap_lookup i (caps fin)) (seq 1 (ngroups re)))
    (map (fun ni => (ni.1, cap_lookup ni.2 (caps fin))) (names re)).

(** The search of [exec]: the leftmost start position with a match. *)
Fixpoint search (re : t) (fuel : nat) (s : mstate) : option match_result :=
  match run (tree re) Some s with
  | Some fin => Some (result_of re s fin)
  | None =>
      match fuel, rest s with
      | S fuel', String _ t' => search re fuel' (advance s t')
      | _, _ => None
      end
  end.

Definition exec (re : t) (input : string) : option match_result :=
  search re (String.length input) (MState 0 input []).

Definition test (re : t) (input : string) : bool :=
  match exec re input with Some _ => true | None => false end.

(** [input.replace(re, f)] without the global flag: the first match is
    replaced by what [f] returns for it. *)
Definition replace_fn (re : t) (f : match_result -> string)
    (input : string) : string :=
  match exec re input with
  | None => input
  | Some m =>
      String.substring 0 (index m) input +:+ f m +:+
      JsString.drop (index m + String.length (matched m)) input
  end.

Definition replace (re : t) (by_ : string) (input : string) : string :=
  replace_fn re (fun _ => by_) input.

(** [input.replace(re, f)] with the global flag: every match, left to
    right; after an empty match the search moves one character on. *)
Fixpoint replace_g_go (re : t) (f : match_result -> string)
    (fuel : nat) (s : mstate) : string :=
  match fuel with
  | O => rest s
  | S fuel' =>
      match search re (String.length (rest s)) s with
      | None => rest s
      | Some m =>
          let skipped := index m - consumed s in
          let before := String.substring 0 skipped (rest s) in
          let len := String.length (matched m) in
          let after := JsString.drop (skipped + len) (rest s) in
          match len, after with
          | O, String c after' =>
              before +:+ f m +:+ String c
                (replace_g_go re f fuel'
                   (MState (S (index m)) after' []))
          | O, EmptyString => before +:+ f m
          | S _, _ =>
              before +:+ f m +:+
              replace_g_go re f fuel' (MState (index m + len) after [])
          end
      end
  end.

Definition replace_g (re : t) (f : match_result -> string)
    (input : string) : string :=
  replace_g_go re f (S (String.length input)) (MState 0 input []).

End RegExp.

(* ===================================================================== *)
(** * [utils.js]: the pattern helpers *)
(* ===================================================================== *)

Module Utils.

(** A path template as the router receives it: a string, or an
    expression the caller built. *)
Inductive pathv : Type :=
| PStr (s : string)
| PRe (re : RegExp.t).

Definition is_string (p : pathv) : bool :=
  match p with PStr _ => true | PRe _ => false end.

(** [EMPTY_REGEX = new RegExp(``)] *)
Definition EMPTY_REGEX : RegExp.t := RegExp.Compiled "" RegExp.REmpty 0 [].

Definition literal (src : string) : RegExp.t :=
  match RegExp.new_RegExp src with
  | Some re => re
  | None => EMPTY_REGEX
  end.

(** The expression literal [/:(\w+)(\(.+?\))?/g] of [patternToRegex]. *)
Definition PARAM_REGEX : RegExp.t :=
  Eval vm_compute in literal ":(\w+)(\(.+?\))?".

(** The callback of the [replace]: [(match, param, regex) => ...]. *)
Definition param_group (m : RegExp.match_result) : string :=
  let param := default "" (mjoin (m.(RegExp.captures) !! 0)) in
  let regex := mjoin (m.(RegExp.captures) !! 1) in
  "(?<" +:+ param +:+ ">" +:+
  match regex with
  | Some re => if String.eqb re "" then "[^/]+" else re +:+ "($|\/)"
  | None => "[^/]+"
  end +:+ ")".

Definition regexPattern (pattern : string) : string :=
  RegExp.replace_g PARAM_REGEX param_group
    (JsString.replaceAll
       (JsString.replaceAll
          (JsString.replaceAll pattern "." "\.")
          "-" "\-")
       "*" "(.*)").

(** [patternToRegex(pattern, isPrefix)]; [None] when the constructor
    throws. *)
Definition patternToRegex (pattern : pathv) (isPrefix : bool)
  : option RegExp.t :=
  match pattern with
  | PRe re => Some re
  | PStr s =>
      if isPrefix && String.eqb s "" then Some EMPTY_REGEX
      else
        RegExp.new_RegExp
          ("^" +:+ regexPattern s +:+ (if isPrefix then "(?=$|/)" else "$"))
  end.

(** [needsConversionToRegex(pattern)] *)
Definition needsConversionToRegex (pattern : pathv) : bool :=
  match pattern with
  | PRe _ => false
  | PStr s =>
      if String.eqb s "/*" then false
      else
        JsString.includes s "*" ||
        JsString.includes s "?" ||
        JsString.includes s "+" ||
        JsString.includes s "(" ||
        JsString.includes s ")" ||
        JsString.includes s ":" ||
        JsString.includes s "{" ||
        JsString.includes s "}" ||
        JsString.includes s "[" ||
        JsString.includes s "]"
  end.

End Utils.

(* ===================================================================== *)
(** * [router.js]: the data model *)
(* ===================================================================== *)

Export Utils.

(** What a callback can throw or hand to its continuation as an error:
    a value of the application's, or the [TypeError] the engine raises
    itself when it reads a property of [undefined]. *)
Inductive error : Type :=
| UserError (code : nat)
| TypeError.

(** A setting's value. *)
Inductive value : Type :=
| VUndefined
| VBool (b : bool)
| VString (s : string)
| VNumber (z : Z).

Definition truthy (v : value) : bool :=
  match v with
  | VUndefined => false
  | VBool b => b
  | VString s => negb (String.eqb s "")
  | VNumber z => negb (z =? 0)%Z
  end.

(** What a terminal callback does with its continuation before it
    completes: nothing, [next()], [next('route')], [next(err)], or it
    throws (or rejects). *)
Inductive signal : Type :=
| Return
| Next
| NextRoute
| NextError (e : error)
| Throw (e : error).

(** How the callback gets there: in the call itself ([Sync]), in the
    promise it returns ([Async]), or later, from a timer or an I/O callback,
    after it has returned something that is not a promise ([Detached]). *)
Inductive timing : Type := Sync | Async | Detached.

(** What the engine traces of a request. *)
Inductive event : Type :=
| Call (routeKey : Z)                        (* a route entry's callback *)
| Hook (name : string) (nth : nat) (v : option string)   (* a param hook *)
| ErrorRoute (e : error)                     (* the router's error handler *)
| Page500 (e : error)                        (* the generic failure page *)
| Unhandled (e : error).                     (* an error nobody catches *)

Section Router.

(** What the application's callbacks keep on the request and response
    objects for one another. *)
Context {U : Type}.

(** The response: the two flags the router reads. *)
Record Response : Type := mkResponse {
  aborted : bool;
  headersSent : bool;
}.

(** The request, with the dispatch state the router keeps on it. *)
Record Request : Type := mkRequest {
  method : string;
  path : string;
  urlQuery : string;
  url : string;
  _opPath : string;
  _stack : list pathv;
  params : list (string * option string);
  _gotParams : gset string;
}.

Record exchange : Type := mkExchange {
  req : Request;
  res : Response;
  locals : U;
}.

Record reaction : Type := mkReaction {
  sig : signal;
  when : timing;
  sends : bool;          (* it sends the response: [headersSent] *)
  disconnects : bool;    (* the peer aborts while it runs *)
  locals' : U;
}.

(** What an error handler does: sends a response or not, calls its
    continuation or not, throws or not. *)
Record ereaction : Type := mkEreaction {
  e_sends : bool;
  e_next : bool;
  e_throws : bool;
  e_locals : U;
}.

(** What a param hook does: resumes the dispatch by calling its
    continuation, or never does. *)
Record hreaction : Type := mkHreaction {
  h_resumes : bool;
  h_locals : U;
}.

(** A function of the application: its declared number of parameters
    ([fn.length]), what it does called as [(req, res, next)], and what it
    does called as [(err, req, res, next)]. *)
Record jsfun : Type := mkFun {
  arity : nat;
  on_request : exchange -> reaction;
  on_error : error -> exchange -> ereaction;
}.

(** A param hook, called as [(req, res, next, value, name)]. *)
Definition hook : Type := option string -> string -> exchange -> hreaction.

(** [callback]: a terminal callback or a nested router. *)
Inductive callback_of (R : Type) : Type :=
| Handler (f : jsfun)
| SubRouter (r : R).
Global Arguments Handler {R} f.
Global Arguments SubRouter {R} r.

(** A route entry.  (The [fullpath] the optimizer adds to its copies is
    never read and is left out.) *)
Record route_of (R : Type) : Type := mkRoute {
  r_method : string;
  r_path : pathv;
  pattern : pathv;
  callback : callback_of R;
  routeSkipKey : Z;
  routeKey : Z;
  r_use : bool;
  r_all : bool;
}.
Global Arguments mkRoute {R}.
Global Arguments r_method {R}.
Global Arguments r_path {R}.
Global Arguments pattern {R}.
Global Arguments callback {R}.
Global Arguments routeSkipKey {R}.
Global Arguments routeKey {R}.
Global Arguments r_use {R}.
Global Arguments r_all {R}.

(** A handler registered with the transport, [uwsApp[method](path, h)]:
    the method name, the path, and the flattened chain [h] runs. *)
Record native_of (R : Type) : Type := mkNative {
  n_method : string;
  n_path : pathv;
  n_chain : list (route_of R);
}.
Global Arguments mkNative {R}.
Global Arguments n_method {R}.
Global Arguments n_path {R}.
Global Arguments n_chain {R}.

(** A [path] argument of the registration calls: one template, or an
    array of them. *)
Inductive path_arg : Type :=
| OnePath (p : pathv)
| Paths (ps : list pathv).

(** The router.  A nested router is held by value: the table it has when
    the request comes in.  [parent] is what [use] recorded; the router
    reads nothing but settings through it.  [uwsApp] is present on an
    application only.  The cache of compiled mount paths memoises a pure
    function of its key and is not modelled. *)
#[local] Unset Elimination Schemes.
Inductive Router : Type := mkRouter {
  routes : list (route_of Router);
  paramCallbacks : gmap string (list hook);
  errorRoute : option jsfun;
  mountpath : path_arg;
  settings : gmap string value;
  parent : option Router;
  uwsApp : option (list (native_of Router));
}.
#[local] Set Elimination Schemes.

Abbreviation route := (route_of Router).
Abbreviation callback_t := (callback_of Router).
Abbreviation native := (native_of Router).

(** [new Router(settings)] *)
Definition new_Router (settings : gmap string value) : Router :=
  mkRouter [] ∅ None (OnePath (PStr "/")) settings None None.

(** The settings half of [get(path)]: own value, or the parent's. *)
Fixpoint get (this : Router) (key : string) : value :=
  match default VUndefined (settings this !! key), parent this with
  | VUndefined, Some p => get p key
  | v, _ => v
  end.

(* ------------------------------------------------------------------- *)
(** ** Matching *)

Definition path_toString (p : pathv) : string :=
  match p with
  | PStr s => s
  | PRe re => RegExp.toString re
  end.

(** [#getFullMountpath(req)]: the prefix matcher of the joined stack of
    mount paths; [None] when compiling it throws. *)
Definition getFullMountpath (rq : Request) : option RegExp.t :=
  patternToRegex (PStr (JsString.join (map path_toString (_stack rq)))) true.

(** The request path less the mount paths of the stack:
    [req._stack.length > 0
       ? req.path.replace(this.#getFullMountpath(req), '') : req.path];
    [None] when compiling the prefix throws. *)
Definition relative_path (rq : Request) : option string :=
  match _stack rq with
  | [] => Some (path rq)
  | _ :: _ =>
      (fun full => RegExp.replace full "" (path rq)) <$> getFullMountpath rq
  end.

(** [#pathMatches(route, req)] *)
Definition pathMatches (this : Router) (r : route) (rq : Request) : bool :=
  match pattern r with
  | PStr pat =>
      let path := if String.eqb (_opPath rq) "" then "/" else _opPath rq in
      let cs := truthy (get this "case sensitive routing") in
      let path := if cs then path else JsString.toLowerCase path in
      let pat := if cs then pat else JsString.toLowerCase pat in
      String.eqb pat path || String.eqb pat "/*"
  | PRe re => RegExp.test re (_opPath rq)
  end.

(** [#extractParams(pattern, path)] *)
Definition extractParams (pat : RegExp.t) (path : string)
  : list (string * option string) :=
  match RegExp.exec pat path with
  | Some m => RegExp.groups m
  | None => []
  end.

(** The test [route.all || route.method === req.method]. *)
Definition methodMatches (r : route) (rq : Request) : bool :=
  r_all r || String.eqb (r_method r) (method rq).

(* ------------------------------------------------------------------- *)
(** ** Request preprocessing and param hooks *)

Definition set_locals (x : exchange) (u : U) : exchange :=
  mkExchange (req x) (res x) u.

Definition set_req (x : exchange) (rq : Request) : exchange :=
  mkExchange rq (res x) (locals x).

Definition set_params (rq : Request) (ps : list (string * option string))
  : Request :=
  mkRequest (method rq) (path rq) (urlQuery rq) (url rq) (_opPath rq)
    (_stack rq) ps (_gotParams rq).

Definition add_gotParam (rq : Request) (name : string) : Request :=
  mkRequest (method rq) (path rq) (urlQuery rq) (url rq) (_opPath rq)
    (_stack rq) (params rq) ({[name]} ∪ _gotParams rq).

Definition set_stack (rq : Request) (stack : list pathv) : Request :=
  mkRequest (method rq) (path rq) (urlQuery rq) (url rq) (_opPath rq)
    stack (params rq) (_gotParams rq).

(** [req._opPath = op; req.url = req._opPath + req.urlQuery] *)
Definition set_opPath (rq : Request) (op : string) : Request :=
  mkRequest (method rq) (path rq) (urlQuery rq) (op +:+ urlQuery rq) op
    (_stack rq) (params rq) (_gotParams rq).

(** The result of a step that can stall for ever: whether the dispatch
    resumes, what was traced, the exchange it leaves. *)
Record step : Type := mkStep {
  resumed : bool;
  s_trace : list event;
  s_x : exchange;
}.

(** The hooks of one name, one after the other: each is awaited, and a
    hook that never calls its continuation stalls the dispatch. *)
Fixpoint run_hooks (fns : list hook) (n : nat) (name : string)
    (v : option string) (x : exchange) : step :=
  match fns with
  | [] => mkStep true [] x
  | fn :: fns' =>
      let hr := fn v name x in
      let x1 := set_locals x (h_locals hr) in
      if h_resumes hr then
        let st := run_hooks fns' (S n) name v x1 in
        mkStep (resumed st) (Hook name n v :: s_trace st) (s_x st)
      else mkStep false [Hook name n v] x1
  end.

(** The loop [for (let param in req.params)] of [#preprocessRequest]. *)
Fixpoint run_params (this : Router) (ps : list (string * option string))
    (x : exchange) : step :=
  match ps with
  | [] => mkStep true [] x
  | (name, v) :: ps' =>
      match paramCallbacks this !! name with
      | Some fns =>
          if decide (name ∈ _gotParams (req x)) then run_params this ps' x
          else
            let st := run_hooks fns 0 name v
                        (set_req x (add_gotParam (req x) name)) in
            if resumed st then
              let st' := run_params this ps' (s_x st) in
              mkStep (resumed st') (s_trace st ++ s_trace st') (s_x st')
            else st
      | None => run_params this ps' x
      end
  end.

(** The test that guards parameter extraction. *)
Definition has_params (r : route) : bool :=
  match r_path r, pattern r with
  | PStr p, PRe _ => JsString.includes p ":"
  | _, _ => false
  end.

(** [#preprocessRequest(req, res, route)] *)
Definition preprocessRequest (this : Router) (r : route) (x : exchange)
  : step :=
  match r_path r, pattern r with
  | PStr p, PRe pat =>
      if JsString.includes p ":" then
        match relative_path (req x) with
        | Some path' =>
            let ps := extractParams pat path' in
            run_params this ps (set_req x (set_params (req x) ps))
        | None => mkStep false [] x
        end
      else mkStep true [] (set_req x (set_params (req x) []))
  | _, _ => mkStep true [] (set_req x (set_params (req x) []))
  end.

(* ------------------------------------------------------------------- *)
(** ** The generic walk: [_routeRequest] *)

(** What a walk leaves: the value its promise settles with ([None]: it
    never settles), the trace, the exchange. *)
Record result : Type := mkResult {
  outcome : option bool;
  trace : list event;
  final : exchange;
}.

(** [resolve(b)]: only the first call settles the promise. *)
Definition settle (settled : option bool) (b : bool) : option bool :=
  match settled with
  | Some v => Some v
  | None => Some b
  end.

Definition emit (evs : list event) (r : result) : result :=
  mkResult (outcome r) (evs ++ trace r) (final r).

Definition set_res (x : exchange) (rs : Response) : exchange :=
  mkExchange (req x) rs (locals x).

(** The effects of a callback on the exchange. *)
Definition after (x : exchange) (re : reaction) : exchange :=
  mkExchange (req x)
    (mkResponse (aborted (res x) || disconnects re)
                (headersSent (res x) || sends re))
    (locals' re).

Definition after_error (x : exchange) (er : ereaction) : exchange :=
  mkExchange (req x)
    (mkResponse (aborted (res x)) (headersSent (res x) || e_sends er))
    (e_locals er).

(** [res.status(500).send(...)] *)
Definition send500 (x : exchange) : exchange :=
  set_res x (mkResponse (aborted (res x)) true).

(** The loop of [next('route')]:
    [while (routes[i].routeKey !== routeSkipKey && i < routes.length) i++].
    Reading [routeKey] off the end of the table throws a TypeError
    ([None]) before the bound is ever tested false. *)
Fixpoint skip_to (fuel : nat) (table : list route) (i : nat) (key : Z)
  : option nat :=
  match table !! i, fuel with
  | Some r, S fuel' =>
      if (routeKey r =? key)%Z then Some i
      else skip_to fuel' table (S i) key
  | _, _ => None
  end.

(** What a walk sees of a callback: one that acts after it has returned
    (and returned no promise) has not called its continuation when the
    [await] resumes. *)
Definition seen_signal (re : reaction) : signal :=
  match when re with
  | Detached => Return
  | _ => sig re
  end.

(** The [catch] of the walk. [calledNext] tells whether the error came
    through the continuation. *)
Definition walk_catch (this : Router) (e : error) (calledNext : bool)
    (x : exchange) (settled : option bool) : result :=
  match errorRoute this with
  | Some eh =>
      let er := on_error eh e x in
      let x' := after_error x er in
      let settled1 :=
        if e_next er then settle settled (headersSent (res x'))
        else settled in
      let settled2 := if e_throws er then settled1 else settle settled1 true in
      mkResult settled2 [ErrorRoute e] x'
  | None =>
      mkResult (if calledNext then settled else settle settled true)
        [Page500 e] (send500 x)
  end.

Abbreviation subwalk := (exchange -> result).

(** What one iteration of the [while] of [_routeRequest] comes to: the
    walk is over ([Stop]), or it goes on at a later cursor ([Continue])
    with what this iteration traced. *)
Inductive iteration : Type :=
| Stop (r : result)
| Continue (evs : list event) (i : nat) (x : exchange)
    (settled : option bool).

Definition emit_it (evs : list event) (it : iteration) : iteration :=
  match it with
  | Stop r => Stop (emit evs r)
  | Continue evs' i x settled => Continue (evs ++ evs') i x settled
  end.

(** The branch [route.callback instanceof Router]: [sub] is the nested
    router's [_routeRequest(req, res, 0)]. *)
Definition walk_mount (r : route) (sub : subwalk) (i : nat) (x0 : exchange)
    (settled : option bool) : iteration :=
  let rq1 := set_stack (req x0) (_stack (req x0) ++ [r_path r]) in
  match getFullMountpath rq1 with
  | None => Stop (mkResult settled [] (set_req x0 rq1))
  | Some full =>
      let rq2 := set_opPath rq1 (RegExp.replace full "" (path rq1)) in
      let sr := sub (set_req x0 rq2) in
      match outcome sr with
      | None => Stop (mkResult settled (trace sr) (final sr))
      | Some true =>
          Stop (mkResult (settle settled true) (trace sr) (final sr))
      | Some false =>
          let x1 := final sr in
          let rq3 := set_stack (req x1) (removelast (_stack (req x1))) in
          match relative_path rq3 with
          | None => Stop (mkResult settled (trace sr) (set_req x1 rq3))
          | Some op =>
              Continue (trace sr) (S i) (set_req x1 (set_opPath rq3 op))
                (settle settled true)
          end
      end
  end.

(** The branch of a terminal callback: the call, the continuation it is
    handed, the [catch]. *)
Definition walk_call (this : Router) (r : route) (f : jsfun) (i : nat)
    (x0 : exchange) (settled : option bool) : iteration :=
  let re := on_request f x0 in
  let x1 := after x0 re in
  emit_it [Call (routeKey r)]
    match seen_signal re with
    | Return => Stop (mkResult (settle settled true) [] x1)
    | Next => Continue [] (S i) x1 settled
    | NextRoute =>
        match
          skip_to (S (length (routes this))) (routes this) i (routeSkipKey r)
        with
        | Some j => Continue [] (S j) x1 settled
        | None => Stop (walk_catch this TypeError true x1 settled)
        end
    | NextError e => Stop (walk_catch this e true x1 settled)
    | Throw e => Stop (walk_catch this e false x1 settled)
    end.

(** One iteration at cursor [i].  [subs] holds, for each entry of the
    table that is a nested router, that router's own
    [_routeRequest(req, res, 0)]. *)
Definition walk_step (this : Router) (subs : list (option subwalk))
    (i : nat) (x : exchange) (settled : option bool) : iteration :=
  match routes this !! i with
  | None => Stop (mkResult (settle settled false) [] x)
  | Some r =>
      if aborted (res x) then Stop (mkResult (settle settled false) [] x)
      else if methodMatches r (req x) && pathMatches this r (req x) then
        let st := preprocessRequest this r x in
        if negb (resumed st) then Stop (mkResult settled (s_trace st) (s_x st))
        else
          emit_it (s_trace st)
            match callback r, mjoin (subs !! i) with
            | SubRouter _, Some sub => walk_mount r sub i (s_x st) settled
            | SubRouter _, None => Stop (mkResult settled [] (s_x st))
            | Handler f, _ => walk_call this r f i (s_x st) settled
            end
      else Continue [] (S i) x settled
  end.

(** The [while] of [_routeRequest(req, res, i)].  The fuel bounds its
    iterations; the cursor grows at each of them. *)
Fixpoint walk (this : Router) (subs : list (option subwalk)) (fuel : nat)
    (i : nat) (x : exchange) (settled : option bool) {struct fuel}
  : result :=
  match fuel with
  | O => mkResult settled [] x
  | S fuel' =>
      match walk_step this subs i x settled with
      | Stop r => r
      | Continue evs i' x' settled' =>
          emit evs (walk this subs fuel' i' x' settled')
      end
  end.

(** [_routeRequest(req, res, i)] *)
Fixpoint _routeRequest (this : Router) (x : exchange) (i : nat) {struct this}
  : result :=
  walk this
    (map (fun r =>
            match callback r with
            | SubRouter sub => Some (fun x' => _routeRequest sub x' 0)
            | Handler _ => None
            end)
         (routes this))
    (S (length (routes this))) i x None.

(* ------------------------------------------------------------------- *)
(** ** The optimizer: [#optimizeRoute] and [#registerUwsRoute] *)

(** The test of [#optimizeRoute] on an entry [r] of the table, for the
    route [ref] being flattened. *)
Definition opt_matches (r ref : route) : bool :=
  match pattern r with
  | PRe re => RegExp.test re (path_toString (r_path ref))
  | PStr s =>
      match r_path ref with
      | PStr p => String.eqb s p
      | PRe _ => false
      end || String.eqb s "*" || String.eqb s "/*"
  end.

(** The entries the optimizer considers for [ref]: those of the method of
    [ref], or of every method, whose pattern takes the path of [ref]. *)
Definition selects (ref r : route) : bool :=
  negb (negb (r_all r) && negb (String.eqb (r_method r) (r_method ref)))
  && opt_matches r ref.

(** The [for] loop of [#optimizeRoute] over a table [rs]; [nested] is the
    call of [#optimizeRoute] on a nested router, for the entry that holds
    it. *)
Definition optimize_loop
    (nested : Router -> route -> list route -> list route)
    (ref : route) : list route -> list route -> list route :=
  fix loop (rs : list route) (optimizedPath : list route) {struct rs}
    : list route :=
    match rs with
    | [] => optimizedPath
    | r :: rs' =>
        if (routeKey r >? routeKey ref)%Z then optimizedPath
        else if selects ref r then
          match callback r with
          | SubRouter sub => loop rs' (nested sub r optimizedPath)
          | Handler _ => loop rs' (optimizedPath ++ [r])
          end
        else loop rs' optimizedPath
    end.

(** [#optimizeRoute(route, routes, optimizedPath, stack)] with [routes]
    the table of [this].  The stack is pushed before each nested call,
    which pops it as it ends, so it is the same all along one call. *)
Fixpoint optimizeRoute (this : Router) (ref : route)
    (optimizedPath : list route) (stack : list pathv) {struct this}
  : list route :=
  let optimizedPath' :=
    optimize_loop
      (fun sub r acc => optimizeRoute sub r acc (stack ++ [r_path r]))
      ref (routes this) optimizedPath in
  match stack with
  | [] => optimizedPath' ++ [ref]
  | _ :: _ => optimizedPath'
  end.

(** The method name [#registerUwsRoute] registers under. *)
Definition uws_method (r : route) : string :=
  let m := JsString.toLowerCase (r_method r) in
  if String.eqb m "all" then "any"
  else if String.eqb m "delete" then "del"
  else m.

(** [#registerUwsRoute(route, optimizedPath)]; [None] on a router that has
    no [uwsApp]. *)
Definition registerUwsRoute (this : Router) (r : route)
    (optimizedPath : list route) : option Router :=
  match uwsApp this with
  | Some table =>
      Some (mkRouter (routes this) (paramCallbacks this) (errorRoute this)
              (mountpath this) (settings this) (parent this)
              (Some (table ++ [mkNative (uws_method r) (r_path r)
                                 optimizedPath])))
  | None => None
  end.

(** The [while] of the native continuation, entered with [i] already
    one past the caller. *)
Fixpoint chain_skip (fuel : nat) (optimizedPath : list route) (i : nat)
    (key : Z) : nat :=
  match fuel, optimizedPath !! (i - 1) with
  | S fuel', Some r =>
      if negb (routeKey r =? key)%Z && (i <? length optimizedPath)
      then chain_skip fuel' optimizedPath (S i) key
      else i
  | _, _ => i
  end.

(** The [catch] of the native handler. *)
Definition chain_catch (this : Router) (e : error) (x : exchange)
  : list event * exchange :=
  match errorRoute this with
  | Some eh =>
      let er := on_error eh e x in
      let x' := after_error x er in
      if e_next er && negb (headersSent (res x'))
      then ([ErrorRoute e; Page500 e], send500 x')
      else ([ErrorRoute e], x')
  | None => ([Page500 e], send500 x)
  end.

(** What a call of [optimizedPath[i].callback] comes to: the chain is
    over, or the continuation calls the entry at a later index. *)
Inductive link : Type :=
| Over (evs : list event) (x : exchange)
| Onward (evs : list event) (j : nat) (x : exchange) (inTry : bool).

(** The call of [optimizedPath[i].callback] and the continuation [next] it
    is handed.  [inTry] tells whether the call is still, synchronously,
    inside the [try] of the native handler. *)
Definition chain_step (this : Router) (optimizedPath : list route) (i : nat)
    (x : exchange) (inTry : bool) : link :=
  let raise (evs : list event) (e : error) (inTry' : bool) (x' : exchange) :=
    if inTry' then
      let '(evs', x'') := chain_catch this e x' in Over (evs ++ evs') x''
    else Over (evs ++ [Unhandled e]) x' in
  match optimizedPath !! i with
  | None => Over [] x
  | Some r =>
      match callback r with
      | SubRouter _ => raise [] TypeError inTry x
      | Handler f =>
          let re := on_request f x in
          let x1 := after x re in
          let inTry' :=
            inTry && match when re with Sync => true | _ => false end in
          let next_at (j : nat) :=
            if length optimizedPath <=? j then Over [Call (routeKey r)] x1
            else Onward [Call (routeKey r)] j x1 inTry' in
          match sig re with
          | Return => Over [Call (routeKey r)] x1
          | Next => next_at (S i)
          | NextRoute =>
              next_at
                (chain_skip (length optimizedPath) optimizedPath (S i)
                   (routeSkipKey r))
          | NextError e => raise [Call (routeKey r)] e inTry' x1
          | Throw e => raise [Call (routeKey r)] e inTry' x1
          end
      end
  end.

(** The calls of a native handler, from the entry at [i] on. *)
Fixpoint chain (this : Router) (optimizedPath : list route) (fuel : nat)
    (i : nat) (x : exchange) (inTry : bool) {struct fuel}
  : list event * exchange :=
  match fuel with
  | O => ([], x)
  | S fuel' =>
      match chain_step this optimizedPath i x inTry with
      | Over evs x' => (evs, x')
      | Onward evs j x' inTry' =>
          let '(evs', x'') := chain this optimizedPath fuel' j x' inTry' in
          (evs ++ evs', x'')
      end
  end.

(** The handler [#registerUwsRoute] hands to the transport. *)
Definition native_handler (this : Router) (r : route)
    (optimizedPath : list route) (x : exchange) : list event * exchange :=
  let st := preprocessRequest this r x in
  if resumed st then
    let '(evs, x') :=
      chain this optimizedPath (S (length optimizedPath)) 0 (s_x st) true in
    (s_trace st ++ evs, x')
  else (s_trace st, s_x st).

(* ------------------------------------------------------------------- *)
(** ** Registration: [#createRoute], [use], [param], the verbs

    The counter [routeKey] is global to the module: every registration
    takes its current value and returns the new one.  [None] stands for
    a registration that throws. *)

(** A callback argument: one callback, or an array of them (which
    [callbacks.flat()] spreads). *)
Inductive cb_arg : Type :=
| Cb (c : callback_t)
| Cbs (cs : list callback_t).

Definition flat (callbacks : list cb_arg) : list callback_t :=
  concat (map (fun a => match a with Cb c => [c] | Cbs cs => cs end)
            callbacks).

Definition paths_of (p : path_arg) : list pathv :=
  match p with
  | OnePath p => [p]
  | Paths ps => ps
  end.

(** The methods the transport supports natively. *)
Definition native_methods : list string :=
  ["GET"; "POST"; "PUT"; "DELETE"; "PATCH"; "OPTIONS"; "HEAD"; "CONNECT";
   "TRACE"].

(** The two rewrites of a path at the head of the inner loop. *)
Definition normalize (this : Router) (p : pathv) : pathv :=
  let p1 :=
    match p with
    | PStr s =>
        if negb (truthy (get this "strict routing"))
           && JsString.endsWith s "/" && negb (String.eqb s "/")
        then PStr (JsString.slice_0_m1 s)
        else p
    | PRe _ => p
    end in
  match p1 with
  | PStr s => if String.eqb s "*" then PStr "/*" else p1
  | PRe _ => p1
  end.

(** The route object of the inner loop, for the counter value [key]. *)
Definition make_route (method : string) (p : pathv) (cb : callback_t)
    (skip key : Z) : option route :=
  let is_use := String.eqb method "USE" in
  pat ← (if is_use || needsConversionToRegex p
         then PRe <$> patternToRegex p is_use
         else Some p);
  Some (mkRoute (if is_use then "ALL" else JsString.toUpperCase method)
          p pat cb skip key is_use (String.eqb method "ALL" || is_use)).

Definition optimizable (this : Router) (method : string) (r : route)
  : bool :=
  match pattern r with
  | PStr s =>
      negb (String.eqb s "/*")
      && match parent this with None => true | Some _ => false end
      && truthy (get this "case sensitive routing")
      && existsb (String.eqb method) native_methods
  | PRe _ => false
  end.

(** The inner loop [for (let path of paths)]: the counter, the router
    (whose [uwsApp] the optimizer extends) and the local [routes]. *)
Fixpoint create_paths (method : string) (cb : callback_t) (skip : Z)
    (paths : list pathv) (key : Z) (this : Router) (local : list route)
  : option (Z * Router * list route) :=
  match paths with
  | [] => Some (key, this, local)
  | p :: paths' =>
      r ← make_route method (normalize this p) cb skip key;
      this' ← (if optimizable this method r
               then registerUwsRoute this r (optimizeRoute this r [] [])
               else Some this);
      create_paths method cb skip paths' (key + 1)%Z this' (local ++ [r])
  end.

Definition push_routes (this : Router) (rs : list route) : Router :=
  mkRouter (routes this ++ rs) (paramCallbacks this) (errorRoute this)
    (mountpath this) (settings this) (parent this) (uwsApp this).

(** The outer loop [for (let callback of callbacks)]. *)
Fixpoint create_callbacks (method : string) (path : path_arg) (skip : Z)
    (callbacks : list callback_t) (key : Z) (this : Router)
  : option (Z * Router) :=
  match callbacks with
  | [] => Some (key, this)
  | cb :: callbacks' =>
      '(key', this', local) ←
        create_paths method cb skip (paths_of path) key this [];
      create_callbacks method path skip callbacks' key'
        (push_routes this' local)
  end.

(** [#createRoute(method, path, parent, ...callbacks)] with the counter
    at [key]. *)
Definition createRoute (key : Z) (this : Router) (method : string)
    (path : path_arg) (callbacks : list cb_arg) : option (Z * Router) :=
  let callbacks := flat callbacks in
  let routeSkipKey := (key + Z.of_nat (length callbacks) - 1)%Z in
  create_callbacks method path routeSkipKey callbacks key this.

(** [router[method](path, ...callbacks)] for one of the verbs, and
    [get(path, ...callbacks)] with callbacks. *)
Definition verb (key : Z) (this : Router) (method : string)
    (path : path_arg) (callbacks : list cb_arg) : option (Z * Router) :=
  createRoute key this (JsString.toUpperCase method) path callbacks.

(** The first argument of [use]: a function, a router, an array of
    those, or a path. *)
Inductive use_arg : Type :=
| UFun (f : jsfun)
| URouter (r : Router)
| UArray (cs : list callback_t)
| UPath (p : path_arg).

Definition set_errorRoute (this : Router) (f : jsfun) : Router :=
  mkRouter (routes this) (paramCallbacks this) (Some f) (mountpath this)
    (settings this) (parent this) (uwsApp this).

(** [callback.mountpath = path; callback.parent = this] *)
Definition adopt (this : Router) (path : path_arg) (a : cb_arg) : cb_arg :=
  match a with
  | Cb (SubRouter r) =>
      Cb (SubRouter
            (mkRouter (routes r) (paramCallbacks r) (errorRoute r) path
               (settings r) (Some this) (uwsApp r)))
  | other => other
  end.

(** [use(path, ...callbacks)] *)
Definition use (key : Z) (this : Router) (first : use_arg)
    (callbacks : list cb_arg) : option (Z * Router) :=
  let mount (path : path_arg) (callbacks : list cb_arg) :=
    let path :=
      match path with
      | OnePath (PStr s) =>
          if String.eqb s "/" then OnePath (PStr "") else path
      | _ => path
      end in
    createRoute key this "USE" path (map (adopt this path) callbacks) in
  match first with
  | UFun f =>
      match callbacks with
      | [] =>
          if arity f =? 4 then Some (key, set_errorRoute this f)
          else mount (OnePath (PStr "")) [Cb (Handler f)]
      | _ :: _ => mount (OnePath (PStr "")) (Cb (Handler f) :: callbacks)
      end
  | URouter r => mount (OnePath (PStr "")) (Cb (SubRouter r) :: callbacks)
  | UArray cs => mount (OnePath (PStr "")) (Cbs cs :: callbacks)
  | UPath (Paths []) => mount (OnePath (PStr "")) (Cbs [] :: callbacks)
  | UPath p => mount p callbacks
  end.

(** [param(name, fn)], [name] a string or an array of strings. *)
Definition param (this : Router) (names : list string) (fn : hook)
  : Router :=
  mkRouter (routes this)
    (foldl (fun m name =>
              <[name := default [] (m !! name) ++ [fn]]> m)
       (paramCallbacks this) names)
    (errorRoute this) (mountpath this) (settings this) (parent this)
    (uwsApp this).

(** [application.js]: an application is a router with a transport and
    the default settings (those that are constants). *)
Definition defaultSettings : list (string * value) :=
  [("jsonp callback name", VString "callback");
   ("etag", VString "weak");
   ("query parser", VString "extended");
   ("subdomain offset", VNumber 2);
   ("trust proxy", VBool false);
   ("x-powered-by", VBool true);
   ("case sensitive routing", VBool true);
   ("declarative responses", VBool true)].

Definition new_Application (settings : gmap string value) : Router :=
  mkRouter [] ∅ None (OnePath (PStr "/"))
    (foldl (fun m kv =>
              if truthy (default VUndefined (m !! kv.1)) then m
              else <[kv.1 := kv.2]> m)
       settings defaultSettings)
    None (Some []).

(** Modelled from the spec: the request-scoped state at the start of a
    dispatch, which the constructors of request.js and response.js (not
    among the sources) set up: the path as received with no query, an empty
    stack of mount paths, no resolved parameters, no parameter name
    dispatched to hooks yet; the connection open and nothing sent. *)
Definition new_exchange (m p : string) (u : U) : exchange :=
  mkExchange (mkRequest m p "" p p [] [] ∅) (mkResponse false false) u.

End Router.

Abbreviation route := (route_of Router).
Abbreviation callback_t := (callback_of Router).
Abbreviation native := (native_of Router).
Abbreviation route_t U := (@route_of U (@Router U)).
Abbreviation callback_tt U := (@callback_of U (@Router U)).
Abbreviation subwalk := (exchange -> result).
Abbreviation subwalk_t U := (@exchange U -> @result U).

(* ===================================================================== *)
(** * Properties of the pattern helpers *)
(* ===================================================================== *)

Section PatternFacts.

(** The characters of a string. *)
Definition chars (s : string) : list ascii := list_ascii_of_string s.

(** The characters that make [needsConversionToRegex] answer yes. *)
Definition special : list ascii :=
  ["*"; "?"; "+"; "("; ")"; ":"; "{"; "}"; "["; "]"]%char.

Lemma includes_char (s : string) (c : ascii) :
  JsString.includes s (String c EmptyString) = true <-> In c (chars s).
Proof.
  induction s as [|a s IH]; simpl.
  - split; [discriminate | tauto].
  - rewrite orb_true_iff, andb_true_iff, IH.
    destruct (Ascii.eqb_spec c a) as [->|Hne].
    + split; [auto | intros _; left; split; [reflexivity | now destruct s]].
    + split.
      * intros [[Hf _]|H]; [discriminate | auto].
      * intros [Heq|H]; [congruence | auto].
Qed.

Lemma includes_special (s : string) :
  existsb (fun c => JsString.includes s (String c EmptyString)) special = true
  <-> exists c, In c special /\ In c (chars s).
Proof.
  rewrite existsb_exists.
  split; intros (c & Hc & H); exists c; split; auto;
    now apply includes_char.
Qed.

(** C5, as the code has it: off the template ["/*"], which the function
    answers first, it says yes exactly for the templates that hold one
    of the ten characters. *)
Theorem needsConversionToRegex_iff (template : string) :
  template <> "/*" ->
  (needsConversionToRegex (PStr template) = true
   <-> exists c, In c special /\ In c (chars template)).
Proof.
  intros Hne. rewrite <- includes_special. unfold needsConversionToRegex.
  destruct (String.eqb_spec template "/*") as [->|_]; [congruence|].
  simpl. rewrite !orb_false_r, !orb_assoc. reflexivity.
Qed.

Lemma needsConversionToRegex_iff_witness :
  needsConversionToRegex (PStr "/users/:id") = true
  <-> exists c, In c special /\ In c (chars "/users/:id").
Proof. apply (needsConversionToRegex_iff "/users/:id"). discriminate. Defined.

(** C5 as stated fails on ["/*"]: it holds a star, and the answer is
    no. *)
Lemma needsConversionToRegex_star_slash :
  ~ (forall template : string,
       needsConversionToRegex (PStr template) = true
       <-> exists c, In c special /\ In c (chars template)).
Proof.
  intros H. specialize (H "/*"). destruct H as [_ H].
  discriminate H. exists "*"%char. split; simpl; auto.
Qed.

(** An expression the caller built is never converted. *)
Lemma needsConversionToRegex_RegExp (re : RegExp.t) :
  needsConversionToRegex (PRe re) = false.
Proof. reflexivity. Qed.

End PatternFacts.

(* ===================================================================== *)
(** * Properties of the matcher on parameter segments *)
(* ===================================================================== *)

Section SegmentMatching.
Import RegExp.

(** A string without ["/"]. *)
Definition no_slash (s : string) : Prop := ~ In "/"%char (chars s).

(** A path segment: not empty, no ["/"]. *)
Definition segment (s : string) : Prop := s <> "" /\ no_slash s.

(** The default matcher of a parameter: one character that is not
    ["/"]. *)
Definition not_slash : rx := RSet true [CChar "/"].

Lemma not_slash_ok (c : ascii) :
  c <> "/"%char -> in_set true [CChar "/"] c = true.
Proof.
  intros H. unfold in_set. cbn [existsb in_item]. rewrite orb_false_r.
  destruct (Ascii.eqb_spec "/" c); [congruence | reflexivity].
Qed.

Lemma not_slash_ko : in_set true [CChar "/"] "/" = false.
Proof. reflexivity. Qed.

Lemma no_slash_cons (c : ascii) (s : string) :
  no_slash (String c s) -> c <> "/"%char /\ no_slash s.
Proof.
  unfold no_slash. simpl. intros H. split; intros ?; apply H; auto.
Qed.

Lemma substring_append (x r : string) :
  String.substring 0 (String.length x) (x +:+ r) = x.
Proof.
  induction x as [|c x IH]; simpl.
  - now destruct r.
  - now rewrite IH.
Qed.

Lemma substring_all (x : string) :
  String.substring 0 (String.length x) x = x.
Proof. induction x as [|c x IH]; simpl; [reflexivity | now rewrite IH]. Qed.

Lemma chars_append (x r : string) : chars (x +:+ r) = chars x ++ chars r.
Proof.
  induction x as [|c x IH]; [reflexivity|].
  change (String c x +:+ r) with (String c (x +:+ r)).
  unfold chars in *. simpl. now rewrite IH.
Qed.

Lemma append_empty_r (x : string) : x +:+ "" = x.
Proof.
  induction x as [|c x IH]; [reflexivity|].
  change (String c x +:+ "") with (String c (x +:+ "")). now rewrite IH.
Qed.

Lemma length_append (x r : string) :
  String.length (x +:+ r) = String.length x + String.length r.
Proof. induction x as [|c x IH]; simpl; [reflexivity | now rewrite IH]. Qed.

(** What is left after a run of characters that are not ["/"]: nothing,
    or something that starts with ["/"]. *)
Definition stops (r : string) : Prop :=
  r = "" \/ exists r', r = String "/" r'.

Lemma one_char_stops (k : cont) (n : nat) (r : string)
    (cs : list (nat * string)) :
  stops r ->
  one_char (in_set true [CChar "/"]) k (MState n r cs) = None.
Proof. intros [->|[r' ->]]; reflexivity. Qed.

(** One unfolding of the repeat matcher. *)
Lemma rep_unbounded (step : cont -> cont) (fuel min : nat) (greedy : bool)
    (k : cont) (s : mstate) :
  rep step (S fuel) min None greedy k s =
  let again : cont := fun s' =>
    if (min =? 0) && (consumed s' =? consumed s) then None
    else rep step fuel (Nat.pred min) None greedy k s' in
  if negb (min =? 0) then step again s
  else if greedy then
    match step again s with Some r => Some r | None => k s end
  else
    match k s with Some r => Some r | None => step again s end.
Proof. reflexivity. Qed.

Lemma run_not_slash_cons (k : cont) (n : nat) (c : ascii) (t : string)
    (cs : list (nat * string)) :
  c <> "/"%char ->
  run not_slash k (MState n (String c t) cs) = k (MState (S n) t cs).
Proof.
  intros Hc. cbn [run not_slash]. unfold one_char, advance.
  cbn [rest consumed caps]. now rewrite (not_slash_ok c Hc).
Qed.

Lemma run_not_slash_stops (k : cont) (n : nat) (r : string)
    (cs : list (nat * string)) :
  stops r -> run not_slash k (MState n r cs) = None.
Proof. intros H. cbn [run not_slash]. now apply one_char_stops. Qed.

(** A greedy repetition of [not_slash] over a run [x] takes all of it
    first. *)
Lemma rep_not_slash_longest (x : string) :
  no_slash x ->
  forall (fuel min n : nat) (r : string) (cs : list (nat * string))
         (k : cont) (out : mstate),
    min <= String.length x -> String.length x < fuel -> stops r ->
    k (MState (n + String.length x) r cs) = Some out ->
    rep (run not_slash) fuel min None true k (MState n (x +:+ r) cs)
    = Some out.
Proof.
  induction x as [|c x IH]; intros Hx fuel min n r cs k out Hmin Hfuel Hr Hk;
    (destruct fuel as [|fuel]; [simpl in Hfuel; lia|]);
    rewrite rep_unbounded; cbv zeta;
    [change ("" +:+ r) with r
    |change (String c x +:+ r) with (String c (x +:+ r))].
  - simpl in Hmin, Hk. assert (min = 0) as -> by lia.
    rewrite run_not_slash_stops by assumption.
    now rewrite Nat.add_0_r in Hk.
  - apply no_slash_cons in Hx as [Hc Hx].
    simpl in Hmin, Hfuel, Hk.
    rewrite (run_not_slash_cons _ n c _ cs Hc). cbn [consumed].
    replace (S n =? n) with false by (symmetry; apply Nat.eqb_neq; lia).
    rewrite andb_false_r.
    rewrite (IH Hx fuel (Nat.pred min) (S n) r cs k out); try assumption;
      try lia.
    + now destruct (min =? 0).
    + now replace (S n + String.length x) with (n + S (String.length x))
        by lia.
Qed.

(** It fails when the continuation fails after every prefix of the run
    that is long enough. *)
Lemma rep_not_slash_fails (x : string) :
  no_slash x ->
  forall (fuel min n : nat) (r : string) (cs : list (nat * string))
         (k : cont),
    stops r ->
    (forall x1 x2, x = x1 +:+ x2 -> min <= String.length x1 ->
       k (MState (n + String.length x1) (x2 +:+ r) cs) = None) ->
    rep (run not_slash) fuel min None true k (MState n (x +:+ r) cs)
    = None.
Proof.
  induction x as [|c x IH]; intros Hx fuel min n r cs k Hr Hk;
    (destruct fuel as [|fuel]; [reflexivity|]);
    rewrite rep_unbounded; cbv zeta;
    [change ("" +:+ r) with r
    |change (String c x +:+ r) with (String c (x +:+ r))].
  - rewrite run_not_slash_stops by assumption.
    destruct (min =? 0) eqn:Hm; cbn [negb]; [|reflexivity].
    apply Nat.eqb_eq in Hm as ->.
    specialize (Hk "" "" eq_refl (Nat.le_0_l _)).
    simpl in Hk. now rewrite Nat.add_0_r in Hk.
  - apply no_slash_cons in Hx as [Hc Hx].
    rewrite (run_not_slash_cons _ n c _ cs Hc). cbn [consumed].
    replace (S n =? n) with false by (symmetry; apply Nat.eqb_neq; lia).
    rewrite andb_false_r.
    rewrite (IH Hx fuel (Nat.pred min) (S n) r cs k Hr).
    + destruct (min =? 0) eqn:Hm; cbn [negb]; [|reflexivity].
      apply Nat.eqb_eq in Hm as ->.
      specialize (Hk "" (String c x) eq_refl (Nat.le_0_l _)).
      simpl in Hk. now rewrite Nat.add_0_r in Hk.
    + intros x1 x2 -> Hlen.
      replace (S n + String.length x1)
        with (n + String.length (String c x1)) by (simpl; lia).
      apply (Hk (String c x1) x2); [reflexivity | simpl; lia].
Qed.

End SegmentMatching.

(* ===================================================================== *)
(** * The template ["/:a/:b"] *)
(* ===================================================================== *)

Section TwoParams.
Import RegExp.

(** The sub-pattern [[^/]+] of a parameter. *)
Definition segment_rx : rx := RRep not_slash 1 None true.

Lemma run_RChar_hit (c : ascii) (k : cont) (n : nat) (t : string)
    (cs : list (nat * string)) :
  run (RChar c) k (MState n (String c t) cs) = k (MState (S n) t cs).
Proof.
  cbn [run]. unfold one_char, advance. cbn [rest consumed caps].
  now rewrite Ascii.eqb_refl.
Qed.

Lemma run_RChar_miss (c : ascii) (k : cont) (n : nat) (r : string)
    (cs : list (nat * string)) :
  (forall t, r <> String c t) -> run (RChar c) k (MState n r cs) = None.
Proof.
  intros H. cbn [run]. unfold one_char. cbn [rest].
  destruct r as [|c' t]; [reflexivity|].
  destruct (Ascii.eqb_spec c c') as [->|]; [now destruct (H t) | reflexivity].
Qed.

Lemma run_segment_longest (x r : string) (n : nat)
    (cs : list (nat * string)) (k : cont) (out : mstate) :
  segment x -> stops r ->
  k (MState (n + String.length x) r cs) = Some out ->
  run segment_rx k (MState n (x +:+ r) cs) = Some out.
Proof.
  intros [Hne Hx] Hr Hk. cbn [run segment_rx]. cbn [rest].
  apply rep_not_slash_longest; auto.
  - destruct x; [congruence | simpl; lia].
  - rewrite length_append. lia.
Qed.

Lemma run_segment_fails (x r : string) (n : nat)
    (cs : list (nat * string)) (k : cont) :
  no_slash x -> stops r ->
  (forall x1 x2, x = x1 +:+ x2 -> 1 <= String.length x1 ->
     k (MState (n + String.length x1) (x2 +:+ r) cs) = None) ->
  run segment_rx k (MState n (x +:+ r) cs) = None.
Proof.
  intros Hx Hr Hk. cbn [run segment_rx].
  now apply rep_not_slash_fails.
Qed.

(** What [patternToRegex] makes of ["/:a/:b"]. *)
Definition two_params : RegExp.t :=
  Compiled "^/(?<a>[^/]+)/(?<b>[^/]+)$"
    (RSeq RBol
       (RSeq (RChar "/")
          (RSeq (RGroup 1 segment_rx)
             (RSeq (RChar "/") (RSeq (RGroup 2 segment_rx) REol)))))
    2 [("a", 1); ("b", 2)].

Lemma patternToRegex_two_params :
  patternToRegex (PStr "/:a/:b") false = Some two_params.
Proof. vm_compute. reflexivity. Qed.

Lemma run_RSeq (a b : rx) (k : cont) (s : mstate) :
  run (RSeq a b) k s = run a (run b k) s.
Proof. reflexivity. Qed.

Lemma run_RGroup (i : nat) (r : rx) (k : cont) (s : mstate) :
  run (RGroup i r) k s = run r (fun s' => k (set_cap i s s')) s.
Proof. reflexivity. Qed.

Lemma run_RBol_start (k : cont) (r : string) (cs : list (nat * string)) :
  run RBol k (MState 0 r cs) = k (MState 0 r cs).
Proof. reflexivity. Qed.

Lemma run_RBol_later (k : cont) (n : nat) (r : string)
    (cs : list (nat * string)) :
  run RBol k (MState (S n) r cs) = None.
Proof. reflexivity. Qed.

Lemma run_REol_end (k : cont) (n : nat) (cs : list (nat * string)) :
  run REol k (MState n "" cs) = k (MState n "" cs).
Proof. reflexivity. Qed.

(** The capture of a group that matched the run [x]. *)
Lemma set_cap_run (i n : nat) (x r : string) (cs : list (nat * string)) :
  set_cap i (MState n (x +:+ r) cs) (MState (n + String.length x) r cs)
  = MState (n + String.length x) r ((i, x) :: cs).
Proof.
  unfold set_cap, text_between. cbn [consumed rest caps].
  replace (n + String.length x - n) with (String.length x) by lia.
  now rewrite substring_append.
Qed.

Lemma two_params_run (x y : string) :
  segment x -> segment y ->
  run (tree two_params) Some (MState 0 (String "/" (x +:+ String "/" y)) [])
  = Some (MState (S (S (String.length x) + String.length y)) "" [(2, y); (1, x)]).
Proof.
  intros Hx Hy.
  cbn [tree two_params].
  rewrite run_RSeq, run_RBol_start, run_RSeq, run_RChar_hit.
  rewrite run_RSeq, run_RGroup.
  apply run_segment_longest; [assumption | right; eauto |]. cbv beta.
  rewrite set_cap_run, run_RSeq, run_RChar_hit, run_RSeq.
  rewrite <- (append_empty_r y) at 1. rewrite run_RGroup.
  apply run_segment_longest; [assumption | now left |]. cbv beta.
  rewrite set_cap_run, run_REol_end. reflexivity.
Qed.

Lemma two_params_short (x : string) (n : nat) :
  no_slash x ->
  run (tree two_params) Some (MState n (String "/" x) []) = None.
Proof.
  intros Hx. cbn [tree two_params]. rewrite run_RSeq.
  destruct n as [|n]; [|apply run_RBol_later].
  rewrite run_RBol_start, run_RSeq, run_RChar_hit, run_RSeq, run_RGroup.
  rewrite <- (append_empty_r x).
  apply run_segment_fails; [assumption | now left |].
  intros x1 x2 -> _. rewrite run_RSeq. apply run_RChar_miss.
  intros t Ht. rewrite append_empty_r in Ht.
  cbn [rest] in Ht. subst x2.
  apply Hx. rewrite chars_append. apply in_or_app. right. now left.
Qed.

Lemma two_params_search_later (fuel n : nat) (r : string) :
  search two_params fuel (MState (S n) r []) = None.
Proof.
  revert n r. induction fuel as [|fuel IH]; intros n r; cbn [search];
    cbn [tree two_params]; rewrite run_RSeq, run_RBol_later;
    cbn [rest]; destruct r; try reflexivity.
  unfold advance. cbn [consumed caps]. apply IH.
Qed.

Lemma two_params_exec (x y : string) :
  segment x -> segment y ->
  exec two_params ("/" +:+ x +:+ "/" +:+ y)
  = Some (Match 0 ("/" +:+ x +:+ "/" +:+ y) [Some x; Some y]
            [("a", Some x); ("b", Some y)]).
Proof.
  intros Hx Hy. unfold exec.
  change ("/" +:+ x +:+ "/" +:+ y) with (String "/" (x +:+ String "/" y)).
  cbn [String.length search]. rewrite (two_params_run x y Hx Hy).
  unfold result_of, text_between. cbn [consumed rest caps two_params ngroups names map seq cap_lookup Nat.eqb fst snd].
  replace (S (S (String.length x) + String.length y) - 0)
    with (String.length (String "/" (x +:+ String "/" y)))
    by (cbn [String.length]; rewrite length_append; cbn [String.length]; lia).
  now rewrite substring_all.
Qed.

Lemma two_params_exec_short (x : string) :
  no_slash x -> exec two_params ("/" +:+ x) = None.
Proof.
  intros Hx. unfold exec. change ("/" +:+ x) with (String "/" x).
  cbn [String.length search]. rewrite (two_params_short x 0 Hx).
  cbn [rest]. unfold advance. cbn [consumed caps].
  apply two_params_search_later.
Qed.


Lemma segment_x : segment "x".
Proof.
  split; [discriminate|]. intros [H|[]]. discriminate H.
Qed.

Lemma segment_y : segment "y".
Proof.
  split; [discriminate|]. intros [H|[]]. discriminate H.
Qed.


End TwoParams.

(* ===================================================================== *)
(** * Registration: keys and skip keys *)
(* ===================================================================== *)

Section RegistrationFacts.
Context {U : Type}.
Implicit Types (this : @Router U) (r : route_t U) (cb : callback_tt U).

(** Two states of a router that differ in the transport table only. *)
Definition same_table this this' : Prop :=
  routes this' = routes this /\
  paramCallbacks this' = paramCallbacks this /\
  errorRoute this' = errorRoute this /\
  mountpath this' = mountpath this /\
  settings this' = settings this /\
  parent this' = parent this.

Lemma same_table_refl this : same_table this this.
Proof. repeat split. Qed.

Lemma same_table_trans this1 this2 this3 :
  same_table this1 this2 -> same_table this2 this3 -> same_table this1 this3.
Proof.
  unfold same_table. intros (?&?&?&?&?&?) (?&?&?&?&?&?).
  repeat split; congruence.
Qed.

Lemma get_same this this' key :
  same_table this this' -> get this' key = get this key.
Proof.
  destruct this, this'. unfold same_table. cbn.
  intros (_ & _ & _ & _ & -> & ->). reflexivity.
Qed.

Lemma normalize_same this this' p :
  same_table this this' -> normalize this' p = normalize this p.
Proof. intros H. unfold normalize. now rewrite (get_same _ _ _ H). Qed.

Lemma registerUwsRoute_same this r chain this' :
  registerUwsRoute this r chain = Some this' -> same_table this this'.
Proof.
  unfold registerUwsRoute. destruct (uwsApp this); [|discriminate].
  intros [= <-]. repeat split.
Qed.

Lemma make_route_fields method p cb skip key r :
  make_route method p cb skip key = Some r ->
  routeKey r = key /\ routeSkipKey r = skip /\ callback r = cb /\ r_path r = p.
Proof.
  unfold make_route. intros H.
  destruct (if String.eqb method "USE" || needsConversionToRegex p
            then PRe <$> patternToRegex p (String.eqb method "USE")
            else Some p) as [pat|]; [|discriminate].
  injection H as <-. repeat split.
Qed.

(** The inner loop makes one route per path, with consecutive keys from
    [key] on and the same skip key. *)
Lemma create_paths_spec method cb skip paths :
  forall key this local key' this' local',
    create_paths method cb skip paths key this local
    = Some (key', this', local') ->
    same_table this this' /\
    key' = (key + Z.of_nat (length paths))%Z /\
    exists new,
      local' = local ++ new /\ length new = length paths /\
      forall j r, new !! j = Some r ->
        exists p,
          paths !! j = Some p /\
          make_route method (normalize this p) cb skip (key + Z.of_nat j)
          = Some r.
Proof.
  induction paths as [|p paths IH]; intros key this local key' this' local' H.
  - injection H as <- <- <-. split; [apply same_table_refl|].
    split; [simpl; lia|]. exists []. split; [now rewrite app_nil_r|].
    split; [reflexivity|]. intros j r Hj. now rewrite lookup_nil in Hj.
  - cbn [create_paths] in H.
    destruct (make_route method (normalize this p) cb skip key) as [r0|] eqn:Hr0;
      [|discriminate].
    cbn [mbind option_bind] in H.
    destruct (if optimizable this method r0
              then registerUwsRoute this r0 (optimizeRoute this r0 [] [])
              else Some this) as [this1|] eqn:Hthis1; [|discriminate].
    cbn [mbind option_bind] in H.
    assert (Hsame : same_table this this1).
    { destruct (optimizable this method r0).
      - now apply registerUwsRoute_same in Hthis1.
      - injection Hthis1 as <-. apply same_table_refl. }
    apply IH in H as (Hsame' & -> & new & -> & Hlen & Hnew).
    split; [eapply same_table_trans; eassumption|].
    split; [simpl length; lia|].
    exists (r0 :: new). split; [now rewrite <- app_assoc|].
    split; [simpl; lia|].
    intros [|j] r Hj.
    + injection Hj as <-. exists p. split; [reflexivity|].
      now rewrite Z.add_0_r.
    + apply Hnew in Hj as (q & Hq & Hr). exists q. split; [exact Hq|].
      rewrite <- (normalize_same _ _ _ Hsame), <- Hr. f_equal. lia.
Qed.

Lemma push_routes_same this this' rs :
  same_table this this' ->
  routes (push_routes this' rs) = routes this ++ rs /\
  paramCallbacks (push_routes this' rs) = paramCallbacks this /\
  errorRoute (push_routes this' rs) = errorRoute this /\
  settings (push_routes this' rs) = settings this /\
  parent (push_routes this' rs) = parent this.
Proof.
  intros (Hr & ? & ? & ? & ? & ?). cbn. rewrite Hr. repeat split; assumption.
Qed.

(** What a registration leaves of the router besides its table. *)
Definition same_config this this' : Prop :=
  paramCallbacks this' = paramCallbacks this /\
  errorRoute this' = errorRoute this /\
  settings this' = settings this /\
  parent this' = parent this.

Lemma get_same_config this this' key :
  same_config this this' -> get this' key = get this key.
Proof.
  destruct this, this'. unfold same_config. cbn.
  intros (_ & _ & -> & ->). reflexivity.
Qed.

(** The outer loop: the routes of a call, callback after callback and path
    after path, with consecutive keys and one skip key. *)
Lemma create_callbacks_spec method path skip callbacks :
  forall key this key' this',
    create_callbacks method path skip callbacks key this = Some (key', this') ->
    let m := length (paths_of path) in
    same_config this this' /\
    key' = (key + Z.of_nat (length callbacks * m))%Z /\
    exists new,
      routes this' = routes this ++ new /\
      length new = length callbacks * m /\
      forall j r, new !! j = Some r ->
        exists cb p,
          callbacks !! (j / m) = Some cb /\
          paths_of path !! (j mod m) = Some p /\
          make_route method (normalize this p) cb skip (key + Z.of_nat j)
          = Some r.
Proof.
  induction callbacks as [|cb callbacks IH]; intros key this key' this' H m.
  - injection H as <- <-. split; [repeat split|].
    split; [simpl; lia|]. exists []. split; [now rewrite app_nil_r|].
    split; [reflexivity|]. intros j r Hj. now rewrite lookup_nil in Hj.
  - cbn [create_callbacks] in H.
    destruct (create_paths method cb skip (paths_of path) key this [])
      as [[[key1 this1] local]|] eqn:Hp; [|discriminate].
    cbn [mbind option_bind] in H.
    apply create_paths_spec in Hp as (Hsame & -> & new1 & -> & Hlen1 & Hnew1).
    apply IH in H as (Hcfg & -> & new & Hroutes & Hlen & Hnew).
    cbv zeta in *. subst m. remember (length (paths_of path)) as m.
    destruct (push_routes_same this this1 ([] ++ new1) Hsame)
      as (Hr1 & Hpc & Her & Hst & Hpar).
    assert (Hcfg1 : same_config this (push_routes this1 ([] ++ new1)))
      by (repeat split; assumption).
    destruct Hcfg as (Hpc' & Her' & Hst' & Hpar').
    split; [repeat split; congruence|].
    split; [cbn [length Nat.mul]; rewrite Nat2Z.inj_add; lia|].
    exists (new1 ++ new). split.
    { rewrite Hroutes, Hr1. simpl. now rewrite app_assoc. }
    split; [rewrite length_app; cbn [length Nat.mul]; lia|].
    intros j r Hj.
    destruct (decide (j < m)) as [Hlt|Hge].
    + rewrite lookup_app_l in Hj by lia.
      apply Hnew1 in Hj as (p & Hp & Hr).
      exists cb, p. rewrite Nat.div_small, Nat.mod_small by assumption.
      repeat split; assumption.
    + rewrite lookup_app_r in Hj by lia. rewrite Hlen1 in Hj.
      assert (m <> 0) as Hm.
      { intros ->. apply lookup_lt_Some in Hj. lia. }
      apply Hnew in Hj as (cb' & p & Hcb & Hp & Hr).
      exists cb', p.
      replace j with ((j - m) + 1 * m) at 1 2 by lia.
      rewrite Nat.div_add, Nat.Div0.mod_add by lia. rewrite Nat.add_1_r.
      split; [exact Hcb|]. split; [exact Hp|].
      unfold normalize in Hr |- *.
      rewrite (get_same_config _ _ _ Hcfg1) in Hr. rewrite <- Hr.
      f_equal. lia.
Qed.

(** C3, the part that holds: a call of [#createRoute] makes one route per
    callback and path, numbers them from the counter on, and gives all of
    them the skip key [counter + (number of callbacks) - 1]. *)
Lemma createRoute_spec (key : Z) this (method : string) (path : path_arg)
    (callbacks : list cb_arg) (key' : Z) this' :
  createRoute key this method path callbacks = Some (key', this') ->
  let n := length (flat callbacks) in
  let m := length (paths_of path) in
  same_config this this' /\
  key' = (key + Z.of_nat (n * m))%Z /\
  exists new,
    routes this' = routes this ++ new /\
    length new = n * m /\
    forall j r, new !! j = Some r ->
      routeKey r = (key + Z.of_nat j)%Z /\
      routeSkipKey r = (key + Z.of_nat n - 1)%Z /\
      exists cb p,
        flat callbacks !! (j / m) = Some cb /\
        paths_of path !! (j mod m) = Some p /\
        make_route method (normalize this p) cb (key + Z.of_nat n - 1)
          (key + Z.of_nat j) = Some r.
Proof.
  intros H n m. unfold createRoute in H.
  apply create_callbacks_spec in H as (Hcfg & Hkey & new & Hr & Hlen & Hnew).
  split; [exact Hcfg|]. split; [exact Hkey|].
  exists new. split; [exact Hr|]. split; [exact Hlen|].
  intros j r Hj. destruct (Hnew j r Hj) as (cb & p & Hcb & Hp & Hmk).
  pose proof (make_route_fields _ _ _ _ _ _ Hmk) as (Hk & Hs & _).
  split; [exact Hk|]. split; [exact Hs|]. now exists cb, p.
Qed.

(** With one path the skip key is the key of the last route of the
    call. *)
Lemma createRoute_one_path (key : Z) this (method : string) (p : pathv)
    (callbacks : list cb_arg) (key' : Z) this' :
  createRoute key this method (OnePath p) callbacks = Some (key', this') ->
  exists new,
    routes this' = routes this ++ new /\
    length new = length (flat callbacks) /\
    (forall j r, new !! j = Some r ->
       routeKey r = (key + Z.of_nat j)%Z /\
       routeSkipKey r = (key + Z.of_nat (length new) - 1)%Z) /\
    (forall r, last new = Some r -> routeSkipKey r = routeKey r).
Proof.
  intros H. apply createRoute_spec in H as (_ & _ & new & Hr & Hlen & Hnew).
  cbn [paths_of length] in Hlen, Hnew. rewrite Nat.mul_1_r in Hlen.
  exists new. split; [exact Hr|]. split; [exact Hlen|]. split.
  - intros j r Hj. destruct (Hnew j r Hj) as (Hk & Hs & _).
    rewrite Hlen. now split.
  - intros r Hlast. rewrite last_lookup in Hlast.
    pose proof (lookup_lt_Some _ _ _ Hlast) as Hlt.
    destruct (Hnew _ r Hlast) as (Hk & Hs & _).
    rewrite Hk, Hs. lia.
Qed.

(** With [m] paths the skip key is the key of the [n]-th route of the
    [n * m] the call makes: with two paths or more, not the last. *)
Lemma createRoute_many_paths (key : Z) this (method : string)
    (path : path_arg) (callbacks : list cb_arg) (key' : Z) this' :
  createRoute key this method path callbacks = Some (key', this') ->
  1 <= length (flat callbacks) -> 2 <= length (paths_of path) ->
  exists r,
    last (routes this') = Some r /\
    (routeSkipKey r < routeKey r)%Z.
Proof.
  intros H Hn Hm. apply createRoute_spec in H as (_ & _ & new & Hr & Hlen & Hnew).
  cbv zeta in *.
  assert (Hpos : 0 < length new) by (rewrite Hlen; nia).
  destruct (last new) as [r|] eqn:Hlast.
  2: { apply last_None in Hlast. subst new. cbn in Hpos. lia. }
  exists r. split.
  - rewrite Hr, last_app, Hlast. reflexivity.
  - rewrite last_lookup in Hlast.
    destruct (Hnew _ r Hlast) as (Hk & Hs & _).
    rewrite Hk, Hs. rewrite Hlen. nia.
Qed.

End RegistrationFacts.

(* ===================================================================== *)
(** * The walk: unfolding, fuel, skip keys *)
(* ===================================================================== *)

Section WalkFacts.
Context {U : Type}.
Implicit Types (this : @Router U) (r : route_t U) (x : @exchange U).

(** The walks of the nested routers of a table, entry by entry. *)
Definition subs_of this : list (option (subwalk_t U)) :=
  map (fun r =>
         match callback r with
         | SubRouter sub => Some (fun x' => _routeRequest sub x' 0)
         | Handler _ => None
         end)
      (routes this).

Lemma _routeRequest_eq this x i :
  _routeRequest this x i
  = walk this (subs_of this) (S (length (routes this))) i x None.
Proof. destruct this. reflexivity. Qed.

Lemma skip_to_spec (table : list (route_t U)) (key : Z) :
  forall fuel i j,
    skip_to fuel table i key = Some j ->
    i <= j /\
    (exists r, table !! j = Some r /\ routeKey r = key) /\
    (forall i' r', i <= i' < j -> table !! i' = Some r' -> routeKey r' <> key).
Proof.
  induction fuel as [|fuel IH]; intros i j H; cbn [skip_to] in H.
  - destruct (table !! i); discriminate.
  - destruct (table !! i) as [r|] eqn:Hi; [|discriminate].
    destruct (Z.eqb_spec (routeKey r) key) as [Hk|Hk].
    + injection H as <-. split; [lia|]. split; [now exists r|]. intros; lia.
    + apply IH in H as (Hle & Hex & Hbefore).
      split; [lia|]. split; [exact Hex|].
      intros i' r' Hi' Hr'.
      destruct (decide (i' = i)) as [->|Hne].
      * pose proof (eq_trans (eq_sym Hi) Hr') as [= <-]. exact Hk.
      * apply (Hbefore i' r'); [lia | assumption].
Qed.

(** With fuel for the rest of the table the loop stops only where the table
    ends (the TypeError) or on the key. *)
Lemma skip_to_none (table : list (route_t U)) (key : Z) :
  forall fuel i,
    length table - i < fuel ->
    skip_to fuel table i key = None ->
    forall i' r', i <= i' -> table !! i' = Some r' -> routeKey r' <> key.
Proof.
  induction fuel as [|fuel IH]; intros i Hfuel H i' r' Hi' Hr'; [lia|].
  cbn [skip_to] in H.
  destruct (table !! i) as [r|] eqn:Hi.
  - destruct (Z.eqb_spec (routeKey r) key) as [Hk|Hk]; [discriminate|].
    destruct (decide (i' = i)) as [->|Hne].
    { pose proof (eq_trans (eq_sym Hi) Hr') as [= <-]. exact Hk. }
    apply lookup_lt_Some in Hi.
    apply (IH (S i)) with (i' := i'); [lia | assumption | lia | assumption].
  - apply lookup_ge_None in Hi. apply lookup_lt_Some in Hr'. lia.
Qed.

(** An iteration that goes on goes on at a later cursor, and the cursor it
    leaves was inside the table. *)
Lemma walk_step_continue this subs i x settled evs i' x' settled' :
  walk_step this subs i x settled = Continue evs i' x' settled' ->
  i < i' /\ i < length (routes this).
Proof.
  unfold walk_step. destruct (routes this !! i) as [r|] eqn:Hi; [|discriminate].
  apply lookup_lt_Some in Hi.
  destruct (aborted (res x)); [discriminate|].
  destruct (methodMatches r (req x) && pathMatches this r (req x)).
  2: { intros [= <- <- <- <-]. lia. }
  destruct (negb (resumed (preprocessRequest this r x))); [discriminate|].
  destruct (callback r) as [f|sub].
  - unfold walk_call.
    destruct (seen_signal _); cbn [emit_it]; try discriminate.
    + intros [= <- <- <- <-]. lia.
    + destruct (skip_to _ _ _ _) as [j|] eqn:Hj; cbn [emit_it];
        [|discriminate].
      apply skip_to_spec in Hj as (? & _). intros [= <- <- <- <-]. lia.
  - destruct (mjoin (subs !! i)) as [w|]; [|discriminate].
    unfold walk_mount.
    destruct (getFullMountpath _); [|discriminate].
    destruct (outcome _) as [[|]|]; try discriminate.
    cbv zeta.
    match goal with |- context [match ?o with Some _ => _ | None => Stop _ end] =>
      destruct o end; cbn [emit_it]; [|discriminate].
    intros [= <- <- <- <-]. lia.
Qed.

(** The walk does not depend on the fuel, past what the rest of the table
    takes. *)
Lemma walk_fuel this subs :
  forall fuel1 fuel2 i x settled,
    length (routes this) - i < fuel1 ->
    length (routes this) - i < fuel2 ->
    walk this subs fuel1 i x settled = walk this subs fuel2 i x settled.
Proof.
  induction fuel1 as [|fuel1 IH]; intros [|fuel2] i x settled H1 H2;
    try lia.
  cbn [walk].
  destruct (walk_step this subs i x settled) as [res|evs i' x' settled'] eqn:Hs;
    [reflexivity|].
  apply walk_step_continue in Hs as (? & ?).
  f_equal. apply IH; lia.
Qed.

(** The walk from cursor [i] with the promise in state [settled]: what
    [_routeRequest] runs after [i] iterations. *)
Definition resume this i x settled : @result U :=
  walk this (subs_of this) (S (length (routes this))) i x settled.

Lemma _routeRequest_resume this x i :
  _routeRequest this x i = resume this i x None.
Proof. apply _routeRequest_eq. Qed.

Lemma walk_S this subs fuel i x settled :
  walk this subs (S fuel) i x settled =
  match walk_step this subs i x settled with
  | Stop r => r
  | Continue evs i' x' settled' => emit evs (walk this subs fuel i' x' settled')
  end.
Proof. reflexivity. Qed.

Lemma resume_step this i x settled :
  resume this i x settled =
  match walk_step this (subs_of this) i x settled with
  | Stop r => r
  | Continue evs i' x' settled' => emit evs (resume this i' x' settled')
  end.
Proof.
  unfold resume. rewrite walk_S.
  destruct (walk_step _ _ _ _ _) as [res|evs i' x' settled'] eqn:Hs;
    [reflexivity|].
  apply walk_step_continue in Hs as (? & ?).
  f_equal. apply walk_fuel; lia.
Qed.

Lemma subs_of_lookup this i r :
  routes this !! i = Some r ->
  mjoin (subs_of this !! i) =
  match callback r with
  | SubRouter sub => Some (fun x' => _routeRequest sub x' 0)
  | Handler _ => None
  end.
Proof.
  intros H. unfold subs_of. rewrite list_lookup_fmap, H. cbn.
  now destruct (callback r).
Qed.

End WalkFacts.

(* ===================================================================== *)
(** * The walk, step by step *)
(* ===================================================================== *)

Section StepFacts.
Context {U : Type}.
Implicit Types (this : @Router U) (r : route_t U) (x : @exchange U)
  (f : @jsfun U).

Lemma emit_nil (r : @result U) : emit [] r = r.
Proof. now destruct r. Qed.

Lemma emit_emit (evs evs' : list event) (r : @result U) :
  emit evs (emit evs' r) = emit (evs ++ evs') r.
Proof. unfold emit. cbn. now rewrite app_assoc. Qed.

(** The entry at the cursor takes the request. *)
Definition taken this r x : Prop :=
  aborted (res x) = false /\
  methodMatches r (req x) && pathMatches this r (req x) = true.

(** With the flag set the iteration at any cursor ends the walk. *)
Lemma resume_aborted this x (i : nat) (settled : option bool) :
  aborted (res x) = true ->
  resume this i x settled = mkResult (settle settled false) [] x.
Proof.
  intros Hab. rewrite resume_step. unfold walk_step.
  destruct (routes this !! i); [|reflexivity]. now rewrite Hab.
Qed.


(** Once an iteration leaves the flag set, the walk ends where it is:
    nothing is called any more. *)
Lemma disconnected_stops this i x settled evs i' x' settled' :
  walk_step this (subs_of this) i x settled = Continue evs i' x' settled' ->
  aborted (res x') = true ->
  resume this i x settled = mkResult (settle settled' false) evs x'.
Proof.
  intros Hs Hab. rewrite resume_step, Hs.
  rewrite (resume_aborted this x' i' settled' Hab).
  unfold emit. cbn. now rewrite app_nil_r.
Qed.

(** The iteration of a terminal callback. *)
Lemma walk_step_call this subs i r f x settled :
  routes this !! i = Some r -> taken this r x -> callback r = Handler f ->
  resumed (preprocessRequest this r x) = true ->
  walk_step this subs i x settled =
  emit_it (s_trace (preprocessRequest this r x))
    (walk_call this r f i (s_x (preprocessRequest this r x)) settled).
Proof.
  intros Hi [Hab Hm] Hcb Hres. unfold walk_step.
  rewrite Hi, Hab, Hm, Hres, Hcb. reflexivity.
Qed.

(** C8, the walk.  A terminal callback that hands an error to its
    continuation, or throws: the walk calls the error handler of the router
    it is walking with that error, or, the router having none, sends the
    failure page; either way it stops there. *)
Lemma walk_error this i r f x settled e :
  routes this !! i = Some r -> taken this r x -> callback r = Handler f ->
  let st := preprocessRequest this r x in
  resumed st = true ->
  let re := on_request f (s_x st) in
  let x1 := after (s_x st) re in
  seen_signal re = NextError e \/ seen_signal re = Throw e ->
  exists settled',
    resume this i x settled =
    match errorRoute this with
    | Some eh =>
        mkResult settled' (s_trace st ++ [Call (routeKey r); ErrorRoute e])
          (after_error x1 (on_error eh e x1))
    | None =>
        mkResult settled' (s_trace st ++ [Call (routeKey r); Page500 e])
          (send500 x1)
    end.
Proof.
  intros Hi Htaken Hcb st Hres re x1 Hsig.
  rewrite resume_step, (walk_step_call this _ i r f x settled Hi Htaken Hcb Hres).
  fold st. unfold walk_call. fold re. fold x1.
  assert (Hcatch : exists cn,
    match seen_signal re with
    | Return => Stop (mkResult (settle settled true) [] x1)
    | Next => Continue [] (S i) x1 settled
    | NextRoute =>
        match skip_to (S (length (routes this))) (routes this) i
                (routeSkipKey r) with
        | Some j => Continue [] (S j) x1 settled
        | None => Stop (walk_catch this TypeError true x1 settled)
        end
    | NextError e0 => Stop (walk_catch this e0 true x1 settled)
    | Throw e0 => Stop (walk_catch this e0 false x1 settled)
    end = Stop (walk_catch this e cn x1 settled)).
  { destruct Hsig as [-> | ->]; eauto. }
  destruct Hcatch as [cn ->]. cbn [emit_it]. unfold walk_catch, emit.
  destruct (errorRoute this) as [eh|]; cbn; eauto.
Qed.


(** The registration of the error handler: [use(fn)] with one function of
    four parameters. *)
Lemma use_error_handler (key : Z) this f :
  arity f = 4 ->
  use key this (UFun f) [] = Some (key, set_errorRoute this f) /\
  errorRoute (set_errorRoute this f) = Some f /\
  routes (set_errorRoute this f) = routes this.
Proof. intros Ha. unfold use. rewrite Ha. repeat split. Qed.


(** The loop of [next('route')] finds the first entry from the cursor on
    that bears the key. *)
Lemma skip_to_found (table : list (route_t U)) (key : Z) :
  forall fuel i j r,
    i <= j -> j - i < fuel ->
    table !! j = Some r -> routeKey r = key ->
    (forall i' r', i <= i' < j -> table !! i' = Some r' -> routeKey r' <> key) ->
    skip_to fuel table i key = Some j.
Proof.
  induction fuel as [|fuel IH]; intros i j r Hle Hfuel Hj Hk Hbefore; [lia|].
  cbn [skip_to].
  destruct (decide (i = j)) as [->|Hne].
  - rewrite Hj. now rewrite (proj2 (Z.eqb_eq _ _) Hk).
  - destruct (table !! i) as [r0|] eqn:Hi.
    + destruct (Z.eqb_spec (routeKey r0) key) as [Hk0|_].
      * destruct (Hbefore i r0); [lia | exact Hi | exact Hk0].
      * apply (IH (S i) j r); try assumption; try lia.
        intros i' r' Hi'. apply Hbefore. lia.
    + apply lookup_ge_None in Hi. apply lookup_lt_Some in Hj. lia.
Qed.

(** The iteration of a callback that calls [next('route')]: the cursor
    goes to the first entry, from the callback's own on, whose [routeKey] is
    the callback's [routeSkipKey], and the walk goes on after it. Nothing
    in between is called. *)
Lemma walk_next_route this i r f x settled j :
  routes this !! i = Some r -> taken this r x -> callback r = Handler f ->
  let st := preprocessRequest this r x in
  resumed st = true ->
  let re := on_request f (s_x st) in
  seen_signal re = NextRoute ->
  skip_to (S (length (routes this))) (routes this) i (routeSkipKey r) = Some j ->
  resume this i x settled =
  emit (s_trace st ++ [Call (routeKey r)])
    (resume this (S j) (after (s_x st) re) settled).
Proof.
  intros Hi Htaken Hcb st Hres re Hsig Hj.
  rewrite resume_step, (walk_step_call this _ i r f x settled Hi Htaken Hcb Hres).
  fold st. unfold walk_call. fold re. rewrite Hsig, Hj. cbn [emit_it].
  now rewrite app_nil_r.
Qed.

(** The same, with no target at or after the cursor: reading the key off
    the end of the table throws, and the error takes the path of any
    other. *)
Lemma walk_next_route_lost this i r f x settled :
  routes this !! i = Some r -> taken this r x -> callback r = Handler f ->
  let st := preprocessRequest this r x in
  resumed st = true ->
  let re := on_request f (s_x st) in
  seen_signal re = NextRoute ->
  skip_to (S (length (routes this))) (routes this) i (routeSkipKey r) = None ->
  resume this i x settled =
  emit (s_trace st ++ [Call (routeKey r)])
    (walk_catch this TypeError true (after (s_x st) re) settled).
Proof.
  intros Hi Htaken Hcb st Hres re Hsig Hj.
  rewrite resume_step, (walk_step_call this _ i r f x settled Hi Htaken Hcb Hres).
  fold st. unfold walk_call. fold re. rewrite Hsig, Hj. cbn [emit_it].
  unfold emit. cbn. now rewrite <- app_assoc.
Qed.

(** The iteration of a callback that calls [next()]. *)
Lemma walk_next this i r f x settled :
  routes this !! i = Some r -> taken this r x -> callback r = Handler f ->
  let st := preprocessRequest this r x in
  resumed st = true ->
  let re := on_request f (s_x st) in
  seen_signal re = Next ->
  resume this i x settled =
  emit (s_trace st ++ [Call (routeKey r)])
    (resume this (S i) (after (s_x st) re) settled).
Proof.
  intros Hi Htaken Hcb st Hres re Hsig.
  rewrite resume_step, (walk_step_call this _ i r f x settled Hi Htaken Hcb Hres).
  fold st. unfold walk_call. fold re. rewrite Hsig. cbn [emit_it].
  now rewrite app_nil_r.
Qed.

(** The iteration of a callback that returns without calling its
    continuation: the request is handled. *)
Lemma walk_return this i r f x settled :
  routes this !! i = Some r -> taken this r x -> callback r = Handler f ->
  let st := preprocessRequest this r x in
  resumed st = true ->
  let re := on_request f (s_x st) in
  seen_signal re = Return ->
  resume this i x settled =
  mkResult (settle settled true) (s_trace st ++ [Call (routeKey r)])
    (after (s_x st) re).
Proof.
  intros Hi Htaken Hcb st Hres re Hsig.
  rewrite resume_step, (walk_step_call this _ i r f x settled Hi Htaken Hcb Hres).
  fold st. unfold walk_call. fold re. rewrite Hsig. cbn [emit_it].
  unfold emit. cbn. reflexivity.
Qed.

(** An entry that does not take the request is passed. *)
Lemma walk_pass this i r x settled :
  routes this !! i = Some r -> aborted (res x) = false ->
  methodMatches r (req x) && pathMatches this r (req x) = false ->
  resume this i x settled = resume this (S i) x settled.
Proof.
  intros Hi Hab Hm. rewrite resume_step. unfold walk_step.
  rewrite Hi, Hab, Hm. cbv iota. apply emit_nil.
Qed.

(** Past the end of the table the walk reports "not handled". *)
Lemma walk_end this i x settled :
  length (routes this) <= i ->
  resume this i x settled = mkResult (settle settled false) [] x.
Proof.
  intros Hi. rewrite resume_step. unfold walk_step.
  now rewrite (proj2 (lookup_ge_None _ _) Hi).
Qed.

End StepFacts.

(* ===================================================================== *)
(** * Request preprocessing: the parameter gate and the param hooks *)
(* ===================================================================== *)

Section PreprocessFacts.
Context {U : Type}.
Implicit Types (this : @Router U) (r : route_t U) (x : @exchange U)
  (fns : list (@hook U)).

Lemma preprocessRequest_no_params this r x :
  has_params r = false ->
  preprocessRequest this r x
  = mkStep true [] (set_req x (set_params (req x) [])).
Proof.
  unfold has_params, preprocessRequest.
  destruct (r_path r) as [p|]; [|reflexivity].
  destruct (pattern r) as [|pat]; [reflexivity|].
  now intros ->.
Qed.

Lemma make_route_RegExp (method : string) (re : RegExp.t)
    (cb : callback_tt U) (skip key : Z) r :
  make_route method (PRe re) cb skip key = Some r -> has_params r = false.
Proof.
  intros H. apply make_route_fields in H as (_ & _ & _ & Hp).
  unfold has_params. now rewrite Hp.
Qed.

Lemma normalize_RegExp this (re : RegExp.t) : normalize this (PRe re) = PRe re.
Proof. reflexivity. Qed.

(** C10.  Parameters are extracted, and param hooks called, only for an
    entry whose path is a string that holds [":"] and whose pattern is an
    expression.  For any other entry the request gets the empty [params]
    and no hook runs; every route registered with an expression for a
    path is such an entry, whatever named groups the expression has. *)
Theorem params_gate :
  (forall this r x,
     has_params r = false ->
     preprocessRequest this r x
     = mkStep true [] (set_req x (set_params (req x) []))) /\
  (forall r,
     has_params r = true <->
     exists p pat,
       r_path r = PStr p /\ JsString.includes p ":" = true /\
       pattern r = PRe pat) /\
  (forall this (method : string) (re : RegExp.t) (cb : callback_tt U)
          (skip key : Z) r,
     make_route method (normalize this (PRe re)) cb skip key = Some r ->
     has_params r = false).
Proof.
  split; [exact preprocessRequest_no_params|]. split.
  - intros r. unfold has_params. split.
    + destruct (r_path r) as [p|]; [|discriminate].
      destruct (pattern r) as [|pat]; [discriminate|]. eauto.
    + intros (p & pat & -> & Hp & ->). exact Hp.
  - intros this method re cb skip key r. apply make_route_RegExp.
Qed.

(** ** The hooks of one name *)

(** The events of the hooks of [name] numbered from [n]. *)
Definition hook_events (name : string) (v : option string) (n k : nat)
  : list event :=
  map (fun j => Hook name j v) (seq n k).

(** The hooks run one after the other, in the order of the list, each one
    only when the one before has called its continuation; they leave the
    request as it is. *)
Lemma run_hooks_spec fns :
  forall n name v x,
    let st := run_hooks fns n name v x in
    req (s_x st) = req x /\ res (s_x st) = res x /\
    exists k,
      k <= length fns /\ s_trace st = hook_events name v n k /\
      (resumed st = true -> k = length fns).
Proof.
  induction fns as [|fn fns IH]; intros n name v x; cbn [run_hooks].
  - repeat split. exists 0. repeat split. reflexivity.
  - destruct (h_resumes (fn v name x)) eqn:Hr; cbn.
    + destruct (IH (S n) name v (set_locals x (h_locals (fn v name x))))
        as (Hreq & Hres & k & Hk & Htr & Hall).
      split; [exact Hreq|]. split; [exact Hres|].
      exists (S k). split; [lia|]. split.
      * unfold hook_events in *. cbn. now rewrite Htr.
      * intros H. now rewrite (Hall H).
    + repeat split. exists 1. split; [lia|]. split; [reflexivity|].
      discriminate.
Qed.

End PreprocessFacts.

(* ===================================================================== *)
(** * Induction on nested routers *)
(* ===================================================================== *)

Section NestedInduction.
Context {U : Type}.

(** Every router mounted in the table of [this] has the property. *)
Definition mounted_have (P : @Router U -> Prop) (this : @Router U) : Prop :=
  forall i r sub,
    routes this !! i = Some r -> callback r = SubRouter sub -> P sub.

Fixpoint Router_nested_ind (P : @Router U -> Prop)
    (step : forall this, mounted_have P this -> P this)
    (this : @Router U) {struct this} : P this.
Proof.
  apply step. destruct this as [rs pc er mp st pa uw].
  unfold mounted_have. cbn [routes].
  induction rs as [|r rs IHrs]; intros i r' sub Hi Hcb.
  - now rewrite lookup_nil in Hi.
  - destruct i as [|i].
    + injection Hi as <-. destruct r as [m p pat cb sk k u a].
      cbn [callback] in Hcb. destruct cb as [f|sub']; [discriminate|].
      injection Hcb as <-. exact (Router_nested_ind P step sub').
    + exact (IHrs i r' sub Hi Hcb).
Defined.

End NestedInduction.

(* ===================================================================== *)
(** * Param hooks run once per request *)
(* ===================================================================== *)

Section HooksOnce.
Context {U : Type}.
Implicit Types (this : @Router U) (r : route_t U) (x : @exchange U)
  (g : gset string) (t : list event).

(** The hook calls of a trace: which name, which hook of that name. *)
Definition hook_ids t : list (string * nat) :=
  omap (fun e => match e with Hook name n _ => Some (name, n) | _ => None end)
    t.

(** The names a request has been through the hooks of. *)
Definition got x : gset string := _gotParams (req x).

(** A stretch [t] of a request's trace that starts with the names [g]
    marked and ends with [g'] marked: it calls hooks of names that were
    not marked only, marks them, unmarks nothing, and calls no hook
    twice. *)
Definition hooks_once g t g' : Prop :=
  (g ⊆ g') /\
  (forall name n, (name, n) ∈ hook_ids t -> (name ∉ g) /\ (name ∈ g')) /\
  NoDup (hook_ids t).

Lemma hook_ids_app t1 t2 : hook_ids (t1 ++ t2) = hook_ids t1 ++ hook_ids t2.
Proof. apply omap_app. Qed.

Lemma hooks_once_nil g : hooks_once g [] g.
Proof.
  split; [reflexivity|]. split; [|constructor].
  intros name n H. cbn in H. now apply elem_of_nil in H.
Qed.

Lemma hooks_once_app g t1 g1 t2 g2 :
  hooks_once g t1 g1 -> hooks_once g1 t2 g2 -> hooks_once g (t1 ++ t2) g2.
Proof.
  intros (Hs1 & Hin1 & Hnd1) (Hs2 & Hin2 & Hnd2).
  split; [now transitivity g1|]. rewrite hook_ids_app. split.
  - intros name n [H|H]%elem_of_app.
    + apply Hin1 in H as [Hout Hin]. split; [exact Hout | now apply Hs2].
    + apply Hin2 in H as [Hout Hin]. split; [|exact Hin].
      intros Hg. apply Hout. now apply Hs1.
  - apply NoDup_app. split; [exact Hnd1|]. split; [|exact Hnd2].
    intros [name n] H1 H2. apply Hin1 in H1. apply Hin2 in H2. tauto.
Qed.

(** A stretch without hook calls. *)
Lemma hooks_once_quiet g t : hook_ids t = [] -> hooks_once g t g.
Proof.
  intros H. split; [reflexivity|]. rewrite H. split; [|constructor].
  intros name n Hin. now apply elem_of_nil in Hin.
Qed.

Lemma hook_ids_events (name : string) (v : option string) (n k : nat) :
  hook_ids (hook_events name v n k) = map (fun j => (name, j)) (seq n k).
Proof.
  unfold hook_events. revert n. induction k as [|k IH]; intros n;
    [reflexivity|].
  cbn. now rewrite <- IH.
Qed.

(** The hooks of a name that was not marked, the name being marked
    first. *)
Lemma run_hooks_once (fns : list (@hook U)) (name : string)
    (v : option string) x :
  name ∉ got x ->
  let st := run_hooks fns 0 name v (set_req x (add_gotParam (req x) name)) in
  hooks_once (got x) (s_trace st) (got (s_x st)).
Proof.
  intros Hfresh st.
  destruct (run_hooks_spec fns 0 name v (set_req x (add_gotParam (req x) name)))
    as (Hreq & _ & k & _ & Htr & _).
  fold st in Hreq, Htr. unfold got. rewrite Hreq, Htr. cbn [req set_req].
  unfold add_gotParam. cbn [_gotParams].
  split; [apply union_subseteq_r|]. rewrite hook_ids_events. split.
  - intros name' n H. apply list_elem_of_fmap in H as (j & [= -> ->] & _).
    split; [exact Hfresh|]. apply elem_of_union_l. now apply elem_of_singleton.
  - apply NoDup_fmap_2; [|apply NoDup_seq].
    intros a b [= ->]. reflexivity.
Qed.

Lemma run_params_once this (ps : list (string * option string)) :
  forall x,
    let st := run_params this ps x in
    hooks_once (got x) (s_trace st) (got (s_x st)).
Proof.
  induction ps as [|[name v] ps IH]; intros x; cbn [run_params].
  - apply hooks_once_nil.
  - destruct (paramCallbacks this !! name) as [fns|]; [|apply IH].
    destruct (decide (name ∈ _gotParams (req x))) as [Hin|Hout]; [apply IH|].
    pose proof (run_hooks_once fns name v x Hout) as H1. cbv zeta in H1.
    destruct (resumed (run_hooks fns 0 name v _)); [|exact H1].
    cbn [s_trace s_x]. eapply hooks_once_app; [exact H1 | apply IH].
Qed.

Lemma preprocessRequest_once this r x :
  let st := preprocessRequest this r x in
  hooks_once (got x) (s_trace st) (got (s_x st)).
Proof.
  unfold preprocessRequest.
  destruct (r_path r) as [p|]; [|apply hooks_once_nil].
  destruct (pattern r) as [|pat]; [apply hooks_once_nil|].
  destruct (JsString.includes p ":"); [|apply hooks_once_nil].
  match goal with |- context [match ?o with Some _ => _ | None => _ end] =>
    destruct o as [path'|] end; [|apply hooks_once_nil].
  apply (run_params_once this _
           (set_req x (set_params (req x) (extractParams pat path')))).
Qed.


(** ** The walk *)

Definition iteration_once g (it : @iteration U) : Prop :=
  match it with
  | Stop r => hooks_once g (trace r) (got (final r))
  | Continue evs _ x' _ => hooks_once g evs (got x')
  end.

Lemma emit_it_once g t g1 (it : @iteration U) :
  hooks_once g t g1 -> iteration_once g1 it -> iteration_once g (emit_it t it).
Proof.
  intros H1 H2. destruct it as [res|evs i x' settled]; cbn;
    eapply hooks_once_app; eassumption.
Qed.

(** The walks of the nested routers of a table run hooks once. *)
Definition subs_once (subs : list (option (subwalk_t U))) : Prop :=
  forall i w x,
    mjoin (subs !! i) = Some w ->
    hooks_once (got x) (trace (w x)) (got (final (w x))).

Lemma walk_catch_once this (e : error) (cn : bool) x (settled : option bool) :
  iteration_once (got x) (Stop (walk_catch this e cn x settled)).
Proof.
  unfold walk_catch. destruct (errorRoute this); cbn;
    now apply hooks_once_quiet.
Qed.

Lemma walk_call_once this r (f : @jsfun U) (i : nat) x
    (settled : option bool) :
  iteration_once (got x) (walk_call this r f i x settled).
Proof.
  unfold walk_call.
  apply (emit_it_once _ _ (got x)); [now apply hooks_once_quiet|].
  change (got x) with (got (after x (on_request f x))).
  destruct (seen_signal _); try apply walk_catch_once;
    try (cbn; apply hooks_once_nil).
  destruct (skip_to _ _ _ _); [cbn; apply hooks_once_nil|].
  apply walk_catch_once.
Qed.

Lemma walk_mount_once r (sub : subwalk_t U) (i : nat) x
    (settled : option bool) :
  (forall x', hooks_once (got x') (trace (sub x')) (got (final (sub x')))) ->
  iteration_once (got x) (walk_mount r sub i x settled).
Proof.
  intros Hsub. unfold walk_mount.
  destruct (getFullMountpath _) as [full|]; [|cbn; apply hooks_once_nil].
  cbv zeta.
  match goal with |- context [outcome (sub ?x')] =>
    pose proof (Hsub x') as H; change (got x') with (got x) in H;
    destruct (outcome (sub x')) as [[|]|] end; try exact H.
  match goal with |- context [match ?o with Some _ => _ | None => Stop _ end] =>
    destruct o end; exact H.
Qed.

Lemma walk_step_once this subs (i : nat) x (settled : option bool) :
  subs_once subs ->
  iteration_once (got x) (walk_step this subs i x settled).
Proof.
  intros Hsubs. unfold walk_step.
  destruct (routes this !! i) as [r|]; [|cbn; apply hooks_once_nil].
  destruct (aborted (res x)); [cbn; apply hooks_once_nil|].
  destruct (methodMatches r (req x) && pathMatches this r (req x));
    [|cbn; apply hooks_once_nil].
  pose proof (preprocessRequest_once this r x) as Hpre. cbv zeta in Hpre.
  destruct (negb (resumed (preprocessRequest this r x))); [exact Hpre|].
  eapply emit_it_once; [exact Hpre|].
  destruct (callback r) as [f|sub0].
  - apply walk_call_once.
  - destruct (mjoin (subs !! i)) as [w|] eqn:Hw; [|cbn; apply hooks_once_nil].
    apply walk_mount_once. intros x'. now apply (Hsubs i).
Qed.

Lemma walk_once this subs :
  subs_once subs ->
  forall (fuel i : nat) x (settled : option bool),
    hooks_once (got x) (trace (walk this subs fuel i x settled))
      (got (final (walk this subs fuel i x settled))).
Proof.
  intros Hsubs. induction fuel as [|fuel IH]; intros i x settled.
  - cbn. apply hooks_once_nil.
  - rewrite walk_S.
    pose proof (walk_step_once this subs i x settled Hsubs) as Hs.
    destruct (walk_step this subs i x settled) as [res|evs i' x' settled'];
      [exact Hs|].
    cbn in Hs. cbn [emit trace final].
    eapply hooks_once_app; [exact Hs | apply IH].
Qed.

(** Over a whole walk, nested routers included, the hooks of a name that
    is marked do not run, a hook that runs marks its name, and no hook runs
    twice. *)
Lemma _routeRequest_once this :
  forall x (i : nat),
    hooks_once (got x) (trace (_routeRequest this x i))
      (got (final (_routeRequest this x i))).
Proof.
  induction this as [this IH] using Router_nested_ind.
  intros x i. rewrite _routeRequest_eq. apply walk_once.
  intros j w x' Hw.
  destruct (routes this !! j) as [r|] eqn:Hj.
  - rewrite (subs_of_lookup this j r Hj) in Hw.
    destruct (callback r) as [f|sub] eqn:Hcb; [discriminate|].
    injection Hw as <-. exact (IH j r sub Hj Hcb x' 0).
  - unfold subs_of in Hw. rewrite list_lookup_fmap, Hj in Hw. discriminate.
Qed.

End HooksOnce.

(* ===================================================================== *)
(** * Param hooks: order, and before the callback *)
(* ===================================================================== *)

Section HooksOrder.
Context {U : Type}.
Implicit Types (this : @Router U) (r : route_t U) (x : @exchange U).

(** What of a request the hooks and the params leave alone. *)
Definition frame (rq : Request) : string * string * string * list pathv :=
  (method rq, path rq, urlQuery rq, _stack rq).

Lemma run_params_req this (ps : list (string * option string)) :
  forall x,
    let st := run_params this ps x in
    frame (req (s_x st)) = frame (req x) /\
    params (req (s_x st)) = params (req x) /\
    _opPath (req (s_x st)) = _opPath (req x) /\
    res (s_x st) = res x.
Proof.
  induction ps as [|[name v] ps IH]; intros x; cbn [run_params].
  - repeat split.
  - destruct (paramCallbacks this !! name) as [fns|]; [|apply IH].
    destruct (decide (name ∈ _gotParams (req x))); [apply IH|].
    destruct (run_hooks_spec fns 0 name v
                (set_req x (add_gotParam (req x) name)))
      as (Hreq & Hres & _).
    destruct (resumed (run_hooks fns 0 name v _)).
    + cbn [s_x].
      destruct (IH (s_x (run_hooks fns 0 name v
                           (set_req x (add_gotParam (req x) name)))))
        as (Hf & Hp & Ho & Hr).
      rewrite Hf, Hp, Ho, Hr, Hreq, Hres. repeat split.
    + rewrite Hreq, Hres. repeat split.
Qed.

Lemma preprocessRequest_req this r x :
  let st := preprocessRequest this r x in
  frame (req (s_x st)) = frame (req x) /\
  _opPath (req (s_x st)) = _opPath (req x) /\
  res (s_x st) = res x.
Proof.
  unfold preprocessRequest.
  destruct (r_path r) as [p|]; [|repeat split].
  destruct (pattern r) as [|pat]; [repeat split|].
  destruct (JsString.includes p ":"); [|repeat split].
  match goal with |- context [match ?o with Some _ => _ | None => _ end] =>
    destruct o as [path'|] end; [|repeat split].
  destruct (run_params_req this (extractParams pat path')
              (set_req x (set_params (req x) (extractParams pat path'))))
    as (Hf & _ & Ho & Hr).
  rewrite Hf, Ho, Hr. repeat split.
Qed.

(** The hooks of a name the request holds a value for, registered on the
    router and not yet run: all of them, in the order of registration. *)
Lemma run_params_block this (name : string) (v : option string)
    (fns : list (@hook U)) (ps1 ps2 : list (string * option string)) :
  name ∉ ps1.*1 ->
  paramCallbacks this !! name = Some fns ->
  forall x,
    name ∉ got x ->
    let st := run_params this (ps1 ++ (name, v) :: ps2) x in
    resumed st = true ->
    (exists t1 t2,
       s_trace st = t1 ++ hook_events name v 0 (length fns) ++ t2) /\
    name ∈ got (s_x st).
Proof.
  intros Hps1 Hfns. induction ps1 as [|[n1 v1] ps1 IH]; intros x Hfresh.
  - cbn [app run_params]. rewrite Hfns.
    destruct (decide (name ∈ _gotParams (req x))) as [Hin|_];
      [now destruct Hfresh|].
    destruct (run_hooks_spec fns 0 name v
                (set_req x (add_gotParam (req x) name)))
      as (Hreq & _ & k & _ & Htr & Hall).
    pose proof (run_hooks_once fns name v x Hfresh) as Honce.
    cbv zeta in Honce.
    destruct (resumed (run_hooks fns 0 name v _)) eqn:Hres.
    + cbn [resumed s_trace s_x]. intros Hres'. split.
      * exists [], (s_trace (run_params this ps2
                     (s_x (run_hooks fns 0 name v
                        (set_req x (add_gotParam (req x) name)))))).
        now rewrite Htr, (Hall eq_refl).
      * pose proof (run_params_once this ps2
                      (s_x (run_hooks fns 0 name v
                         (set_req x (add_gotParam (req x) name)))))
          as (Hsub & _).
        apply Hsub. unfold got. rewrite Hreq. cbn.
        apply elem_of_union_l. now apply elem_of_singleton.
    + cbv zeta. rewrite Hres. discriminate.
  - cbn [fmap list_fmap fst] in Hps1.
    apply not_elem_of_cons in Hps1 as [Hne Hps1].
    cbn [app run_params].
    assert (Hgo : forall x', name ∉ got x' ->
              let st := run_params this (ps1 ++ (name, v) :: ps2) x' in
              resumed st = true ->
              (exists t1 t2,
                 s_trace st = t1 ++ hook_events name v 0 (length fns) ++ t2) /\
              name ∈ got (s_x st)) by (intros x' Hx'; now apply IH).
    destruct (paramCallbacks this !! n1) as [fns1|]; [|now apply Hgo].
    destruct (decide (n1 ∈ _gotParams (req x))); [now apply Hgo|].
    destruct (run_hooks_spec fns1 0 n1 v1
                (set_req x (add_gotParam (req x) n1)))
      as (Hreq & _).
    destruct (resumed (run_hooks fns1 0 n1 v1 _)) eqn:Hres.
    + cbn [resumed s_trace s_x]. intros Hres'.
      destruct (Hgo (s_x (run_hooks fns1 0 n1 v1
                            (set_req x (add_gotParam (req x) n1)))))
        as ((t1 & t2 & Ht) & Hin); [|exact Hres'|].
      * unfold got. rewrite Hreq. cbn. intros [H|H]%elem_of_union.
        -- apply elem_of_singleton in H. congruence.
        -- now apply Hfresh.
      * split; [|exact Hin].
        exists (s_trace (run_hooks fns1 0 n1 v1
                           (set_req x (add_gotParam (req x) n1))) ++ t1), t2.
        rewrite Ht. now rewrite app_assoc.
    + cbv zeta. rewrite Hres. discriminate.
Qed.


Lemma preprocessRequest_block this r x (name : string) (v : option string)
    (fns : list (@hook U)) (ps1 ps2 : list (string * option string)) :
  let st := preprocessRequest this r x in
  params (req (s_x st)) = ps1 ++ (name, v) :: ps2 ->
  name ∉ ps1.*1 ->
  paramCallbacks this !! name = Some fns ->
  name ∉ got x ->
  resumed st = true ->
  (exists t1 t2, s_trace st = t1 ++ hook_events name v 0 (length fns) ++ t2) /\
  name ∈ got (s_x st).
Proof.
  unfold preprocessRequest.
  assert (Hnil : forall l1 a (l2 : list (string * option string)),
             [] = l1 ++ a :: l2 -> False) by (intros [|] ? ? ?; discriminate).
  destruct (r_path r) as [p|]; [|cbn; intros H; now apply Hnil in H].
  destruct (pattern r) as [|pat]; [cbn; intros H; now apply Hnil in H|].
  destruct (JsString.includes p ":"); [|cbn; intros H; now apply Hnil in H].
  match goal with |- context [match ?o with Some _ => _ | None => _ end] =>
    destruct o as [path'|] end; [|cbn; discriminate].
  cbv zeta. intros Hps Hps1 Hfns Hfresh Hres.
  destruct (run_params_req this (extractParams pat path')
              (set_req x (set_params (req x) (extractParams pat path'))))
    as (_ & Hp & _).
  rewrite Hp in Hps. cbn in Hps. rewrite Hps in Hres |- *.
  now apply run_params_block.
Qed.

(** The iteration of a terminal callback: what preprocessing traced comes
    first, then the call; if a hook stalls there is no call. *)
Lemma walk_call_after_hooks this (i : nat) r (f : @jsfun U) x
    (settled : option bool) :
  routes this !! i = Some r -> taken this r x -> callback r = Handler f ->
  let st := preprocessRequest this r x in
  (resumed st = true ->
   exists rest,
     trace (resume this i x settled) = s_trace st ++ Call (routeKey r) :: rest) /\
  (resumed st = false -> trace (resume this i x settled) = s_trace st).
Proof.
  intros Hi Htaken Hcb st. split; intros Hres.
  - rewrite resume_step,
      (walk_step_call this _ i r f x settled Hi Htaken Hcb Hres).
    fold st. unfold walk_call.
    match goal with |- context [emit_it [Call _] ?it] =>
      destruct it as [res|evs i' x' settled'] end;
      cbn [emit_it emit trace app]; eexists;
      rewrite <- ?app_assoc; reflexivity.
  - rewrite resume_step. unfold walk_step. destruct Htaken as [Hab Hm].
    rewrite Hi, Hab, Hm. fold st. now rewrite Hres.
Qed.


End HooksOrder.

(* ===================================================================== *)
(** * Mounted routers *)
(* ===================================================================== *)

Section MountFacts.
Context {U : Type}.
Implicit Types (this sub : @Router U) (r : route_t U) (x : @exchange U).

(** ** A walk that reports "not handled" leaves the request where it
    was *)

(** The promise has not been settled with "not handled". *)
Definition open_or_handled (settled : option bool) : Prop :=
  settled <> Some false.

Lemma settle_true_open (settled : option bool) :
  open_or_handled settled -> open_or_handled (settle settled true).
Proof. destruct settled as [[|]|]; cbn; congruence. Qed.

Lemma settle_true_outcome (settled : option bool) :
  open_or_handled settled -> settle settled true = Some true.
Proof. destruct settled as [[|]|]; cbn; congruence. Qed.

Definition declined_keeps (w : subwalk_t U) : Prop :=
  forall x, outcome (w x) = Some false -> frame (req (final (w x))) = frame (req x).

Definition iteration_frame x (it : @iteration U) : Prop :=
  match it with
  | Stop res => outcome res = Some false -> frame (req (final res)) = frame (req x)
  | Continue _ _ x' settled' =>
      frame (req x') = frame (req x) /\ open_or_handled settled'
  end.

Lemma emit_it_frame x (evs : list event) (it : @iteration U) :
  iteration_frame x it -> iteration_frame x (emit_it evs it).
Proof. now destruct it. Qed.

Lemma walk_catch_frame this (e : error) (cn : bool) x
    (settled : option bool) :
  frame (req (final (walk_catch this e cn x settled))) = frame (req x).
Proof. unfold walk_catch. now destruct (errorRoute this). Qed.

Lemma walk_call_frame this r (f : @jsfun U) (i : nat) x
    (settled : option bool) :
  open_or_handled settled ->
  iteration_frame x (walk_call this r f i x settled).
Proof.
  intros Hs. unfold walk_call. apply emit_it_frame.
  pose proof (fun e cn =>
                walk_catch_frame this e cn (after x (on_request f x)) settled)
    as Hcatch.
  destruct (seen_signal _); cbn [iteration_frame outcome final].
  - rewrite (settle_true_outcome _ Hs). discriminate.
  - split; [reflexivity | exact Hs].
  - destruct (skip_to _ _ _ _); cbn [iteration_frame];
      [split; [reflexivity | exact Hs]|].
    intros _. apply Hcatch.
  - intros _. apply Hcatch.
  - intros _. apply Hcatch.
Qed.

Lemma walk_mount_frame r (w : subwalk_t U) (i : nat) x
    (settled : option bool) :
  open_or_handled settled -> declined_keeps w ->
  iteration_frame x (walk_mount r w i x settled).
Proof.
  intros Hs Hw. unfold walk_mount.
  destruct (getFullMountpath _) as [full|]; [|cbn; intros; now destruct Hs].
  cbv zeta.
  match goal with |- context [outcome (w ?x')] =>
    pose proof (Hw x') as Hkeep;
    destruct (outcome (w x')) as [[|]|] end.
  - cbn [iteration_frame outcome]. rewrite (settle_true_outcome _ Hs).
    discriminate.
  - specialize (Hkeep eq_refl).
    match goal with |- context [match ?o with Some _ => _ | None => Stop _ end] =>
      destruct o end; cbn; [|intros; now destruct Hs].
    split; [|now apply settle_true_open].
    unfold frame in *. cbn in *.
    injection Hkeep as -> -> -> ->. now rewrite removelast_last.
  - cbn. intros; now destruct Hs.
Qed.

Lemma walk_step_frame this subs (i : nat) x (settled : option bool) :
  (forall j w, mjoin (subs !! j) = Some w -> declined_keeps w) ->
  open_or_handled settled ->
  iteration_frame x (walk_step this subs i x settled).
Proof.
  intros Hsubs Hs. unfold walk_step.
  destruct (routes this !! i) as [r|]; [|now cbn].
  destruct (aborted (res x)); [now cbn|].
  destruct (methodMatches r (req x) && pathMatches this r (req x));
    [|now cbn].
  destruct (preprocessRequest_req this r x) as (Hf & _).
  destruct (negb (resumed (preprocessRequest this r x)));
    [cbn; intros; now destruct Hs|].
  apply emit_it_frame.
  assert (Hx0 : forall it,
             iteration_frame (s_x (preprocessRequest this r x)) it ->
             iteration_frame x it).
  { intros [res|evs i' x' s']; cbn; rewrite Hf; auto. }
  apply Hx0.
  destruct (callback r) as [f|sub0].
  - now apply walk_call_frame.
  - destruct (mjoin (subs !! i)) as [w|] eqn:Hw;
      [|cbn; intros; now destruct Hs].
    apply walk_mount_frame; [exact Hs | now apply (Hsubs i)].
Qed.

Lemma walk_frame this subs :
  (forall j w, mjoin (subs !! j) = Some w -> declined_keeps w) ->
  forall (fuel i : nat) x (settled : option bool),
    open_or_handled settled ->
    outcome (walk this subs fuel i x settled) = Some false ->
    frame (req (final (walk this subs fuel i x settled))) = frame (req x).
Proof.
  intros Hsubs. induction fuel as [|fuel IH]; intros i x settled Hs.
  - cbn. intros; now destruct Hs.
  - rewrite walk_S.
    pose proof (walk_step_frame this subs i x settled Hsubs Hs) as Hit.
    destruct (walk_step this subs i x settled) as [res|evs i' x' settled'];
      [exact Hit|].
    destruct Hit as [Hf Hs']. cbn [emit outcome final]. intros Hout.
    rewrite <- Hf. now apply IH.
Qed.

(** A walk that reports "not handled" leaves the method, the path and
    the stack of mount paths of the request as they were. *)
Lemma _routeRequest_declined this :
  forall x (i : nat),
    outcome (_routeRequest this x i) = Some false ->
    frame (req (final (_routeRequest this x i))) = frame (req x).
Proof.
  induction this as [this IH] using Router_nested_ind.
  intros x i. rewrite _routeRequest_eq. apply walk_frame; [|discriminate].
  intros j w Hw.
  destruct (routes this !! j) as [r|] eqn:Hj.
  - rewrite (subs_of_lookup this j r Hj) in Hw.
    destruct (callback r) as [f|sub] eqn:Hcb; [discriminate|].
    injection Hw as <-. intros x'. exact (IH j r sub Hj Hcb x' 0).
  - unfold subs_of in Hw. rewrite list_lookup_fmap, Hj in Hw. discriminate.
Qed.


(** ** The parent's walk after a mounted router declines *)

Lemma relative_path_ext (rq rq' : Request) :
  path rq = path rq' -> _stack rq = _stack rq' ->
  relative_path rq = relative_path rq'.
Proof.
  unfold relative_path, getFullMountpath. now intros -> ->.
Qed.

(** When the walk of a mounted router reports "not handled", the walk of
    the parent goes on at the entry after the mount, with the stack of mount
    paths and the relative path it had before the mount; the promise of the
    parent has been settled with "handled" on the way. *)
Lemma walk_declined_mount this (i : nat) r sub x (settled : option bool)
    (full : RegExp.t) (op : string) :
  routes this !! i = Some r -> taken this r x -> callback r = SubRouter sub ->
  let st := preprocessRequest this r x in
  resumed st = true ->
  let x0 := s_x st in
  let rq1 := set_stack (req x0) (_stack (req x0) ++ [r_path r]) in
  getFullMountpath rq1 = Some full ->
  let x_in :=
    set_req x0 (set_opPath rq1 (RegExp.replace full "" (path rq1))) in
  let sr := _routeRequest sub x_in 0 in
  outcome sr = Some false ->
  relative_path (req x) = Some op ->
  let x' :=
    set_req (final sr)
      (set_opPath (set_stack (req (final sr)) (_stack (req x))) op) in
  resume this i x settled
  = emit (s_trace st ++ trace sr) (resume this (S i) x' (settle settled true)).
Proof.
  intros Hi [Hab Hm] Hcb st Hres x0 rq1 Hfull x_in sr Hout Hop x'.
  rewrite resume_step. unfold walk_step.
  rewrite Hi, Hab, Hm. fold st. rewrite Hres. cbn [negb].
  rewrite Hcb, (subs_of_lookup this i r Hi), Hcb.
  unfold walk_mount. fold x0. fold rq1. rewrite Hfull. fold x_in. fold sr.
  rewrite Hout.
  pose proof (_routeRequest_declined sub x_in 0 Hout) as Hframe.
  fold sr in Hframe.
  destruct (preprocessRequest_req this r x) as (Hf0 & _). fold st x0 in Hf0.
  assert (Hstack : removelast (_stack (req (final sr))) = _stack (req x)).
  { unfold frame in Hframe, Hf0. cbn in Hframe.
    injection Hframe as _ _ _ ->. injection Hf0 as _ _ _ ->.
    apply removelast_last. }
  assert (Hpath : path (req (final sr)) = path (req x)).
  { unfold frame in Hframe, Hf0. cbn in Hframe.
    injection Hframe as _ -> _ _. now injection Hf0 as _ -> _ _. }
  rewrite Hstack.
  rewrite (relative_path_ext
             (set_stack (req (final sr)) (_stack (req x))) (req x) Hpath eq_refl).
  rewrite Hop. reflexivity.
Qed.

End MountFacts.

(* ===================================================================== *)
(** * A router mounted at ["/api"] with a route [GET /users] *)
(* ===================================================================== *)

Section ApiUsers.
Context {U : Type}.
Implicit Types (this sub : @Router U) (r : route_t U) (x : @exchange U).

(** What [patternToRegex] makes of the mount path ["/api"]. *)
Definition api_prefix : RegExp.t := Eval vm_compute in literal "^/api(?=$|/)".

Lemma patternToRegex_api : patternToRegex (PStr "/api") true = Some api_prefix.
Proof. vm_compute. reflexivity. Qed.

Lemma make_route_use_api (cb : callback_tt U) (skip key : Z) r :
  make_route "USE" (PStr "/api") cb skip key = Some r ->
  r = mkRoute "ALL" (PStr "/api") (PRe api_prefix) cb skip key true true.
Proof.
  unfold make_route. cbn [String.eqb Ascii.eqb Bool.eqb orb].
  rewrite patternToRegex_api. cbn. now intros [= <-].
Qed.

Lemma make_route_get_users (cb : callback_tt U) (skip key : Z) r :
  make_route "GET" (PStr "/users") cb skip key = Some r ->
  r = mkRoute "GET" (PStr "/users") (PStr "/users") cb skip key false false.
Proof.
  unfold make_route.
  change (needsConversionToRegex (PStr "/users")) with false.
  cbn. now intros [= <-].
Qed.

Lemma route_users_matches sub (cb : callback_tt U) (skip key : Z)
    (rq : Request) :
  method rq = "GET" -> _opPath rq = "/users" ->
  let r := mkRoute "GET" (PStr "/users") (PStr "/users") cb skip key
             false false in
  methodMatches r rq && pathMatches sub r rq = true.
Proof.
  intros Hm Hp r. unfold methodMatches, pathMatches. cbn [r_all r_method pattern r].
  rewrite Hm, Hp. now destruct (truthy (get sub "case sensitive routing")).
Qed.

Lemma mount_api_matches this (cb : callback_tt U) (skip key : Z)
    (rq : Request) :
  let r := mkRoute "ALL" (PStr "/api") (PRe api_prefix) cb skip key
             true true in
  (_opPath rq = "/api/users" ->
   methodMatches r rq && pathMatches this r rq = true) /\
  (_opPath rq = "/users" ->
   methodMatches r rq && pathMatches this r rq = false).
Proof.
  intros r. unfold methodMatches, pathMatches. cbn [r_all pattern r orb].
  split; intros ->; vm_compute; reflexivity.
Qed.


(** The iteration of a mount: what the nested walk traces is part of the
    parent's trace, after what preprocessing traced. *)
Lemma walk_mount_trace this (i : nat) r sub x (settled : option bool)
    (full : RegExp.t) :
  routes this !! i = Some r -> taken this r x -> callback r = SubRouter sub ->
  let st := preprocessRequest this r x in
  resumed st = true ->
  let x0 := s_x st in
  let rq1 := set_stack (req x0) (_stack (req x0) ++ [r_path r]) in
  getFullMountpath rq1 = Some full ->
  let x_in :=
    set_req x0 (set_opPath rq1 (RegExp.replace full "" (path rq1))) in
  let sr := _routeRequest sub x_in 0 in
  exists rest,
    trace (resume this i x settled) = s_trace st ++ trace sr ++ rest.
Proof.
  intros Hi [Hab Hm] Hcb st Hres x0 rq1 Hfull x_in sr.
  rewrite resume_step. unfold walk_step.
  rewrite Hi, Hab, Hm. fold st. rewrite Hres. cbn [negb].
  rewrite Hcb, (subs_of_lookup this i r Hi), Hcb.
  unfold walk_mount. fold x0. fold rq1. rewrite Hfull. fold x_in. fold sr.
  destruct (outcome sr) as [[|]|]; cbn [emit_it emit trace];
    try (exists []; now rewrite app_nil_r).
  destruct (relative_path _); cbn [emit_it emit trace].
  - eexists. now rewrite <- app_assoc.
  - exists []. now rewrite app_nil_r.
Qed.

(** The request as the mounted router sees it. *)
Definition users_under_api (u : U) : @exchange U :=
  mkExchange
    (mkRequest "GET" "/api/users" "" "/users" "/users" [PStr "/api"] [] ∅)
    (mkResponse false false) u.

Lemma users_walk sub (f : @jsfun U) (skip key : Z) (u : U) :
  routes sub
  = [mkRoute "GET" (PStr "/users") (PStr "/users") (Handler f) skip key
       false false] ->
  exists rest,
    trace (_routeRequest sub (users_under_api u) 0)
    = Call key :: rest.
Proof.
  intros Hsub. rewrite _routeRequest_resume.
  set (r := mkRoute "GET" (PStr "/users") (PStr "/users") (Handler f) skip key
              false false : route_t U).
  assert (Hi : routes sub !! 0 = Some r) by now rewrite Hsub.
  assert (Htaken : taken sub r (users_under_api u)).
  { split; [reflexivity|]. now apply route_users_matches. }
  destruct (walk_call_after_hooks sub 0 r f (users_under_api u) None
              Hi Htaken eq_refl) as [Hyes _].
  rewrite (preprocessRequest_no_params sub r (users_under_api u) eq_refl)
    in Hyes.
  exact (Hyes eq_refl).
Qed.

(** C4, the scenario.  A router whose table is the route [GET /users],
    mounted at ["/api"]: for [GET /api/users] the walk of the parent enters
    the mounted router with the mount path stripped, and the route takes
    the request; for [GET /users] the mount entry is passed and the walk
    reports "not handled" without a call. *)
Lemma mounted_users_walk this sub (f : @jsfun U) (skm km sku ku : Z) (u : U) :
  routes this
  = [mkRoute "ALL" (PStr "/api") (PRe api_prefix) (SubRouter sub) skm km
       true true] ->
  routes sub
  = [mkRoute "GET" (PStr "/users") (PStr "/users") (Handler f) sku ku
       false false] ->
  (exists rest,
     trace (_routeRequest this (new_exchange "GET" "/api/users" u) 0)
     = Call ku :: rest) /\
  _routeRequest this (new_exchange "GET" "/users" u) 0
  = mkResult (Some false) [] (new_exchange "GET" "/users" u).
Proof.
  intros Hthis Hsub.
  set (rm := mkRoute "ALL" (PStr "/api") (PRe api_prefix) (SubRouter sub)
               skm km true true : route_t U).
  assert (Hi : routes this !! 0 = Some rm) by now rewrite Hthis.
  split.
  - rewrite _routeRequest_resume.
    set (x := new_exchange "GET" "/api/users" u).
    assert (Htaken : taken this rm x).
    { split; [reflexivity|].
      now apply (proj1 (mount_api_matches this (SubRouter sub) skm km (req x))). }
    destruct (walk_mount_trace this 0 rm sub x None api_prefix Hi Htaken eq_refl)
      as [rest Hrest].
    + now rewrite (preprocessRequest_no_params this rm x eq_refl).
    + rewrite (preprocessRequest_no_params this rm x eq_refl). reflexivity.
    + rewrite (preprocessRequest_no_params this rm x eq_refl) in Hrest.
      destruct (users_walk sub f sku ku u Hsub) as [rest' Hsubtrace].
      rewrite Hrest. cbn [s_trace app].
      change (set_req _ _) with (users_under_api u).
      rewrite Hsubtrace. cbn [app]. eauto.
  - rewrite _routeRequest_resume.
    set (x := new_exchange "GET" "/users" u).
    rewrite (walk_pass this 0 rm x None Hi eq_refl).
    + apply walk_end. rewrite Hthis. cbn. lia.
    + now apply (proj2 (mount_api_matches this (SubRouter sub) skm km (req x))).
Qed.

End ApiUsers.

Section MountedRouter.
Context {U : Type}.
Implicit Types (this sub : @Router U) (r : route_t U) (x : @exchange U).

(** When the walk of a mounted router reports "handled", so does the walk
    of the parent, and it stops. *)
Lemma walk_handled_mount this (i : nat) r sub x (settled : option bool)
    (full : RegExp.t) :
  routes this !! i = Some r -> taken this r x -> callback r = SubRouter sub ->
  let st := preprocessRequest this r x in
  resumed st = true ->
  let x0 := s_x st in
  let rq1 := set_stack (req x0) (_stack (req x0) ++ [r_path r]) in
  getFullMountpath rq1 = Some full ->
  let x_in :=
    set_req x0 (set_opPath rq1 (RegExp.replace full "" (path rq1))) in
  let sr := _routeRequest sub x_in 0 in
  outcome sr = Some true ->
  resume this i x settled
  = mkResult (settle settled true) (s_trace st ++ trace sr) (final sr).
Proof.
  intros Hi [Hab Hm] Hcb st Hres x0 rq1 Hfull x_in sr Hout.
  rewrite resume_step. unfold walk_step.
  rewrite Hi, Hab, Hm. fold st. rewrite Hres. cbn [negb].
  rewrite Hcb, (subs_of_lookup this i r Hi), Hcb.
  unfold walk_mount. fold x0. fold rq1. rewrite Hfull. fold x_in. fold sr.
  now rewrite Hout.
Qed.

Lemma normalize_users this : normalize this (PStr "/users") = PStr "/users".
Proof.
  unfold normalize.
  change (JsString.endsWith "/users" "/") with false.
  now rewrite andb_false_r.
Qed.

Lemma normalize_api this : normalize this (PStr "/api") = PStr "/api".
Proof.
  unfold normalize.
  change (JsString.endsWith "/api" "/") with false.
  now rewrite andb_false_r.
Qed.

(** [router.get('/users', f)] on an empty table. *)
Lemma verb_get_users (key key' : Z) sub0 sub (f : @jsfun U) :
  routes sub0 = [] ->
  verb key sub0 "get" (OnePath (PStr "/users")) [Cb (Handler f)]
  = Some (key', sub) ->
  routes sub
  = [mkRoute "GET" (PStr "/users") (PStr "/users") (Handler f) key key
       false false].
Proof.
  intros Hempty H. unfold verb in H.
  change (JsString.toUpperCase "get") with "GET" in H.
  apply createRoute_spec in H as (_ & _ & new & Hr & Hlen & Hnew).
  cbn in Hlen. destruct new as [|r [|? ?]]; try discriminate.
  destruct (Hnew 0 r eq_refl) as (_ & _ & cb & p & Hcb & Hp & Hmk).
  cbn in Hcb, Hp. injection Hcb as <-. injection Hp as <-.
  rewrite normalize_users in Hmk. apply make_route_get_users in Hmk.
  rewrite Hr, Hempty, Hmk. cbn. do 3 f_equal; lia.
Qed.

(** [parent.use('/api', sub)] on an empty table: the mount entry holds
    the router with its table. *)
Lemma use_api (key key' : Z) parent0 parent sub :
  routes parent0 = [] ->
  use key parent0 (UPath (OnePath (PStr "/api"))) [Cb (SubRouter sub)]
  = Some (key', parent) ->
  exists sub',
    routes sub' = routes sub /\
    routes parent
    = [mkRoute "ALL" (PStr "/api") (PRe api_prefix) (SubRouter sub') key key
         true true].
Proof.
  intros Hempty H. unfold use in H.
  change (String.eqb "/api" "/") with false in H. cbn [map adopt] in H.
  apply createRoute_spec in H as (_ & _ & new & Hr & Hlen & Hnew).
  cbn in Hlen. destruct new as [|r [|? ?]]; try discriminate.
  destruct (Hnew 0 r eq_refl) as (_ & _ & cb & p & Hcb & Hp & Hmk).
  cbn in Hcb, Hp. injection Hcb as <-. injection Hp as <-.
  rewrite normalize_api in Hmk. apply make_route_use_api in Hmk.
  eexists. split; [|rewrite Hr, Hempty, Hmk; cbn; do 3 f_equal; lia].
  reflexivity.
Qed.


(** The callback of [GET /users] is called on the request with the mount
    path stripped: if it answers, this is the whole walk. *)
Lemma mounted_users_handled this sub (f : @jsfun U) (skm km sku ku : Z)
    (u : U) :
  routes this
  = [mkRoute "ALL" (PStr "/api") (PRe api_prefix) (SubRouter sub) skm km
       true true] ->
  routes sub
  = [mkRoute "GET" (PStr "/users") (PStr "/users") (Handler f) sku ku
       false false] ->
  let re := on_request f (users_under_api u) in
  seen_signal re = Return ->
  _routeRequest this (new_exchange "GET" "/api/users" u) 0
  = mkResult (Some true) [Call ku] (after (users_under_api u) re).
Proof.
  intros Hthis Hsub re Hsig.
  set (rm := mkRoute "ALL" (PStr "/api") (PRe api_prefix) (SubRouter sub)
               skm km true true : route_t U).
  set (ru := mkRoute "GET" (PStr "/users") (PStr "/users") (Handler f) sku ku
               false false : route_t U).
  set (x := new_exchange "GET" "/api/users" u).
  assert (Hi : routes this !! 0 = Some rm) by now rewrite Hthis.
  assert (Hj : routes sub !! 0 = Some ru) by now rewrite Hsub.
  assert (Htaken : taken this rm x).
  { split; [reflexivity|].
    now apply (proj1 (mount_api_matches this (SubRouter sub) skm km (req x))). }
  assert (Htaken' : taken sub ru (users_under_api u)).
  { split; [reflexivity|]. now apply route_users_matches. }
  assert (Hsr : _routeRequest sub (users_under_api u) 0
                = mkResult (Some true) [Call ku]
                    (after (users_under_api u) re)).
  { rewrite _routeRequest_resume.
    rewrite (walk_return sub 0 ru f (users_under_api u) None Hj Htaken' eq_refl);
      rewrite (preprocessRequest_no_params sub ru (users_under_api u) eq_refl);
      [reflexivity | reflexivity | exact Hsig]. }
  rewrite _routeRequest_resume.
  rewrite (walk_handled_mount this 0 rm sub x None api_prefix Hi Htaken eq_refl);
    rewrite (preprocessRequest_no_params this rm x eq_refl);
    try reflexivity.
  - cbn [s_x s_trace app].
    change (set_req _ _) with (users_under_api u). now rewrite Hsr.
  - cbn [s_x]. change (set_req _ _) with (users_under_api u). now rewrite Hsr.
Qed.


End MountedRouter.

(* ===================================================================== *)
(** * The flattened chain and the generic walk *)
(* ===================================================================== *)

Section Flattening.
Context {U : Type}.
Implicit Types (this : @Router U) (r ref : route_t U) (x : @exchange U)
  (f : @jsfun U) (T C : list (route_t U)).

(** An entry that holds a terminal callback. *)
Definition terminal r : Prop :=
  match callback r with
  | Handler _ => True
  | SubRouter _ => False
  end.

(** ** What the optimizer collects over a table of terminal callbacks *)

Lemma optimize_loop_flat
    (nested : @Router U -> route_t U -> list (route_t U) -> list (route_t U))
    ref T :
  Forall (fun r => terminal r /\ (routeKey r <= routeKey ref)%Z) T ->
  forall acc,
    optimize_loop nested ref T acc = acc ++ List.filter (selects ref) T.
Proof.
  induction 1 as [|r T [Hterm Hkey] _ IH]; intros acc; cbn [optimize_loop List.filter].
  - now rewrite app_nil_r.
  - replace (routeKey r >? routeKey ref)%Z with false
      by (symmetry; rewrite Z.gtb_ltb; apply Z.ltb_ge; exact Hkey).
    destruct (selects ref r).
    + unfold terminal in Hterm. destruct (callback r); [|contradiction].
      rewrite IH. now rewrite <- app_assoc.
    + apply IH.
Qed.

Lemma optimizeRoute_flat this ref :
  Forall (fun r => terminal r /\ (routeKey r <= routeKey ref)%Z) (routes this) ->
  optimizeRoute this ref [] []
  = List.filter (selects ref) (routes this) ++ [ref].
Proof.
  intros H. destruct this as [T pc er mp st pa uw]. cbn [optimizeRoute routes] in *.
  now rewrite (optimize_loop_flat _ ref T H []).
Qed.


(** ** The optimizer's test and the walk's test *)

(** The test of the walk on an entry, for a request. *)
Definition takes this (rq : Request) r : bool :=
  methodMatches r rq && pathMatches this r rq.

Lemma selects_takes this ref r (rq : Request) (p : string) :
  r_path ref = PStr p -> p <> "" ->
  method rq = r_method ref -> _opPath rq = p ->
  truthy (get this "case sensitive routing") = true ->
  pattern r <> PStr "*" ->
  selects ref r = takes this rq r.
Proof.
  intros Hp Hne Hm Ho Hcs Hstar.
  unfold selects, takes, methodMatches, opt_matches, pathMatches.
  rewrite Hp, Hm, Ho, Hcs. f_equal.
  - now destruct (r_all r), (String.eqb (r_method r) (r_method ref)).
  - destruct (pattern r) as [s|re]; [|reflexivity].
    replace (String.eqb p "") with false
      by (symmetry; now apply String.eqb_neq).
    replace (String.eqb s "*") with false.
    + now rewrite orb_false_r.
    + symmetry. apply String.eqb_neq. congruence.
Qed.

(** ** The native continuation *)

Lemma chain_S this C (fuel j : nat) x (inTry : bool) :
  chain this C (S fuel) j x inTry =
  match chain_step this C j x inTry with
  | Over evs x' => (evs, x')
  | Onward evs j' x' inTry' =>
      let '(evs', x'') := chain this C fuel j' x' inTry' in (evs ++ evs', x'')
  end.
Proof. reflexivity. Qed.

Lemma chain_end this C (fuel j : nat) x (inTry : bool) :
  length C <= j -> chain this C fuel j x inTry = ([], x).
Proof.
  intros Hj. destruct fuel as [|fuel]; [reflexivity|].
  rewrite chain_S. unfold chain_step.
  now rewrite (proj2 (lookup_ge_None _ _) Hj).
Qed.

(** The [while] of the native continuation, entered one past the caller
    at [length pre]: it stops one past the first entry that bears the
    key. *)
Lemma chain_skip_app (key : Z) (l : list (route_t U)) :
  forall (fuel : nat) (pre post : list (route_t U)) r',
    Forall (fun r => routeKey r <> key) l -> routeKey r' = key ->
    length l < fuel ->
    chain_skip fuel (pre ++ l ++ r' :: post) (S (length pre)) key
    = S (length pre + length l).
Proof.
  induction l as [|a l IH]; intros fuel pre post r' Hl Hk Hfuel;
    (destruct fuel as [|fuel]; [cbn in Hfuel; lia|]); cbn [chain_skip].
  - replace (S (length pre) - 1) with (length pre) by lia.
    cbn [app].
    rewrite (list_lookup_middle pre post r' (length pre) eq_refl).
    rewrite (proj2 (Z.eqb_eq _ _) Hk). cbn. f_equal. lia.
  - replace (S (length pre) - 1) with (length pre) by lia.
    cbn [app].
    rewrite (list_lookup_middle pre (l ++ r' :: post) a (length pre) eq_refl).
    apply Forall_cons in Hl as [Ha Hl].
    replace (routeKey a =? key)%Z with false
      by (symmetry; now apply Z.eqb_neq).
    replace (S (length pre) <? length (pre ++ a :: l ++ r' :: post)) with true.
    2: { symmetry. apply Nat.ltb_lt. rewrite !length_app. cbn.
         rewrite length_app. cbn. lia. }
    cbn [negb andb].
    replace (pre ++ a :: l ++ r' :: post) with ((pre ++ [a]) ++ l ++ r' :: post)
      by now rewrite <- app_assoc.
    replace (S (S (length pre))) with (S (length (pre ++ [a])))
      by (rewrite length_app; cbn; lia).
    rewrite IH; try assumption; [|cbn in Hfuel; lia].
    rewrite length_app. cbn. lia.
Qed.

End Flattening.

(* ===================================================================== *)
(** * The native chain simulates the walk *)
(* ===================================================================== *)

Section Simulation.
Context {U : Type}.
Implicit Types (r : route_t U) (x : @exchange U) (f : @jsfun U).

(** A callback that acts before it returns and leaves the connection
    open. *)
Definition behaved r : Prop :=
  forall f, callback r = Handler f ->
  forall x, when (on_request f x) = Sync /\ disconnects (on_request f x) = false.

(** The target of [next('route')] from the entry at [i], were it to take
    the request: an entry of the table that takes the request too. *)
Definition lands (this : @Router U) (rq : Request) (i : nat) r : bool :=
  implb (takes this rq r)
    match skip_to (S (length (routes this))) (routes this) i (routeSkipKey r) with
    | Some j =>
        match routes this !! j with
        | Some r' => takes this rq r'
        | None => false
        end
    | None => false
    end.

Definition skip_closed (this : @Router U) (rq : Request) : Prop :=
  forall i r, routes this !! i = Some r -> lands this rq i r = true.

(** The entries before the cursor [i] that take the request: the index in
    the flattened chain that answers to [i]. *)
Definition cnt (this : @Router U) (rq : Request) (i : nat) : nat :=
  length (List.filter (takes this rq) (take i (routes this))).

Lemma Forall_filter_bool {A : Type} (P : A -> Prop) (g : A -> bool) (l : list A) :
  Forall P l -> Forall P (List.filter g l).
Proof.
  induction 1 as [|a l Ha _ IH]; cbn [List.filter]; [constructor|].
  destruct (g a); [now constructor | exact IH].
Qed.

Variables (this : @Router U) (rq0 : Request).

Local Abbreviation T := (routes this).
Local Abbreviation C := (List.filter (takes this rq0) (routes this)).

Lemma cnt_end i : length T <= i -> cnt this rq0 i = length C.
Proof. intros H. unfold cnt. now rewrite take_ge. Qed.

Lemma cnt_le i : cnt this rq0 i <= length C.
Proof.
  unfold cnt.
  replace C with (List.filter (takes this rq0) (take i T ++ drop i T))
    by now rewrite take_drop.
  rewrite List.filter_app, length_app. lia.
Qed.

Lemma cnt_pass i r :
  T !! i = Some r -> takes this rq0 r = false ->
  cnt this rq0 (S i) = cnt this rq0 i.
Proof.
  intros Hi Hr. unfold cnt. rewrite (take_S_r _ _ _ Hi), List.filter_app.
  cbn [List.filter]. rewrite Hr. now rewrite app_nil_r.
Qed.

Lemma cnt_take i r :
  T !! i = Some r -> takes this rq0 r = true ->
  cnt this rq0 (S i) = S (cnt this rq0 i) /\ C !! cnt this rq0 i = Some r.
Proof.
  intros Hi Hr. unfold cnt. split.
  - rewrite (take_S_r _ _ _ Hi), List.filter_app, length_app.
    cbn [List.filter]. rewrite Hr. cbn. lia.
  - replace C with (List.filter (takes this rq0) (take i T ++ drop i T))
      by now rewrite take_drop.
    rewrite List.filter_app, (drop_S _ _ _ Hi). cbn [List.filter]. rewrite Hr.
    now apply list_lookup_middle.
Qed.

(** The two loops of [next('route')] stop on the same entry. *)
Lemma cnt_skip i j r' (key : Z) :
  i <= j -> T !! j = Some r' -> takes this rq0 r' = true ->
  routeKey r' = key ->
  (forall i' r'', i <= i' < j -> T !! i' = Some r'' -> routeKey r'' <> key) ->
  chain_skip (length C) C (S (cnt this rq0 i)) key = cnt this rq0 (S j).
Proof.
  intros Hle Hj Hr' Hk Hbefore.
  remember (drop i (take j T)) as l eqn:Hl.
  assert (Htake : take j T = take i T ++ l).
  { subst l. rewrite <- (take_drop i (take j T)) at 1. rewrite take_take.
    now replace (i `min` j) with i by lia. }
  assert (HC : C = List.filter (takes this rq0) (take i T)
                   ++ List.filter (takes this rq0) l
                   ++ r' :: List.filter (takes this rq0) (drop (S j) T)).
  { replace C with (List.filter (takes this rq0) (take j T ++ r' :: drop (S j) T))
      by now rewrite (take_drop_middle _ _ _ Hj).
    rewrite Htake, !List.filter_app. cbn [List.filter]. rewrite Hr'.
    now rewrite <- app_assoc. }
  assert (Hcnt : cnt this rq0 (S j)
                 = S (cnt this rq0 i + length (List.filter (takes this rq0) l))).
  { unfold cnt. rewrite (take_S_r _ _ _ Hj), Htake, !List.filter_app.
    cbn [List.filter]. rewrite Hr'. rewrite !length_app. cbn. lia. }
  rewrite Hcnt, HC. unfold cnt.
  apply chain_skip_app; [|exact Hk|].
  - apply Forall_filter_bool. apply Forall_lookup. intros q r'' Hq.
    subst l. rewrite lookup_drop, lookup_take in Hq.
    destruct (decide (i + q < j)); [|discriminate].
    apply (Hbefore (i + q) r''); [lia | exact Hq].
  - rewrite !length_app. cbn. lia.
Qed.

Hypothesis Hparams : params rq0 = [].
Hypothesis Hterm : Forall terminal T.
Hypothesis Hplain : Forall (fun r => has_params r = false) T.
Hypothesis Hbehaved : Forall behaved T.
Hypothesis Hquiet :
  forall eh, errorRoute this = Some eh ->
  forall e x, e_next (on_error eh e x) = false.
Hypothesis Hclosed : skip_closed this rq0.

Lemma set_params_same x :
  req x = rq0 -> set_req x (set_params (req x) []) = x.
Proof.
  intros H. destruct x as [rq rs l]. cbn in *. subst rq0.
  destruct rq; cbn in *. subst. reflexivity.
Qed.

Lemma chain_catch_quiet e x :
  chain_catch this e x
  = (trace (walk_catch this e true x None), final (walk_catch this e true x None)).
Proof.
  unfold chain_catch, walk_catch.
  destruct (errorRoute this) as [eh|] eqn:He; [|reflexivity].
  now rewrite (Hquiet eh eq_refl).
Qed.

Lemma walk_catch_view e (cn : bool) x settled :
  trace (walk_catch this e cn x settled) = trace (walk_catch this e true x None) /\
  final (walk_catch this e cn x settled) = final (walk_catch this e true x None).
Proof. unfold walk_catch. now destruct (errorRoute this). Qed.

(** From answering cursors on, the chain does what the walk does. *)
Lemma chain_walk (n : nat) :
  forall i fuelc x settled,
    length T - i <= n -> length C - cnt this rq0 i < fuelc ->
    req x = rq0 -> aborted (res x) = false ->
    chain this C fuelc (cnt this rq0 i) x true
    = (trace (resume this i x settled), final (resume this i x settled)).
Proof.
  induction n as [|n IH]; intros i fuelc x settled Hn Hfuel Hrq Hab.
  - rewrite walk_end by lia. rewrite chain_end; [reflexivity|].
    rewrite cnt_end; lia.
  - destruct (T !! i) as [r|] eqn:Hi.
    2: { apply lookup_ge_None in Hi. rewrite walk_end by lia.
         rewrite chain_end; [reflexivity|]. rewrite cnt_end; lia. }
    pose proof (lookup_lt_Some _ _ _ Hi) as Hlt.
    destruct (takes this rq0 r) eqn:Htakes.
    2: { rewrite (walk_pass this i r x settled Hi Hab)
           by (rewrite Hrq; exact Htakes).
         rewrite <- (cnt_pass i r Hi Htakes).
         apply IH; try assumption; [lia|].
         rewrite (cnt_pass i r Hi Htakes). exact Hfuel. }
    destruct (cnt_take i r Hi Htakes) as [HcS HCi].
    pose proof (proj1 (Forall_lookup _ _) Hterm i r Hi) as Ht.
    pose proof (proj1 (Forall_lookup _ _) Hplain i r Hi) as Hp.
    pose proof (proj1 (Forall_lookup _ _) Hbehaved i r Hi) as Hb.
    unfold terminal in Ht. destruct (callback r) as [f|] eqn:Hcb; [|contradiction].
    specialize (Hb f Hcb). cbv beta in Hp.
    assert (Htaken : taken this r x).
    { split; [exact Hab|]. rewrite Hrq. exact Htakes. }
    pose proof (preprocessRequest_no_params this r x Hp) as Hpre.
    rewrite (set_params_same x Hrq) in Hpre.
    assert (Hres : resumed (preprocessRequest this r x) = true)
      by now rewrite Hpre.
    destruct (Hb x) as [Hsync Hconn].
    assert (Hseen : seen_signal (on_request f x) = sig (on_request f x))
      by (unfold seen_signal; now rewrite Hsync).
    assert (Hrq1 : req (after x (on_request f x)) = rq0) by exact Hrq.
    assert (Hab1 : aborted (res (after x (on_request f x))) = false)
      by (cbn; now rewrite Hab, Hconn).
    destruct fuelc as [|fuelc]; [lia|].
    rewrite chain_S. unfold chain_step. rewrite HCi, Hcb, Hsync.
    cbv zeta. cbn [andb].
    destruct (sig (on_request f x)) as [| | |e|e] eqn:Hsig.
    + pose proof (walk_return this i r f x settled Hi Htaken Hcb Hres) as Hw.
      cbv zeta in Hw. rewrite Hpre in Hw. cbn [s_x s_trace] in Hw.
      rewrite Hw by (now rewrite Hseen). reflexivity.
    + pose proof (walk_next this i r f x settled Hi Htaken Hcb Hres) as Hw.
      cbv zeta in Hw. rewrite Hpre in Hw. cbn [s_x s_trace] in Hw.
      rewrite Hw by (now rewrite Hseen). cbn [emit trace final app].
      rewrite <- HcS.
      destruct (Nat.leb_spec (length C) (cnt this rq0 (S i))) as [Hend|Hmore].
      * pose proof (IH (S i) 1 _ settled ltac:(lia) ltac:(lia) Hrq1 Hab1) as Hc.
        rewrite chain_end in Hc by exact Hend.
        injection Hc as <- <-. reflexivity.
      * rewrite (IH (S i) fuelc _ settled ltac:(lia) ltac:(lia) Hrq1 Hab1).
        reflexivity.
    + pose proof (Hclosed i r Hi) as Hl. unfold lands in Hl.
      rewrite Htakes in Hl. cbn [implb] in Hl.
      destruct (skip_to _ _ _ _) as [j|] eqn:Hj; [|discriminate].
      destruct (T !! j) as [r'|] eqn:Hr'; [|discriminate].
      pose proof (skip_to_spec _ _ _ _ _ Hj) as (Hle & (r'' & Hr'' & Hk) & Hbefore).
      pose proof (eq_trans (eq_sym Hr') Hr'') as [= <-].
      pose proof (walk_next_route this i r f x settled j Hi Htaken Hcb Hres) as Hw.
      cbv zeta in Hw. rewrite Hpre in Hw. cbn [s_x s_trace] in Hw.
      rewrite Hw by (try exact Hj; now rewrite Hseen).
      cbn [emit trace final app].
      rewrite (cnt_skip i j r' (routeSkipKey r) Hle Hr' Hl Hk Hbefore).
      pose proof (lookup_lt_Some _ _ _ Hr') as Hjlt.
      assert (Hmono : cnt this rq0 i < cnt this rq0 (S j)).
      { unfold cnt.
        replace (take (S j) T) with (take i T ++ drop i (take (S j) T)).
        2: { rewrite <- (take_drop i (take (S j) T)) at 2. rewrite take_take.
             now replace (i `min` S j) with i by lia. }
        rewrite List.filter_app, length_app.
        assert (Hd : drop i (take (S j) T) = r :: drop (S i) (take (S j) T)).
        { apply drop_S. rewrite lookup_take.
          destruct (decide (i < S j)); [exact Hi | lia]. }
        rewrite Hd. cbn [List.filter]. rewrite Htakes. cbn. lia. }
      destruct (Nat.leb_spec (length C) (cnt this rq0 (S j))) as [Hend|Hmore].
      * pose proof (IH (S j) 1 _ settled ltac:(lia) ltac:(lia) Hrq1 Hab1) as Hc.
        rewrite chain_end in Hc by exact Hend.
        injection Hc as <- <-. reflexivity.
      * rewrite (IH (S j) fuelc _ settled ltac:(lia) ltac:(lia) Hrq1 Hab1).
        reflexivity.
    + destruct (walk_catch_view e true (after x (on_request f x)) settled)
        as [Htr Hfin].
      rewrite chain_catch_quiet.
      rewrite resume_step, (walk_step_call this _ i r f x settled Hi Htaken Hcb Hres).
      rewrite Hpre. cbn [s_x s_trace]. unfold walk_call. rewrite Hseen.
      cbn [emit_it emit trace final app]. now rewrite Htr, Hfin.
    + destruct (walk_catch_view e false (after x (on_request f x)) settled)
        as [Htr Hfin].
      rewrite chain_catch_quiet.
      rewrite resume_step, (walk_step_call this _ i r f x settled Hi Htaken Hcb Hres).
      rewrite Hpre. cbn [s_x s_trace]. unfold walk_call. rewrite Hseen.
      cbn [emit_it emit trace final app]. now rewrite Htr, Hfin.
Qed.

End Simulation.

(* ===================================================================== *)
(** * Tables made by single-path registrations *)
(* ===================================================================== *)

Section Tidy.
Context {U : Type}.
Implicit Types (this : @Router U) (r : route_t U) (T : list (route_t U)).

(** Two entries that take the same requests. *)
Definition alike r r' : Prop :=
  r_method r' = r_method r /\ pattern r' = pattern r /\ r_all r' = r_all r.

(** A table as calls of [#createRoute] with one path each leave it, the
    counter being at [key]: the keys grow along the table and stay under
    the counter; the skip key of an entry is the key of an entry at or
    after it, made by the same call; no pattern is ["*"]. *)
Definition tidy (key : Z) T : Prop :=
  (forall i r, T !! i = Some r -> (routeKey r < key)%Z) /\
  (forall i j r r', i < j -> T !! i = Some r -> T !! j = Some r' ->
     (routeKey r < routeKey r')%Z) /\
  (forall i r, T !! i = Some r ->
     exists j r', i <= j /\ T !! j = Some r' /\
       routeKey r' = routeSkipKey r /\ alike r r') /\
  Forall (fun r => pattern r <> PStr "*") T.

Lemma tidy_nil (key : Z) : tidy key [].
Proof.
  repeat split; try (intros; rewrite lookup_nil in *; discriminate).
  constructor.
Qed.

Lemma make_route_alike (method : string) (p : pathv) (cb cb' : callback_tt U)
    (skip skip' key key' : Z) r r' :
  make_route method p cb skip key = Some r ->
  make_route method p cb' skip' key' = Some r' ->
  alike r r'.
Proof.
  unfold make_route. intros H H'.
  destruct (if String.eqb method "USE" || needsConversionToRegex p
            then PRe <$> patternToRegex p (String.eqb method "USE")
            else Some p) as [pat|]; [|discriminate].
  injection H as <-. injection H' as <-. repeat split.
Qed.

Lemma normalize_not_star this (p : pathv) : normalize this p <> PStr "*".
Proof.
  unfold normalize. destruct p as [s|re]; [|discriminate].
  destruct (negb (truthy (get this "strict routing"))
            && JsString.endsWith s "/" && negb (String.eqb s "/")).
  - destruct (String.eqb_spec (JsString.slice_0_m1 s) "*") as [|Hne];
      [discriminate | congruence].
  - destruct (String.eqb_spec s "*") as [|Hne]; [discriminate | congruence].
Qed.

Lemma make_route_not_star this (method : string) (p : pathv)
    (cb : callback_tt U) (skip key : Z) r :
  make_route method (normalize this p) cb skip key = Some r ->
  pattern r <> PStr "*".
Proof.
  unfold make_route. intros H.
  destruct (String.eqb method "USE" || needsConversionToRegex (normalize this p)).
  - destruct (patternToRegex _ _); [|discriminate]. injection H as <-.
    discriminate.
  - injection H as <-. apply normalize_not_star.
Qed.

(** A call of [#createRoute] with one path keeps the table tidy. *)
Lemma tidy_createRoute (key : Z) this (method : string) (p : pathv)
    (callbacks : list cb_arg) (key' : Z) this' :
  tidy key (routes this) ->
  createRoute key this method (OnePath p) callbacks = Some (key', this') ->
  tidy key' (routes this').
Proof.
  intros (Hlt & Hsorted & Hgroup & Hstar) H.
  apply createRoute_spec in H as (_ & -> & new & -> & Hlen & Hnew).
  cbn [paths_of length] in Hlen, Hnew. rewrite Nat.mul_1_r in Hlen.
  cbn [paths_of length]. rewrite Nat.mul_1_r.
  set (n := length (flat callbacks)) in *.
  assert (Hmade : forall j r, new !! j = Some r ->
            routeKey r = (key + Z.of_nat j)%Z /\
            routeSkipKey r = (key + Z.of_nat n - 1)%Z /\
            exists cb, make_route method (normalize this p) cb
                         (key + Z.of_nat n - 1) (key + Z.of_nat j) = Some r).
  { intros j r Hj. destruct (Hnew j r Hj) as (Hk & Hs & cb & p' & _ & Hp & Hmk).
    rewrite Nat.mod_1_r in Hp. injection Hp as <-.
    split; [exact Hk|]. split; [exact Hs|]. now exists cb. }
  assert (Hkeys : forall i r, (routes this ++ new) !! i = Some r ->
            (i < length (routes this) /\ routes this !! i = Some r
             /\ (routeKey r < key)%Z) \/
            (length (routes this) <= i
             /\ new !! (i - length (routes this)) = Some r
             /\ routeKey r = (key + Z.of_nat (i - length (routes this)))%Z
             /\ i - length (routes this) < n)).
  { intros i r Hi. apply lookup_app_Some in Hi as [Hi | [Hge Hi]].
    - left. split; [now apply lookup_lt_Some in Hi|]. split; [exact Hi|].
      now apply (Hlt i).
    - right. split; [exact Hge|]. split; [exact Hi|].
      split; [now apply Hmade|].
      apply lookup_lt_Some in Hi. lia. }
  split; [|split; [|split]].
  - intros i r Hi. destruct (Hkeys i r Hi) as [(_ & _ & ?) | (_ & _ & -> & ?)]; lia.
  - intros i j r r' Hij Hi Hj.
    destruct (Hkeys i r Hi) as [(? & Hi' & ?) | (? & _ & -> & ?)];
      destruct (Hkeys j r' Hj) as [(? & Hj' & ?) | (? & _ & -> & ?)];
      try lia.
    now apply (Hsorted i j).
  - intros i r Hi. apply lookup_app_Some in Hi as [Hi | [Hge Hi]].
    + destruct (Hgroup i r Hi) as (j & r' & Hle & Hj & Hk & Ha).
      exists j, r'. split; [exact Hle|]. split; [|now split].
      now apply lookup_app_l_Some.
    + pose proof (lookup_lt_Some _ _ _ Hi) as Hq. rewrite Hlen in Hq.
      destruct (new !! (n - 1)) as [r'|] eqn:Hlast.
      2: { apply lookup_ge_None in Hlast. lia. }
      destruct (Hmade _ r Hi) as (_ & Hs & cb & Hmk).
      destruct (Hmade _ r' Hlast) as (Hk' & _ & cb' & Hmk').
      exists (length (routes this) + (n - 1)), r'.
      split; [lia|]. split.
      * rewrite lookup_app_r by lia.
        now replace (length (routes this) + (n - 1) - length (routes this))
          with (n - 1) by lia.
      * split; [rewrite Hk', Hs; lia|].
        exact (make_route_alike _ _ _ _ _ _ _ _ _ _ Hmk Hmk').
  - apply Forall_app. split; [exact Hstar|].
    apply Forall_lookup. intros j r Hj.
    destruct (Hmade j r Hj) as (_ & _ & cb & Hmk).
    exact (make_route_not_star _ _ _ _ _ _ _ Hmk).
Qed.

(** In a tidy table [next('route')] from an entry lands on an entry that
    takes the same requests. *)
Lemma tidy_skip_closed (key : Z) this (rq : Request) :
  tidy key (routes this) -> skip_closed this rq.
Proof.
  intros (_ & Hsorted & Hgroup & _) i r Hi. unfold lands.
  destruct (takes this rq r) eqn:Ht; [|reflexivity]. cbn [implb].
  destruct (Hgroup i r Hi) as (j & r' & Hle & Hj & Hk & Hm & Hp & Ha).
  pose proof (lookup_lt_Some _ _ _ Hj) as Hjlt.
  rewrite (skip_to_found (routes this) (routeSkipKey r)
             (S (length (routes this))) i j r' Hle ltac:(lia) Hj Hk).
  - rewrite Hj. unfold takes, methodMatches, pathMatches in *.
    now rewrite Hm, Hp, Ha.
  - intros i' r'' Hi' Hr''.
    pose proof (Hsorted i' j r'' r' ltac:(lia) Hr'' Hj). lia.
Qed.

End Tidy.

(* ===================================================================== *)
(** * The native handler of a literal route and the generic walk *)
(* ===================================================================== *)

Section NativeEquivalence.
Context {U : Type}.
Implicit Types (this : @Router U) (R r : route_t U) (x : @exchange U)
  (f : @jsfun U).

Lemma takes_self this R (p : string) (rq : Request) :
  pattern R = PStr p -> p <> "" ->
  method rq = r_method R -> _opPath rq = p ->
  truthy (get this "case sensitive routing") = true ->
  takes this rq R = true.
Proof.
  intros Hpat Hne Hm Ho Hcs. unfold takes, methodMatches, pathMatches.
  rewrite Hpat, Hm, Ho, Hcs.
  replace (String.eqb p "") with false by (symmetry; now apply String.eqb_neq).
  rewrite !String.eqb_refl. now rewrite orb_true_r.
Qed.

(** The chain the optimizer builds for [R] over a flat table: the entries
    of the table that take a request for [R], then [R]. [this'] is the
    router once [R] is in its table. *)
Lemma optimizeRoute_takes this this' R (p : string) (rq : Request) :
  routes this' = routes this ++ [R] ->
  r_path R = PStr p -> pattern R = PStr p -> p <> "" ->
  method rq = r_method R -> _opPath rq = p ->
  truthy (get this' "case sensitive routing") = true ->
  Forall (fun r => terminal r /\ (routeKey r <= routeKey R)%Z
                   /\ pattern r <> PStr "*") (routes this) ->
  optimizeRoute this R [] [] = List.filter (takes this' rq) (routes this').
Proof.
  intros Hroutes Hpath Hpat Hne Hm Ho Hcs Hall.
  rewrite optimizeRoute_flat.
  2: { eapply Forall_impl; [exact Hall|]. cbv beta. tauto. }
  rewrite Hroutes, List.filter_app. cbn [List.filter].
  rewrite (takes_self this' R p rq Hpat Hne Hm Ho Hcs).
  f_equal. apply List.filter_ext_in. intros r Hin.
  apply (proj1 (List.Forall_forall _ _) Hall) in Hin as (_ & _ & Hstar).
  now apply (selects_takes this' R r rq p).
Qed.

(** The native handler built for [R] when the table was that of [this],
    run when the table is that of [this'], the same with [R] at its end. *)
Lemma native_handler_table this this' R (p : string) (u : U) :
  let x := new_exchange (r_method R) p u in
  routes this' = routes this ++ [R] ->
  r_path R = PStr p -> pattern R = PStr p -> p <> "" ->
  truthy (get this' "case sensitive routing") = true ->
  Forall (fun r => (routeKey r <= routeKey R)%Z /\ pattern r <> PStr "*")
    (routes this) ->
  Forall (fun r => terminal r /\ has_params r = false /\ behaved r)
    (routes this') ->
  (forall eh, errorRoute this' = Some eh ->
   forall e x', e_next (on_error eh e x') = false) ->
  skip_closed this' (req x) ->
  native_handler this' R (optimizeRoute this R [] []) x
  = (trace (_routeRequest this' x 0), final (_routeRequest this' x 0)).
Proof.
  intros x Hroutes Hpath Hpat Hne Hcs Hkeys Hall Hquiet Hclosed.
  assert (Hterm : Forall terminal (routes this'))
    by (eapply Forall_impl; [exact Hall|]; cbv beta; tauto).
  assert (Hplain : Forall (fun r => has_params r = false) (routes this'))
    by (eapply Forall_impl; [exact Hall|]; cbv beta; tauto).
  assert (Hbehaved : Forall behaved (routes this'))
    by (eapply Forall_impl; [exact Hall|]; cbv beta; tauto).
  assert (Hflat : optimizeRoute this R [] []
                  = List.filter (takes this' (req x)) (routes this')).
  { apply (optimizeRoute_takes this this' R p (req x));
      try assumption; try reflexivity.
    rewrite Hroutes in Hterm. apply Forall_app in Hterm as [Hterm _].
    apply Forall_lookup. intros i r Hi.
    pose proof (proj1 (Forall_lookup _ _) Hterm i r Hi).
    pose proof (proj1 (Forall_lookup _ _) Hkeys i r Hi). cbv beta in *. tauto. }
  assert (HR : has_params R = false)
    by (unfold has_params; now rewrite Hpath, Hpat).
  unfold native_handler.
  rewrite (preprocessRequest_no_params this' R x HR). cbn [resumed s_x s_trace].
  change (set_req x (set_params (req x) [])) with x.
  rewrite Hflat, _routeRequest_resume.
  change 0 with (cnt this' (req x) 0) at 1.
  rewrite (chain_walk this' (req x) eq_refl Hterm Hplain Hbehaved Hquiet Hclosed
             (length (routes this')) 0 _ x None); try reflexivity; try lia.
Qed.

End NativeEquivalence.

(* ===================================================================== *)
(** * The native handler a registration leaves *)
(* ===================================================================== *)

Section Registered.
Context {U : Type}.
Implicit Types (this : @Router U) (R r : route_t U) (x : @exchange U)
  (f : @jsfun U).

(** The names of the natively supported methods are neither ["USE"] nor
    ["ALL"], and are in upper case. *)
Lemma native_method_plain (method : string) :
  existsb (String.eqb method) native_methods = true ->
  String.eqb method "USE" = false /\ String.eqb method "ALL" = false /\
  JsString.toUpperCase method = method.
Proof.
  unfold native_methods. cbn [existsb]. rewrite !orb_true_iff.
  intros H. repeat (destruct H as [H|H]); try discriminate;
    apply String.eqb_eq in H; subst method; repeat split.
Qed.

(** The route a verb makes of a literal path, and the registration of its
    native handler. *)
Lemma createRoute_native (key : Z) this (method p p' : string) f
    (table : list (native_of (@Router U))) (key' : Z) this' :
  parent this = None -> uwsApp this = Some table ->
  truthy (get this "case sensitive routing") = true ->
  existsb (String.eqb method) native_methods = true ->
  normalize this (PStr p) = PStr p' ->
  needsConversionToRegex (PStr p') = false -> p' <> "/*" ->
  createRoute key this method (OnePath (PStr p)) [Cb (Handler f)]
  = Some (key', this') ->
  let R := mkRoute method (PStr p') (PStr p') (Handler f) key key false false in
  key' = (key + 1)%Z /\
  routes this' = routes this ++ [R] /\
  paramCallbacks this' = paramCallbacks this /\
  errorRoute this' = errorRoute this /\
  get this' "case sensitive routing" = get this "case sensitive routing" /\
  uwsApp this'
  = Some (table ++ [mkNative (uws_method R) (PStr p') (optimizeRoute this R [] [])]).
Proof.
  intros Hparent Htable Hcs Hnative Hnorm Hlit Hne H R.
  destruct (native_method_plain method Hnative) as (Huse & Hall & Hup).
  unfold createRoute in H. cbn [flat map concat app length] in H.
  replace (key + Z.of_nat 1 - 1)%Z with key in H by lia.
  cbn [create_callbacks paths_of create_paths] in H.
  rewrite Hnorm in H. unfold make_route in H.
  rewrite Huse, Hall, Hlit, Hup in H. cbn [orb mbind option_bind] in H.
  fold R in H.
  assert (Hopt : optimizable this method R = true).
  { unfold optimizable. cbn [pattern R]. rewrite Hparent, Hcs, Hnative.
    replace (String.eqb p' "/*") with false
      by (symmetry; now apply String.eqb_neq).
    reflexivity. }
  rewrite Hopt in H. unfold registerUwsRoute in H. rewrite Htable in H.
  cbn [mbind option_bind create_paths create_callbacks app] in H.
  injection H as <- <-.
  repeat split. unfold get. destruct this. cbn in *. reflexivity.
Qed.


End Registered.

(* ===================================================================== *)
(** * [next('route')] in the routes of a call with one path *)
(* ===================================================================== *)

Section GroupSkip.
Context {U : Type}.
Implicit Types (this : @Router U) (r : route_t U) (x : @exchange U)
  (f : @jsfun U).

(** A call of [#createRoute] with one path and [n] callbacks puts [n]
    entries at the end of the table.  In any later table, when the
    callback of the [q]-th of them calls [next('route')], the walk goes on
    at the entry after the [n]-th: the rest of the call is skipped, what
    was registered afterwards is not. *)
Lemma next_route_one_path (key : Z) this (method : string) (p : pathv)
    (callbacks : list cb_arg) (key' : Z) this' this''
    (later : list (route_t U)) (q : nat) r f x (settled : option bool) :
  createRoute key this method (OnePath p) callbacks = Some (key', this') ->
  routes this'' = routes this' ++ later ->
  routes this'' !! (length (routes this) + q) = Some r ->
  q < length (flat callbacks) ->
  taken this'' r x -> callback r = Handler f ->
  let st := preprocessRequest this'' r x in
  resumed st = true ->
  let re := on_request f (s_x st) in
  seen_signal re = NextRoute ->
  resume this'' (length (routes this) + q) x settled
  = emit (s_trace st ++ [Call (routeKey r)])
      (resume this'' (length (routes this) + length (flat callbacks))
         (after (s_x st) re) settled).
Proof.
  intros H Hlater Hi Hq Htaken Hcb st Hres re Hsig.
  apply createRoute_spec in H as (_ & _ & new & Hr & Hlen & Hnew).
  cbn [paths_of length] in Hlen, Hnew. rewrite Nat.mul_1_r in Hlen.
  set (n := length (flat callbacks)) in *.
  set (l := length (routes this)) in *.
  assert (Hat : forall j, j < n -> exists r',
            routes this'' !! (l + j) = Some r' /\
            routeKey r' = (key + Z.of_nat j)%Z /\
            routeSkipKey r' = (key + Z.of_nat n - 1)%Z).
  { intros j Hj. destruct (new !! j) as [r'|] eqn:Hr'.
    2: { apply lookup_ge_None in Hr'. lia. }
    exists r'. destruct (Hnew j r' Hr') as (Hk & Hs & _).
    split; [|now split].
    rewrite Hlater, Hr, <- app_assoc. subst l.
    rewrite lookup_app_r by lia.
    replace (length (routes this) + j - length (routes this)) with j by lia.
    now apply lookup_app_l_Some. }
  destruct (Hat q Hq) as (r0 & Hr0 & _ & Hs0).
  pose proof (eq_trans (eq_sym Hi) Hr0) as [= <-].
  destruct (Hat (n - 1) ltac:(lia)) as (r' & Hr' & Hk' & _).
  replace (l + n) with (S (l + (n - 1))) by lia.
  apply (walk_next_route this'' (l + q) r f x settled (l + (n - 1))
           Hi Htaken Hcb Hres Hsig).
  pose proof (lookup_lt_Some _ _ _ Hr') as Hlt.
  apply (skip_to_found (routes this'') (routeSkipKey r)
           (S (length (routes this''))) (l + q) (l + (n - 1)) r'
           ltac:(lia) ltac:(lia) Hr').
  - rewrite Hk', Hs0. lia.
  - intros i' r'' Hi' Hr''.
    destruct (Hat (i' - l) ltac:(lia)) as (r1 & Hr1 & Hk1 & _).
    replace (l + (i' - l)) with i' in Hr1 by lia.
    pose proof (eq_trans (eq_sym Hr'') Hr1) as [= <-].
    rewrite Hk1, Hs0. lia.
Qed.

End GroupSkip.

(* ===================================================================== *)
(** * Scenarios *)
(* ===================================================================== *)

Section Scenarios.

(** A callback that does one thing, before it returns; as an error handler
    it sends a response. *)
Definition acts (s : signal) : @jsfun unit :=
  mkFun 3 (fun _ => mkReaction s Sync false false tt)
    (fun _ _ => mkEreaction true false false tt).

Definition app0 : @Router unit := new_Application ∅.

Definition registered (a : option (Z * @Router unit)) : @Router unit :=
  match a with
  | Some (_, this) => this
  | None => app0
  end.

(** [app.use(mw); app.get('/x', h)], [mw] calling [next()]. *)
Definition mw_app : @Router unit :=
  registered (use 0 app0 (UFun (acts Next)) []).

Definition x_app : @Router unit :=
  registered
    (verb 1 mw_app "get" (OnePath (PStr "/x")) [Cb (Handler (acts Return))]).

Definition x_route : route_t unit :=
  mkRoute "GET" (PStr "/x") (PStr "/x") (Handler (acts Return)) 1 1 false false.

Lemma x_app_routes :
  routes x_app
  = [mkRoute "ALL" (PStr "") (PRe EMPTY_REGEX) (Handler (acts Next)) 0 0 true true;
     x_route].
Proof. vm_compute. reflexivity. Qed.

Ltac entry_ok :=
  split; [exact I | split; [reflexivity|]];
  let H := fresh in intros ? H ?; cbn in H; injection H as <-;
  split; reflexivity.


(** A request whose peer is gone. *)
Definition gone : @exchange unit :=
  set_res (new_exchange "GET" "/x" tt) (mkResponse true false).



(** [app.get('/x', h); app.use(mw)], [h] calling [next()]. *)
Definition later_app : @Router unit :=
  registered
    ('(k, a) ← verb 0 app0 "get" (OnePath (PStr "/x")) [Cb (Handler (acts Next))];
     use k a (UFun (acts Return)) []).


(** [router.get(['/a', '/b'], h1, h2); router.get('/a', h3);
    app.use(router)] *)
Definition two_paths (s1 s2 : signal) : option (Z * @Router unit) :=
  '(k, a) ← verb 0 (new_Router ∅) "get" (Paths [PStr "/a"; PStr "/b"])
              [Cb (Handler (acts s1)); Cb (Handler (acts s2))];
  '(k, a) ← verb k a "get" (OnePath (PStr "/a")) [Cb (Handler (acts Return))];
  use k app0 (URouter a) [].

(** C3 at two callbacks and two paths: the four entries of the call bear
    the keys 0 to 3 and all of them the skip key 1, not the key 3 of the
    last one. *)
Theorem createRoute_two_paths_keys :
  (fun kr : Z * @Router unit =>
     (kr.1, map (fun r => (r_path r, routeKey r, routeSkipKey r)) (routes kr.2)))
    <$> createRoute 0 (new_Router ∅) "GET" (Paths [PStr "/a"; PStr "/b"])
          [Cb (Handler (acts NextRoute)); Cb (Handler (acts Return))]
  = Some (4%Z, [(PStr "/a", 0%Z, 1%Z); (PStr "/b", 1%Z, 1%Z);
                (PStr "/a", 2%Z, 1%Z); (PStr "/b", 3%Z, 1%Z)]).
Proof. vm_compute. reflexivity. Qed.

(** C2 on that table, for [GET /a]: [next('route')] from the first
    callback (key 0) stops the cursor on the entry with key 1, so the walk
    goes on with the second callback of the same call (key 2) and never
    comes to the route registered afterwards (key 4); from the second
    callback the loop runs off the end of the table, and the TypeError is
    answered with the failure page. *)
Theorem next_route_two_paths :
  (fun kr : Z * @Router unit =>
     let w := _routeRequest kr.2 (new_exchange "GET" "/a" tt) 0 in
     (outcome w, trace w))
    <$> two_paths NextRoute Return
  = Some (Some true, [Call 0; Call 2]) /\
  (fun kr : Z * @Router unit =>
     trace (_routeRequest kr.2 (new_exchange "GET" "/a" tt) 0))
    <$> two_paths NextRoute NextRoute
  = Some [Call 0; Call 2; Page500 TypeError].
Proof. split; vm_compute; reflexivity. Qed.


(** An error handler: a function of four parameters. *)
Definition on_failure : @jsfun unit :=
  mkFun 4 (fun _ => mkReaction Return Sync false false tt)
    (fun _ _ => mkEreaction true false false tt).

(** [app.use(on_failure); app.get('/x', h)], [h] calling [next(err)]. *)
Definition failing_app : @Router unit :=
  registered
    ('(k, a) ← use 0 app0 (UFun on_failure) [];
     verb k a "get" (OnePath (PStr "/x"))
       [Cb (Handler (acts (NextError (UserError 7))))]).



(** [app.get(/^\/(?<a>[^/]+)\/(?<b>[^/]+)$/, h)]: a route registered with an
    expression, and the literal route ["/x"]. *)
Lemma params_gate_witness :
  preprocessRequest mw_app x_route (new_exchange "GET" "/x" tt)
  = mkStep true []
      (set_req (new_exchange "GET" "/x" tt)
         (set_params (req (new_exchange "GET" "/x" tt)) [])) /\
  has_params
    (mkRoute "GET" (PRe two_params) (PRe two_params)
       (Handler (acts Return)) 0 0 false false) = false.
Proof.
  split.
  - apply (proj1 params_gate mw_app x_route (new_exchange "GET" "/x" tt)).
    reflexivity.
  - apply (proj2 (proj2 params_gate) app0 "GET" two_params
             (Handler (acts Return)) 0%Z 0%Z).
    reflexivity.
Defined.

(** A param hook that calls its continuation. *)
Definition resumes : @hook unit := fun _ _ _ => mkHreaction true tt.

(** [app.param('id', p1); app.param('id', p2); app.get('/u/:id', h)] *)
Definition param_app : @Router unit :=
  registered
    (verb 0 (param (param app0 ["id"] resumes) ["id"] resumes) "get"
       (OnePath (PStr "/u/:id")) [Cb (Handler (acts Return))]).



(** [router.get('/users', h); app.use('/api', router)] *)
Definition users_router : @Router unit :=
  registered
    (verb 0 (new_Router ∅) "get" (OnePath (PStr "/users"))
       [Cb (Handler (acts Return))]).

Definition api_app : @Router unit :=
  registered
    (use 1 app0 (UPath (OnePath (PStr "/api"))) [Cb (SubRouter users_router)]).


End Scenarios.

Section Slips.

(** [app.use('/api', router)] with a router that has no routes: the walk
    for [GET /api/zzz] calls nothing, and the promise is resolved with
    [true] when the nested walk comes back, so the caller sends no
    not-found page. *)
Lemma declined_mount_reports_handled :
  (fun kr : Z * @Router unit =>
     let w := _routeRequest kr.2 (new_exchange "GET" "/api/zzz" tt) 0 in
     (outcome w, trace w))
    <$> use 0 app0 (UPath (OnePath (PStr "/api"))) [Cb (SubRouter (new_Router ∅))]
  = Some (Some true, []).
Proof. vm_compute. reflexivity. Qed.

(** [router.get('/users', h); app.use('/api', router);
    app.get('/api/users', h')], [h] calling [next()]: the chain registered
    for [GET /api/users] leaves out the callback of the nested router,
    which the walk calls first. *)
Lemma nested_route_left_out :
  (fun kr : Z * @Router unit =>
     ((n_chain <$> default [] (uwsApp kr.2)) ≫= map routeKey,
      trace (_routeRequest kr.2 (new_exchange "GET" "/api/users" tt) 0)))
    <$> ('(k, sub) ← verb 0 (new_Router ∅) "get" (OnePath (PStr "/users"))
                       [Cb (Handler (acts Next))];
         '(k, a) ← use k app0 (UPath (OnePath (PStr "/api"))) [Cb (SubRouter sub)];
         verb k a "get" (OnePath (PStr "/api/users")) [Cb (Handler (acts Return))])
  = Some ([2%Z], [Call 0; Call 2]).
Proof. vm_compute. reflexivity. Qed.

End Slips.

(* ===================================================================== *)
(** * Registration: what a call adds to the table *)
(* ===================================================================== *)

Section RegistrationEffect.
Context {U : Type}.
Implicit Types (this : @Router U) (r : route_t U) (T : list (route_t U)).

(** X1.  A call of [#createRoute] with [n] callbacks (the arrays among
    them spread) and [m] paths appends [n * m] entries to the table,
    callback after callback and, for each callback, path after path; the
    entries take the values of the counter from its current one on, one
    each, and the counter ends [n * m] further; the entries that were
    there, the param hooks, the error handler, the settings and the
    parent are left as they were. *)
Theorem createRoute_appends (key : Z) this (method : string) (path : path_arg)
    (callbacks : list cb_arg) (key' : Z) this' :
  createRoute key this method path callbacks = Some (key', this') ->
  let n := length (flat callbacks) in
  let m := length (paths_of path) in
  key' = (key + Z.of_nat (n * m))%Z /\
  paramCallbacks this' = paramCallbacks this /\
  errorRoute this' = errorRoute this /\
  settings this' = settings this /\
  parent this' = parent this /\
  exists new,
    routes this' = routes this ++ new /\
    length new = n * m /\
    forall j r, new !! j = Some r ->
      routeKey r = (key + Z.of_nat j)%Z /\
      exists cb p,
        flat callbacks !! (j / m) = Some cb /\
        paths_of path !! (j mod m) = Some p /\
        callback r = cb /\ r_path r = normalize this p.
Proof.
  intros H n m.
  apply createRoute_spec in H as ((Hpc & Her & Hst & Hpa) & Hkey & new & Hr & Hlen & Hnew).
  split; [exact Hkey|]. repeat (split; [assumption|]).
  exists new. split; [exact Hr|]. split; [exact Hlen|].
  intros j r Hj. destruct (Hnew j r Hj) as (Hk & _ & cb & p & Hcb & Hp & Hmk).
  split; [exact Hk|]. exists cb, p.
  apply make_route_fields in Hmk as (_ & _ & Hc & Hpath). now repeat split.
Qed.

(** A table whose keys grow strictly from one entry to the next and stay
    under the counter. *)
Definition keyed (key : Z) T : Prop :=
  (forall i r, T !! i = Some r -> (routeKey r < key)%Z) /\
  (forall i j r r', i < j -> T !! i = Some r -> T !! j = Some r' ->
     (routeKey r < routeKey r')%Z).

Lemma keyed_nil (key : Z) : keyed key [].
Proof. split; intros; rewrite lookup_nil in *; discriminate. Qed.

Lemma keyed_createRoute (key : Z) this (method : string) (path : path_arg)
    (callbacks : list cb_arg) (key' : Z) this' :
  keyed key (routes this) ->
  createRoute key this method path callbacks = Some (key', this') ->
  (key <= key')%Z /\ keyed key' (routes this').
Proof.
  intros (Hlt & Hsorted) H.
  apply createRoute_spec in H as (_ & -> & new & -> & Hlen & Hnew).
  cbv zeta in *.
  set (k := length (flat callbacks) * length (paths_of path)) in *.
  assert (Hkeys : forall i r, (routes this ++ new) !! i = Some r ->
            (i < length (routes this) /\ routes this !! i = Some r
             /\ (routeKey r < key)%Z) \/
            (length (routes this) <= i
             /\ routeKey r = (key + Z.of_nat (i - length (routes this)))%Z
             /\ i - length (routes this) < k)).
  { intros i r Hi. apply lookup_app_Some in Hi as [Hi | [Hge Hi]].
    - left. split; [now apply lookup_lt_Some in Hi|]. split; [exact Hi|].
      now apply (Hlt i).
    - right. split; [exact Hge|]. split; [now apply Hnew|].
      apply lookup_lt_Some in Hi. lia. }
  split; [lia|]. split.
  - intros i r Hi. destruct (Hkeys i r Hi) as [(_ & _ & ?) | (_ & -> & ?)]; lia.
  - intros i j r r' Hij Hi Hj.
    destruct (Hkeys i r Hi) as [(? & Hi' & ?) | (? & -> & ?)];
      destruct (Hkeys j r' Hj) as [(? & Hj' & ?) | (? & -> & ?)];
      try lia.
    now apply (Hsorted i j).
Qed.

(** X2.  Every registration, by [use] or by a verb, with any number of
    callbacks and paths, leaves the keys of the table growing strictly
    from one entry to the next, all of them under the counter, which never
    goes back: no two entries of a table bear the same key. *)
Theorem registration_keeps_keys (key : Z) this (key' : Z) this' :
  keyed key (routes this) ->
  (exists (method : string) path callbacks,
     verb key this method path callbacks = Some (key', this')) \/
  (exists first callbacks, use key this first callbacks = Some (key', this')) ->
  (key <= key')%Z /\ keyed key' (routes this') /\
  forall i j r r',
    routes this' !! i = Some r -> routes this' !! j = Some r' ->
    routeKey r = routeKey r' -> i = j.
Proof.
  intros Hk H.
  assert (Hgoal : (key <= key')%Z /\ keyed key' (routes this')).
  { destruct H as [(method & path & callbacks & H) | (first & callbacks & H)].
    - exact (keyed_createRoute _ _ _ _ _ _ _ Hk H).
    - unfold use in H.
      destruct first as [f| |cs|[[s|re]|[|p ps]]];
        try exact (keyed_createRoute _ _ _ _ _ _ _ Hk H).
      destruct callbacks as [|c callbacks];
          [|exact (keyed_createRoute _ _ _ _ _ _ _ Hk H)].
      destruct (arity f =? 4);
        [|exact (keyed_createRoute _ _ _ _ _ _ _ Hk H)].
      injection H as <- <-. split; [lia | exact Hk]. }
  destruct Hgoal as (Hle & Hk'). split; [exact Hle|]. split; [exact Hk'|].
  intros i j r r' Hi Hj Heq. destruct Hk' as (_ & Hsorted).
  destruct (Nat.lt_trichotomy i j) as [Hlt | [-> | Hlt]]; [|reflexivity|].
  - pose proof (Hsorted i j r r' Hlt Hi Hj). lia.
  - pose proof (Hsorted j i r' r Hlt Hj Hi). lia.
Qed.

End RegistrationEffect.

(* ===================================================================== *)
(** * Registration: the native table *)
(* ===================================================================== *)

Section NativeTable.
Context {U : Type}.
Implicit Types (this : @Router U) (r : route_t U).

(** What keeps every route of a call out of the native table: the router
    is mounted, or matches without regard to case, or the method is not
    one the transport supports. *)
Definition blocked this (method : string) : Prop :=
  parent this <> None \/
  truthy (get this "case sensitive routing") = false \/
  existsb (String.eqb method) native_methods = false.

Lemma blocked_optimizable this (method : string) r :
  blocked this method -> optimizable this method r = false.
Proof.
  unfold optimizable. intros [Hp | [Hcs | Hm]]; destruct (pattern r) as [s|];
    try reflexivity.
  - destruct (parent this); [|congruence]. now rewrite andb_false_r.
  - rewrite Hcs. now rewrite andb_false_r.
  - rewrite Hm. now rewrite andb_false_r.
Qed.

Lemma create_paths_blocked (method : string) (cb : callback_tt U) (skip : Z)
    (paths : list pathv) this :
  blocked this method ->
  forall (key : Z) (local : list (route_t U)) (key' : Z) this' local',
    create_paths method cb skip paths key this local
    = Some (key', this', local') ->
    this' = this.
Proof.
  intros Hb. induction paths as [|p paths IH]; intros key local key' this' local' H.
  - now injection H as _ <- _.
  - cbn [create_paths] in H.
    destruct (make_route method (normalize this p) cb skip key) as [r0|];
      [|discriminate].
    cbn [mbind option_bind] in H.
    rewrite (blocked_optimizable this method r0 Hb) in H.
    cbn [mbind option_bind] in H. exact (IH _ _ _ _ _ H).
Qed.

Lemma blocked_push_routes this (method : string) (rs : list (route_t U)) :
  blocked this method -> blocked (push_routes this rs) method.
Proof.
  unfold blocked. destruct this. cbn. tauto.
Qed.

Lemma create_callbacks_blocked (method : string) (path : path_arg) (skip : Z)
    (callbacks : list (callback_tt U)) :
  forall (key : Z) this (key' : Z) this',
    blocked this method ->
    create_callbacks method path skip callbacks key this = Some (key', this') ->
    uwsApp this' = uwsApp this.
Proof.
  induction callbacks as [|cb callbacks IH]; intros key this key' this' Hb H.
  - now injection H as _ <-.
  - cbn [create_callbacks] in H.
    destruct (create_paths method cb skip (paths_of path) key this [])
      as [[[key1 this1] local]|] eqn:Hp; [|discriminate].
    cbn [mbind option_bind] in H.
    apply (create_paths_blocked _ _ _ _ _ Hb) in Hp. subst this1.
    apply IH in H; [|now apply blocked_push_routes].
    rewrite H. reflexivity.
Qed.

(** X3.  A registration adds no native handler when the router has a
    parent, or when its case-sensitive routing is off, or when the method
    is not one of the nine the transport supports; so middleware, which
    [use] registers under the method ["USE"], never gets one. *)
Theorem no_native_handler (key : Z) this (method : string) (path : path_arg)
    (callbacks : list cb_arg) (key' : Z) this' :
  createRoute key this method path callbacks = Some (key', this') ->
  (parent this <> None \/
   truthy (get this "case sensitive routing") = false \/
   existsb (String.eqb method) native_methods = false \/
   method = "USE") ->
  uwsApp this' = uwsApp this.
Proof.
  intros H Hb. unfold createRoute in H.
  apply (create_callbacks_blocked _ _ _ _ _ _ _ _) in H; [exact H|].
  unfold blocked. destruct Hb as [?|[?|[?| ->]]]; auto.
Qed.

(** X4.  A router has no transport of its own: on a router with no
    parent whose own settings turn case-sensitive routing on, the
    registration of a literal route under a native method fails, the
    optimizer reaching for the transport's method table. *)
Theorem createRoute_without_transport (key : Z) this (method p p' : string)
    (callbacks : list cb_arg) :
  parent this = None -> uwsApp this = None ->
  truthy (get this "case sensitive routing") = true ->
  existsb (String.eqb method) native_methods = true ->
  normalize this (PStr p) = PStr p' ->
  needsConversionToRegex (PStr p') = false -> p' <> "/*" ->
  flat callbacks <> [] ->
  createRoute key this method (OnePath (PStr p)) callbacks = None.
Proof.
  intros Hparent Hno Hcs Hnative Hnorm Hlit Hne Hcbs.
  destruct (native_method_plain method Hnative) as (Huse & Hall & Hup).
  unfold createRoute. destruct (flat callbacks) as [|cb cbs]; [congruence|].
  cbn [create_callbacks paths_of create_paths].
  rewrite Hnorm. unfold make_route.
  rewrite Huse, Hlit. cbn [orb mbind option_bind].
  unfold optimizable. cbn [pattern]. rewrite Hparent, Hcs, Hnative.
  replace (String.eqb p' "/*") with false
    by (symmetry; now apply String.eqb_neq).
  cbn [negb andb]. unfold registerUwsRoute. rewrite Hno. reflexivity.
Qed.

End NativeTable.

(* ===================================================================== *)
(** * The optimizer: what a chain holds *)
(* ===================================================================== *)

Section ChainContent.
Context {U : Type}.
Implicit Types (this : @Router U) (r ref : route_t U).

(** What the optimizer adds for [ref], nested routers included: terminal
    callbacks whose keys are not over that of [ref]. *)
Definition adds_under this : Prop :=
  forall ref (acc : list (route_t U)) (stack : list pathv),
    stack <> [] ->
    exists new,
      optimizeRoute this ref acc stack = acc ++ new /\
      Forall (fun r => terminal r /\ (routeKey r <= routeKey ref)%Z) new.

Lemma optimize_loop_under
    (nested : @Router U -> route_t U -> list (route_t U) -> list (route_t U))
    ref (rs : list (route_t U)) :
  (forall r sub, In r rs -> callback r = SubRouter sub ->
     forall acc, exists new,
       nested sub r acc = acc ++ new /\
       Forall (fun r' => terminal r' /\ (routeKey r' <= routeKey r)%Z) new) ->
  forall acc, exists new,
    optimize_loop nested ref rs acc = acc ++ new /\
    Forall (fun r => terminal r /\ (routeKey r <= routeKey ref)%Z) new.
Proof.
  induction rs as [|r rs IH]; intros Hn acc; cbn [optimize_loop].
  - exists []. split; [now rewrite app_nil_r | constructor].
  - destruct (Z.gtb_spec (routeKey r) (routeKey ref)) as [Hgt|Hle].
    { exists []. split; [now rewrite app_nil_r | constructor]. }
    assert (Hn' : forall r' sub, In r' rs -> callback r' = SubRouter sub ->
              forall acc, exists new,
                nested sub r' acc = acc ++ new /\
                Forall (fun r'' => terminal r'' /\ (routeKey r'' <= routeKey r')%Z)
                  new)
      by (intros r' sub Hin; apply Hn; now right).
    destruct (selects ref r); [|exact (IH Hn' acc)].
    destruct (callback r) as [f|sub] eqn:Hcb.
    + destruct (IH Hn' (acc ++ [r])) as (new & Heq & Hall).
      exists (r :: new). split; [now rewrite Heq, <- app_assoc|].
      constructor; [|exact Hall]. split; [|exact Hle].
      unfold terminal. now rewrite Hcb.
    + destruct (Hn r sub (or_introl eq_refl) Hcb acc) as (new1 & Heq1 & Hall1).
      destruct (IH Hn' (nested sub r acc)) as (new & Heq & Hall).
      exists (new1 ++ new). split; [now rewrite Heq, Heq1, <- app_assoc|].
      apply Forall_app. split; [|exact Hall].
      eapply Forall_impl; [exact Hall1|]. cbv beta. intros r' [? ?].
      split; [assumption | lia].
Qed.

Lemma optimizeRoute_under this : adds_under this.
Proof.
  induction this as [this IH] using Router_nested_ind.
  intros ref acc stack Hstack.
  destruct this as [T pc er mp st pa uw]. cbn [optimizeRoute routes] in *.
  destruct stack as [|s stack]; [congruence|].
  apply optimize_loop_under. intros r sub Hin Hcb acc'.
  apply list_elem_of_In, list_elem_of_lookup in Hin as [i Hi].
  apply (IH i r sub Hi Hcb r acc' ((s :: stack) ++ [r_path r])).
  now destruct stack.
Qed.

(** X5.  The chain the optimizer builds for a route ends with the route
    itself; what comes before are terminal callbacks only, never a nested
    router, and none of them was registered after the route: no key in
    the chain is over the route's. *)
Theorem chain_content this ref :
  exists before,
    optimizeRoute this ref [] [] = before ++ [ref] /\
    Forall (fun r => terminal r /\ (routeKey r <= routeKey ref)%Z) before.
Proof.
  destruct this as [T pc er mp st pa uw]. cbn [optimizeRoute routes].
  destruct (optimize_loop_under
              (fun sub r acc => optimizeRoute sub r acc ([] ++ [r_path r]))
              ref T) with (acc := @nil (route_t U)) as (new & Heq & Hall).
  - intros r sub _ _ acc. apply optimizeRoute_under. discriminate.
  - exists new. split; [now rewrite Heq | exact Hall].
Qed.

End ChainContent.

(* ===================================================================== *)
(** * [application.js]: the catch-all handler *)
(* ===================================================================== *)

Section CatchAll.
Context {U : Type}.
Implicit Types (this : @Router U) (r : route_t U) (x : @exchange U).

(** [response.status(404); response.send(...)] *)
Definition send404 x : @exchange U :=
  set_res x (mkResponse (aborted (res x)) true).

(** The handler [#createRequestHandler] registers for every method and
    path: the walk from the first entry, then the not-found page when the
    walk reports "not handled" and nothing has been sent.  [raw_aborted]
    is the flag [aborted] of the transport's own response object, which the
    handler reads and nothing in this file sets.  The result: the trace,
    whether the not-found page is sent, the exchange. *)
Definition createRequestHandler this (raw_aborted : bool) x
  : list event * bool * @exchange U :=
  let w := _routeRequest this x 0 in
  match outcome w with
  | Some false =>
      if negb raw_aborted && negb (headersSent (res (final w)))
      then (trace w, true, send404 (final w))
      else (trace w, false, final w)
  | _ => (trace w, false, final w)
  end.

Lemma resume_none_takes this x (settled : option bool) :
  (forall i r, routes this !! i = Some r -> takes this (req x) r = false) ->
  aborted (res x) = false ->
  forall n i, length (routes this) - i <= n ->
    resume this i x settled = mkResult (settle settled false) [] x.
Proof.
  intros Hnone Hab. induction n as [|n IH]; intros i Hn.
  - apply walk_end. lia.
  - destruct (routes this !! i) as [r|] eqn:Hi.
    + rewrite (walk_pass this i r x settled Hi Hab (Hnone i r Hi)).
      apply IH. apply lookup_lt_Some in Hi. lia.
    + apply walk_end. now apply lookup_ge_None.
Qed.

(** X6.  A request that no entry of the application's table takes: the
    walk calls nothing and reports "not handled", and the catch-all
    handler sends the not-found page. *)
Theorem not_found this x :
  (forall i r, routes this !! i = Some r -> takes this (req x) r = false) ->
  aborted (res x) = false -> headersSent (res x) = false ->
  _routeRequest this x 0 = mkResult (Some false) [] x /\
  createRequestHandler this false x = ([], true, send404 x).
Proof.
  intros Hnone Hab Hsent.
  assert (Hw : _routeRequest this x 0 = mkResult (Some false) [] x).
  { rewrite _routeRequest_resume.
    apply (resume_none_takes this x None Hnone Hab (length (routes this))). lia. }
  split; [exact Hw|].
  unfold createRequestHandler. rewrite Hw. cbn. now rewrite Hsent.
Qed.

(** ** A promise resolves once *)

Lemma walk_catch_settled this (e : error) (cn : bool) x (v : bool) :
  outcome (walk_catch this e cn x (Some v)) = Some v.
Proof.
  unfold walk_catch. destruct (errorRoute this) as [eh|]; cbn.
  - now destruct (e_next _), (e_throws _).
  - now destruct cn.
Qed.

Lemma walk_step_settled this (subs : list (option (subwalk_t U))) (i : nat)
    x (v : bool) :
  match walk_step this subs i x (Some v) with
  | Stop res => outcome res = Some v
  | Continue _ _ _ settled' => settled' = Some v
  end.
Proof.
  unfold walk_step. destruct (routes this !! i) as [r|]; [|reflexivity].
  destruct (aborted (res x)); [reflexivity|].
  destruct (methodMatches r (req x) && pathMatches this r (req x));
    [|reflexivity].
  destruct (negb (resumed (preprocessRequest this r x))); [reflexivity|].
  assert (Hemit : forall evs (it : @iteration U),
            match it with
            | Stop res => outcome res = Some v
            | Continue _ _ _ settled' => settled' = Some v
            end ->
            match emit_it evs it with
            | Stop res => outcome res = Some v
            | Continue _ _ _ settled' => settled' = Some v
            end) by (intros evs [res|? ? ? ?]; trivial).
  apply Hemit.
  destruct (callback r) as [f|sub].
  - unfold walk_call. apply Hemit.
    destruct (seen_signal _); try reflexivity;
      try apply walk_catch_settled.
    destruct (skip_to _ _ _ _); [reflexivity | apply walk_catch_settled].
  - destruct (mjoin (subs !! i)) as [w|]; [|reflexivity].
    unfold walk_mount. destruct (getFullMountpath _); [|reflexivity].
    destruct (outcome (w _)) as [[|]|]; try reflexivity.
    cbv zeta. destruct (relative_path _); reflexivity.
Qed.

Lemma walk_settled this (subs : list (option (subwalk_t U))) (v : bool) :
  forall (fuel i : nat) x,
    outcome (walk this subs fuel i x (Some v)) = Some v.
Proof.
  induction fuel as [|fuel IH]; intros i x; [reflexivity|].
  rewrite walk_S. pose proof (walk_step_settled this subs i x v) as Hs.
  destruct (walk_step this subs i x (Some v)) as [res|evs i' x' settled'];
    [exact Hs|].
  subst settled'. cbn [emit outcome]. apply IH.
Qed.

(** X7.  When a mounted router takes a request and its walk reports
    "not handled", the promise of the parent's walk is resolved with
    "handled" before the parent goes on: whatever the rest of the table
    does, the walk reports "handled", and the catch-all handler sends no
    not-found page. *)
Theorem declined_mount_handled this (i : nat) r sub x (full : RegExp.t)
    (op : string) (raw_aborted : bool) :
  (forall j r', j < i -> routes this !! j = Some r' ->
     takes this (req x) r' = false) ->
  routes this !! i = Some r -> taken this r x -> callback r = SubRouter sub ->
  let st := preprocessRequest this r x in
  resumed st = true ->
  let x0 := s_x st in
  let rq1 := set_stack (req x0) (_stack (req x0) ++ [r_path r]) in
  getFullMountpath rq1 = Some full ->
  let x_in :=
    set_req x0 (set_opPath rq1 (RegExp.replace full "" (path rq1))) in
  outcome (_routeRequest sub x_in 0) = Some false ->
  relative_path (req x) = Some op ->
  outcome (_routeRequest this x 0) = Some true /\
  (createRequestHandler this raw_aborted x).1.2 = false.
Proof.
  intros Hbefore Hi Htaken Hcb st Hres x0 rq1 Hfull x_in Hout Hop.
  assert (Hw : outcome (_routeRequest this x 0) = Some true).
  { rewrite _routeRequest_resume.
    assert (Hskip : forall n j, j + n = i ->
              resume this j x None = resume this i x None).
    { induction n as [|n IH]; intros j Hj.
      - now replace j with i by lia.
      - destruct (routes this !! j) as [r'|] eqn:Hr'.
        + rewrite (walk_pass this j r' x None Hr' (proj1 Htaken)
                     (Hbefore j r' ltac:(lia) Hr')).
          apply IH. lia.
        + apply lookup_ge_None in Hr'. apply lookup_lt_Some in Hi. lia. }
    rewrite (Hskip i 0 ltac:(lia)).
    rewrite (walk_declined_mount this i r sub x None full op
               Hi Htaken Hcb Hres Hfull Hout Hop).
    cbn [emit outcome settle]. unfold resume. apply walk_settled. }
  split; [exact Hw|].
  unfold createRequestHandler. now rewrite Hw.
Qed.


End CatchAll.

(* ===================================================================== *)
(** * Matching: middleware at the root, letter case *)
(* ===================================================================== *)

Section MatchingFacts.
Context {U : Type}.
Implicit Types (this : @Router U) (r : route_t U) (f : @jsfun U).

Lemma test_EMPTY_REGEX (s : string) : RegExp.test EMPTY_REGEX s = true.
Proof.
  unfold RegExp.test, RegExp.exec.
  now destruct (String.length s).
Qed.

Lemma normalize_empty this : normalize this (PStr "") = PStr "".
Proof.
  unfold normalize. cbn.
  now destruct (negb (truthy (get this "strict routing"))).
Qed.

Lemma createRoute_use_root (key : Z) this f :
  createRoute key this "USE" (OnePath (PStr "")) [Cb (Handler f)]
  = Some ((key + 1)%Z,
          push_routes this
            [mkRoute "ALL" (PStr "") (PRe EMPTY_REGEX) (Handler f) key key
               true true]).
Proof.
  unfold createRoute. cbn [flat map concat app length].
  replace (key + Z.of_nat 1 - 1)%Z with key by lia.
  cbn [create_callbacks paths_of create_paths].
  rewrite normalize_empty. reflexivity.
Qed.

(** X9.  Middleware registered with [use(fn)], or with [use('/', fn)],
    [fn] not an error handler: it becomes the last entry of the table, and
    that entry takes every request, whatever its method and path. *)
Theorem middleware_takes_all (key : Z) this f (key' : Z) this' :
  (arity f <> 4 /\ use key this (UFun f) [] = Some (key', this')) \/
  use key this (UPath (OnePath (PStr "/"))) [Cb (Handler f)] = Some (key', this') ->
  exists r,
    routes this' = routes this ++ [r] /\
    callback r = Handler f /\ routeKey r = key /\
    forall rq : Request,
      methodMatches r rq && pathMatches this' r rq = true.
Proof.
  intros H.
  assert (Hc : createRoute key this "USE" (OnePath (PStr "")) [Cb (Handler f)]
               = Some (key', this')).
  { destruct H as [[Ha H] | H]; unfold use in H.
    - apply Nat.eqb_neq in Ha. now rewrite Ha in H.
    - exact H. }
  rewrite createRoute_use_root in Hc. injection Hc as <- <-.
  eexists. split; [reflexivity|]. repeat (split; [reflexivity|]).
  intros rq. unfold methodMatches, pathMatches. cbn [r_all pattern orb andb].
  apply test_EMPTY_REGEX.
Qed.

Lemma toLowerCase_empty (s : string) :
  JsString.toLowerCase s = "" <-> s = "".
Proof. destruct s; cbn; split; congruence. Qed.


End MatchingFacts.

(* ===================================================================== *)
(** * The param registry and the cache of mount paths *)
(* ===================================================================== *)

Section Registries.
Context {U : Type}.
Implicit Types (this : @Router U) (fn : @hook U).

Lemma foldl_param_lookup fn (names : list string) (name : string) :
  forall m : gmap string (list (@hook U)),
    foldl (fun m name => <[name := default [] (m !! name) ++ [fn]]> m) m names
      !! name
    = if count_occ string_dec names name =? 0 then m !! name
      else Some (default [] (m !! name)
                 ++ replicate (count_occ string_dec names name) fn).
Proof.
  induction names as [|n names IH]; intros m; [reflexivity|].
  cbn [foldl count_occ]. rewrite IH.
  destruct (string_dec n name) as [->|Hne].
  - rewrite lookup_insert_eq.
    destruct (count_occ string_dec names name) as [|c]; simpl.
    + reflexivity.
    + f_equal. now rewrite <- app_assoc.
  - now rewrite lookup_insert_ne by exact Hne.
Qed.

(** X11.  [param(names, fn)] appends [fn] to the hooks of each of the
    names, once for each time the name is given, after the hooks the name
    had; the hooks of the other names, and the table, are left as they
    were.  So the hooks of a name stand in the order of their
    registration. *)
Theorem param_appends this (names : list string) fn (name : string) :
  paramCallbacks (param this names fn) !! name
  = (if count_occ string_dec names name =? 0 then paramCallbacks this !! name
     else Some (default [] (paramCallbacks this !! name)
                ++ replicate (count_occ string_dec names name) fn)) /\
  routes (param this names fn) = routes this /\
  errorRoute (param this names fn) = errorRoute this.
Proof.
  split; [|split; reflexivity].
  unfold param. cbn [paramCallbacks]. apply foldl_param_lookup.
Qed.

(** [#getFullMountpath(req)] with its cache [#mountpathCache], a map
    from the joined stacks to the expressions compiled for them: the
    expression and the cache it leaves; [None] when compiling throws. *)
Definition getFullMountpath_cached (cache : gmap string RegExp.t)
    (rq : Request) : option (RegExp.t * gmap string RegExp.t) :=
  let fullStack := JsString.join (map path_toString (_stack rq)) in
  match cache !! fullStack with
  | Some fullMountpath => Some (fullMountpath, cache)
  | None =>
      fullMountpath ← patternToRegex (PStr fullStack) true;
      Some (fullMountpath, <[fullStack := fullMountpath]> cache)
  end.

(** A cache that holds, for each stack, what compiling it gives. *)
Definition cache_sound (cache : gmap string RegExp.t) : Prop :=
  forall (k : string) (re : RegExp.t),
    cache !! k = Some re -> patternToRegex (PStr k) true = Some re.

(** X12.  The cache of mount paths changes no answer: from the empty
    cache on, every lookup gives what compiling the joined stack gives,
    fails when compiling fails, and leaves a cache that holds only such
    entries, those it had among them. *)
Theorem mountpath_cache_transparent (cache : gmap string RegExp.t)
    (rq : Request) :
  cache_sound ∅ /\
  (cache_sound cache ->
   match getFullMountpath_cached cache rq with
   | Some (re, cache') =>
       getFullMountpath rq = Some re /\ cache_sound cache' /\ cache ⊆ cache'
   | None => getFullMountpath rq = None
   end).
Proof.
  split; [intros k re H; now rewrite lookup_empty in H|].
  intros Hs. unfold getFullMountpath_cached, getFullMountpath.
  set (k := JsString.join (map path_toString (_stack rq))).
  destruct (cache !! k) as [re|] eqn:Hk.
  - split; [exact (Hs k re Hk)|]. split; [exact Hs | reflexivity].
  - destruct (patternToRegex (PStr k) true) as [re|] eqn:Hre; cbn; [|reflexivity].
    split; [reflexivity|]. split.
    + intros k' re' H. destruct (decide (k' = k)) as [->|Hne].
      * rewrite lookup_insert_eq in H. now injection H as <-.
      * rewrite lookup_insert_ne in H by congruence. exact (Hs k' re' H).
    + now apply insert_subseteq.
Qed.

End Registries.

(* ===================================================================== *)
(** * [utils.js]: [canBeOptimized], [findIndexStartingFrom] *)
(* ===================================================================== *)

Section MoreUtils.

(** [canBeOptimized(pattern)] *)
Definition canBeOptimized (pattern : pathv) : bool :=
  match pattern with
  | PRe _ => false
  | PStr s =>
      if String.eqb s "/*" then false
      else if JsString.includes s "*" ||
              JsString.includes s "?" ||
              JsString.includes s "+" ||
              JsString.includes s "(" ||
              JsString.includes s ")" ||
              JsString.includes s "{" ||
              JsString.includes s "}" ||
              JsString.includes s "[" ||
              JsString.includes s "]"
      then false
      else true
  end.

(** The characters that keep a pattern from being optimized. *)
Definition wild : list ascii :=
  ["*"; "?"; "+"; "("; ")"; "{"; "}"; "["; "]"]%char.

Lemma includes_wild (s : string) :
  existsb (fun c => JsString.includes s (String c EmptyString)) wild = true
  <-> exists c, In c wild /\ In c (chars s).
Proof.
  rewrite existsb_exists.
  split; intros (c & Hc & H); exists c; split; auto;
    now apply includes_char.
Qed.

(** X13.  A pattern can be optimized exactly when it is a string, not
    ["/*"], that holds none of [* ? + ( ) { } [ ]]; and then all that
    [needsConversionToRegex] can find in it is the colon of a parameter:
    it needs converting exactly when it holds one. *)
Theorem canBeOptimized_iff (pattern : pathv) :
  (canBeOptimized pattern = true <->
   exists s, pattern = PStr s /\ s <> "/*" /\
             forall c, In c wild -> ~ In c (chars s)) /\
  (canBeOptimized pattern = true ->
   needsConversionToRegex pattern
   = match pattern with
     | PStr s => JsString.includes s ":"
     | PRe _ => false
     end).
Proof.
  destruct pattern as [s|re].
  2: { split; [|discriminate]. split; [discriminate|].
       intros (s & H & _). discriminate. }
  unfold canBeOptimized, needsConversionToRegex.
  destruct (String.eqb_spec s "/*") as [->|Hne].
  { split; [|discriminate]. split; [discriminate|].
    intros (s & [= <-] & H & _). congruence. }
  pose proof (includes_wild s) as Hw. simpl existsb in Hw.
  rewrite !orb_false_r, !orb_assoc in Hw.
  destruct (JsString.includes s "*" || JsString.includes s "?"
            || JsString.includes s "+" || JsString.includes s "("
            || JsString.includes s ")" || JsString.includes s "{"
            || JsString.includes s "}" || JsString.includes s "["
            || JsString.includes s "]") eqn:Hany.
  - split; [|discriminate]. split; [discriminate|].
    intros (s' & [= <-] & _ & Hnone).
    destruct (proj1 Hw eq_refl) as (c & Hc & Hin). now destruct (Hnone c Hc).
  - split.
    + split; [|reflexivity]. intros _. exists s. split; [reflexivity|].
      split; [exact Hne|]. intros c Hc Hin.
      assert (false = true) by (apply Hw; now exists c). discriminate.
    + intros _. rewrite !orb_false_iff in Hany.
      destruct Hany as ((((((((-> & ->) & ->) & ->) & ->) & ->) & ->) & ->) & ->).
      now destruct (JsString.includes s ":").
Qed.

(** [findIndexStartingFrom(arr, fn, index)]: the loop from [i] over what
    is left of the array; [-1] when it runs out. *)
Fixpoint findIndex_loop {A : Type} (arr : list A)
    (fn : A -> nat -> list A -> bool) (left : list A) (i : nat) : Z :=
  match left with
  | [] => (-1)%Z
  | a :: left' =>
      if fn a i arr then Z.of_nat i else findIndex_loop arr fn left' (S i)
  end.

Definition findIndexStartingFrom {A : Type} (arr : list A)
    (fn : A -> nat -> list A -> bool) (index : nat) : Z :=
  findIndex_loop arr fn (drop index arr) index.

Lemma findIndex_loop_spec {A : Type} (arr : list A)
    (fn : A -> nat -> list A -> bool) (left : list A) :
  forall i, drop i arr = left ->
    (findIndex_loop arr fn left i = (-1)%Z /\
     forall j a, i <= j -> arr !! j = Some a -> fn a j arr = false) \/
    (exists k a,
       findIndex_loop arr fn left i = Z.of_nat k /\ i <= k /\
       arr !! k = Some a /\ fn a k arr = true /\
       forall j b, i <= j < k -> arr !! j = Some b -> fn b j arr = false).
Proof.
  induction left as [|a left IH]; intros i Hd; cbn [findIndex_loop].
  - left. split; [reflexivity|]. intros j b Hj Hb.
    assert (drop i arr !! (j - i) = Some b)
      by (rewrite lookup_drop; now replace (i + (j - i)) with j by lia).
    rewrite Hd, lookup_nil in H. discriminate.
  - assert (Hi : arr !! i = Some a).
    { rewrite <- (Nat.add_0_r i), <- lookup_drop, Hd. reflexivity. }
    destruct (fn a i arr) eqn:Hf.
    + right. exists i, a. repeat split; try assumption; try lia.
    + assert (Hd' : drop (S i) arr = left).
      { rewrite (drop_S _ _ _ Hi) in Hd. now injection Hd. }
      destruct (IH (S i) Hd') as [[Hr Hnone] | (k & b & Hr & Hk & Hb & Hfb & Hbefore)].
      * left. split; [exact Hr|]. intros j b Hj Hb.
        destruct (decide (j = i)) as [->|Hne].
        -- rewrite Hi in Hb. now injection Hb as <-.
        -- apply (Hnone j b); [lia | exact Hb].
      * right. exists k, b. repeat split; try assumption; try lia.
        intros j c Hj Hc. destruct (decide (j = i)) as [->|Hne].
        -- rewrite Hi in Hc. now injection Hc as <-.
        -- apply (Hbefore j c); [lia | exact Hc].
Qed.

(** X14.  [findIndexStartingFrom] gives the first index, from [index]
    on, whose element the predicate accepts, and [-1] when there is none,
    which is the case whenever [index] is past the end. *)
Theorem findIndexStartingFrom_first {A : Type} (arr : list A)
    (fn : A -> nat -> list A -> bool) (index : nat) :
  (findIndexStartingFrom arr fn index = (-1)%Z /\
   forall j a, index <= j -> arr !! j = Some a -> fn a j arr = false) \/
  (exists k a,
     findIndexStartingFrom arr fn index = Z.of_nat k /\ index <= k /\
     arr !! k = Some a /\ fn a k arr = true /\
     forall j b, index <= j < k -> arr !! j = Some b -> fn b j arr = false).
Proof. apply findIndex_loop_spec. reflexivity. Qed.

End MoreUtils.

(* ===================================================================== *)
(** * [utils.js]: token lists and the conditional-request helpers *)
(* ===================================================================== *)

Section Preconditions.

(** The loop of [parseTokenList(str)] over what is [left] of [str], at
    index [i], and the push after it. *)
Fixpoint parseTokenList_loop (str left : string) (i start end_ : nat)
    (out : list string) : list string :=
  match left with
  | EmptyString =>
      if start =? end_ then out
      else out ++ [String.substring start (end_ - start) str]
  | String c left' =>
      if Ascii.eqb c " " then
        if start =? end_
        then parseTokenList_loop str left' (S i) (S i) (S i) out
        else parseTokenList_loop str left' (S i) start end_ out
      else if Ascii.eqb c "," then
        parseTokenList_loop str left' (S i) (S i) (S i)
          (if start =? end_ then out
           else out ++ [String.substring start (end_ - start) str])
      else parseTokenList_loop str left' (S i) start (S i) out
  end.

Definition parseTokenList (str : string) : list string :=
  parseTokenList_loop str str 0 0 0 [].

Fixpoint last_char (s : string) : option ascii :=
  match s with
  | EmptyString => None
  | String c EmptyString => Some c
  | String _ s' => last_char s'
  end.

(** A token: not empty, without a comma, with no space at either end. *)
Definition token (t : string) : Prop :=
  match t with
  | EmptyString => False
  | String c _ => c <> " "%char
  end /\
  last_char t <> Some " "%char /\
  ~ In ","%char (chars t).

Lemma substring_middle (pre t rest : string) :
  String.substring (String.length pre) (String.length t) (pre +:+ t +:+ rest)
  = t.
Proof.
  induction pre as [|c pre IH]; [exact (substring_append t rest)|].
  change (String c pre +:+ t +:+ rest) with (String c (pre +:+ t +:+ rest)).
  exact IH.
Qed.

(** The loop over the characters of a token that is under way or starts
    here: it ends with the token's bounds. *)
Lemma parseTokenList_loop_token (str : string) (u : string) :
  forall (rest : string) (i start end_ : nat) (out : list string),
    u <> "" -> ~ In ","%char (chars u) -> last_char u <> Some " "%char ->
    start <= i ->
    (start < end_ \/ match u with String c _ => c <> " "%char | _ => True end) ->
    parseTokenList_loop str (u +:+ rest) i start end_ out
    = parseTokenList_loop str rest (i + String.length u) start
        (i + String.length u) out.
Proof.
  induction u as [|c u IH]; intros rest i start end_ out Hne Hcomma Hlast Hi Hst;
    [congruence|].
  change (String c u +:+ rest) with (String c (u +:+ rest)).
  cbn [parseTokenList_loop String.length].
  assert (Hc : Ascii.eqb c "," = false).
  { apply Ascii.eqb_neq. intros ->. apply Hcomma. now left. }
  assert (Hcomma' : ~ In ","%char (chars u))
    by (intros H; apply Hcomma; now right).
  destruct u as [|d u].
  - cbn [last_char] in Hlast.
    replace (Ascii.eqb c " ") with false
      by (symmetry; apply Ascii.eqb_neq; congruence).
    rewrite Hc. cbn. now replace (i + 1) with (S i) by lia.
  - assert (Hlast' : last_char (String d u) <> Some " "%char) by exact Hlast.
    replace (i + S (String.length (String d u)))
      with (S i + String.length (String d u)) by lia.
    destruct (Ascii.eqb_spec c " ") as [->|Hsp].
    + destruct Hst as [Hlt|Hsp]; [|congruence].
      replace (start =? end_) with false by (symmetry; apply Nat.eqb_neq; lia).
      apply IH; try assumption; [discriminate | lia | now left].
    + rewrite Hc.
      rewrite (IH rest (S i) start (S i) out); try assumption;
        [reflexivity | discriminate | lia | left; lia].
Qed.

Lemma append_assoc3 (a b c : string) : (a +:+ b) +:+ c = a +:+ b +:+ c.
Proof.
  induction a as [|x a IH]; [reflexivity|].
  change ((String x a +:+ b) +:+ c) with (String x ((a +:+ b) +:+ c)).
  now rewrite IH.
Qed.

Lemma token_length (t : string) : token t -> 0 < String.length t.
Proof. intros [H _]. destruct t; [contradiction | cbn; lia]. Qed.

Lemma parseTokenList_loop_join (ts : list string) :
  Forall token ts ->
  forall (pre : string) (out : list string),
    parseTokenList_loop (pre +:+ String.concat ", " ts) (String.concat ", " ts)
      (String.length pre) (String.length pre) (String.length pre) out
    = out ++ ts.
Proof.
  induction 1 as [|t ts Ht Hts IH]; intros pre out.
  - cbn. rewrite Nat.eqb_refl. now rewrite app_nil_r.
  - pose proof (token_length t Ht) as Hlen.
    destruct Ht as (Hhead & Hlast & Hcomma).
    assert (Hne : t <> "") by (intros ->; cbn in Hlen; lia).
    destruct ts as [|t2 ts].
    + cbn [String.concat]. rewrite <- (append_empty_r t) at 2.
      rewrite (parseTokenList_loop_token _ t "" _ _ _ out Hne Hcomma Hlast
                 (le_n _)); [|right; now destruct t].
      cbn [parseTokenList_loop].
      replace (String.length pre =? String.length pre + String.length t)
        with false by (symmetry; apply Nat.eqb_neq; lia).
      replace (String.length pre + String.length t - String.length pre)
        with (String.length t) by lia.
      rewrite <- (append_empty_r t) at 2.
      now rewrite substring_middle.
    + change (String.concat ", " (t :: t2 :: ts))
        with (t +:+ ", " +:+ String.concat ", " (t2 :: ts)).
      set (R := String.concat ", " (t2 :: ts)) in *.
      rewrite (parseTokenList_loop_token _ t (", " +:+ R) _ _ _ out
                 Hne Hcomma Hlast (le_n _)); [|right; now destruct t].
      change (", " +:+ R) with (String "," (String " " R)).
      cbn [parseTokenList_loop Ascii.eqb Bool.eqb].
      replace (String.length pre =? String.length pre + String.length t)
        with false by (symmetry; apply Nat.eqb_neq; lia).
      rewrite Nat.eqb_refl.
      replace (String.length pre + String.length t - String.length pre)
        with (String.length t) by lia.
      change (String "," (String " " R)) with (", " +:+ R).
      rewrite substring_middle.
      specialize (IH (pre +:+ t +:+ ", ") (out ++ [t])).
      rewrite !length_append in IH. cbn [String.length] in IH.
      replace (S (S (String.length pre + String.length t)))
        with (String.length pre + (String.length t + 2)) by lia.
      rewrite !append_assoc3 in IH.
      rewrite IH. now rewrite <- app_assoc.
Qed.

Lemma parseTokenList_tokens (ts : list string) :
  Forall token ts -> parseTokenList (String.concat ", " ts) = ts.
Proof.
  intros H. exact (parseTokenList_loop_join ts H "" []).
Qed.

(** X15.  [parseTokenList] gives back the tokens of a list written with
    a comma and a space between them: the tokens, in their order, when
    none of them is empty, holds a comma or has a space at either end. *)
Theorem parseTokenList_join (ts : list string) :
  Forall token ts -> parseTokenList (String.concat ", " ts) = ts.
Proof. apply parseTokenList_tokens. Qed.

End Preconditions.

(* ===================================================================== *)
(** * [utils.js]: [isPreconditionFailure], [isRangeFresh] *)
(* ===================================================================== *)

Section ConditionalRequests.

(** What the helpers read and do not define: the request headers
    ([req.headers[name]]), the response headers ([res.get(name)]) and
    [Date.parse], [None] standing for [undefined] and for [NaN]. *)
Variable Date_parse : string -> option Z.
Variable headers : string -> option string.
Variable res_get : string -> option string.

(** A header value that is truthy: there, and not the empty string. *)
Definition present (v : option string) : option string :=
  match v with
  | Some s => if String.eqb s "" then None else Some s
  | None => None
  end.

(** [parseHttpDate(date)] *)
Definition parseHttpDate (date : option string) : option Z :=
  match present date with
  | Some d => Date_parse d
  | None => None
  end.

(** The test of [every] in [isPreconditionFailure]. *)
Definition differs (etag match_ : string) : bool :=
  negb (String.eqb match_ etag)
  && negb (String.eqb match_ ("W/" +:+ etag))
  && negb (String.eqb ("W/" +:+ match_) etag).

(** [isPreconditionFailure(req, res)] *)
Definition isPreconditionFailure : bool :=
  match present (headers "if-match") with
  | Some match_ =>
      match present (res_get "etag") with
      | None => true
      | Some etag =>
          negb (String.eqb match_ "*")
          && forallb (differs etag) (parseTokenList match_)
      end
  | None =>
      match parseHttpDate (headers "if-unmodified-since") with
      | Some unmodifiedSince =>
          match parseHttpDate (res_get "Last-Modified") with
          | None => true
          | Some lastModified => (lastModified >? unmodifiedSince)%Z
          end
      | None => false
      end
  end.

(** The string of one double quote. *)
Definition dquote : string := String (ascii_of_nat 34) EmptyString.

(** [isRangeFresh(req, res)] *)
Definition isRangeFresh : bool :=
  match present (headers "if-range") with
  | None => true
  | Some ifRange =>
      if JsString.includes ifRange dquote
      then
        match present (res_get "etag") with
        | Some etag => JsString.includes ifRange etag
        | None => false
        end
      else
        match parseHttpDate (res_get "Last-Modified"),
              parseHttpDate (Some ifRange) with
        | Some lastModified, Some since => (lastModified <=? since)%Z
        | _, _ => false
        end
  end.

Lemma present_token (ts : list string) (t : string) :
  Forall token ts -> In t ts ->
  present (Some (String.concat ", " ts)) = Some (String.concat ", " ts).
Proof.
  intros Hts Hin. unfold present.
  destruct (String.eqb_spec (String.concat ", " ts) "") as [He|]; [|reflexivity].
  destruct ts as [|t1 ts]; [contradiction|].
  apply Forall_cons in Hts as [Ht _]. apply token_length in Ht.
  destruct ts; cbn [String.concat] in He.
  - rewrite He in Ht. cbn in Ht. lia.
  - destruct t1; [cbn in Ht; lia | discriminate].
Qed.

(** X16.  The precondition of a request with [If-Match]: it fails when
    the response has no entity tag; it holds for [*] when the response has
    one; and it holds when the header lists the response's entity tag
    among its tokens, as it is or in the other of its weak and strong
    forms.  With no [If-Match], the precondition of [If-Unmodified-Since]
    fails exactly when the response has no readable [Last-Modified] or
    one after the date given; with neither header nothing fails. *)
Theorem isPreconditionFailure_cases :
  (forall m, present (headers "if-match") = Some m ->
     present (res_get "etag") = None -> isPreconditionFailure = true) /\
  (forall etag, present (headers "if-match") = Some "*" ->
     present (res_get "etag") = Some etag -> isPreconditionFailure = false) /\
  (forall (ts : list string) (t etag : string),
     headers "if-match" = Some (String.concat ", " ts) ->
     Forall token ts -> In t ts ->
     present (res_get "etag") = Some etag ->
     t = etag \/ t = "W/" +:+ etag \/ "W/" +:+ t = etag ->
     isPreconditionFailure = false) /\
  (present (headers "if-match") = None ->
   forall since, parseHttpDate (headers "if-unmodified-since") = Some since ->
     isPreconditionFailure
     = match parseHttpDate (res_get "Last-Modified") with
       | None => true
       | Some lastModified => (lastModified >? since)%Z
       end) /\
  (present (headers "if-match") = None ->
   parseHttpDate (headers "if-unmodified-since") = None ->
   isPreconditionFailure = false).
Proof.
  unfold isPreconditionFailure. repeat split.
  - intros m -> ->. reflexivity.
  - intros etag -> ->. reflexivity.
  - intros ts t etag Hm Hts Hin He Ht.
    rewrite Hm, (present_token ts t Hts Hin), He.
    rewrite (parseTokenList_tokens ts Hts).
    apply andb_false_iff. right.
    apply not_true_is_false. intros Hall.
    rewrite forallb_forall in Hall. specialize (Hall t Hin).
    unfold differs in Hall. rewrite !andb_true_iff, !negb_true_iff in Hall.
    destruct Hall as ((H1 & H2) & H3).
    apply String.eqb_neq in H1, H2, H3. tauto.
  - intros -> since ->. reflexivity.
  - intros -> ->. reflexivity.
Qed.

Lemma startsWith_refl (s : string) : JsString.startsWith s s = true.
Proof.
  induction s as [|c s IH]; [reflexivity|].
  cbn. now rewrite Ascii.eqb_refl.
Qed.

Lemma includes_refl (s : string) : JsString.includes s s = true.
Proof. destruct s; cbn; [reflexivity|]. now rewrite Ascii.eqb_refl, startsWith_refl. Qed.

(** X17.  A range request is fresh when it has no [If-Range]; when its
    [If-Range] is the response's own entity tag, quotes and all; and, the
    header holding a date, exactly when the response's [Last-Modified] is
    readable and not after it.  An [If-Range] with an entity tag is not
    fresh against a response that has none. *)
Theorem isRangeFresh_cases :
  (present (headers "if-range") = None -> isRangeFresh = true) /\
  (forall etag, present (headers "if-range") = Some etag ->
     JsString.includes etag dquote = true ->
     res_get "etag" = Some etag -> isRangeFresh = true) /\
  (forall ifRange, present (headers "if-range") = Some ifRange ->
     JsString.includes ifRange dquote = true ->
     present (res_get "etag") = None -> isRangeFresh = false) /\
  (forall ifRange, present (headers "if-range") = Some ifRange ->
     JsString.includes ifRange dquote = false ->
     isRangeFresh = true <->
     exists lastModified since,
       parseHttpDate (res_get "Last-Modified") = Some lastModified /\
       Date_parse ifRange = Some since /\ (lastModified <= since)%Z).
Proof.
  assert (Hd : forall ifRange, present (headers "if-range") = Some ifRange ->
            parseHttpDate (Some ifRange) = Date_parse ifRange).
  { intros ifRange H. unfold parseHttpDate, present in *.
    destruct (headers "if-range") as [s|]; [|discriminate].
    destruct (String.eqb s "") eqn:Hs; [discriminate|].
    injection H as <-. now rewrite Hs. }
  unfold isRangeFresh. split; [|split; [|split]].
  - intros ->. reflexivity.
  - intros etag Hp Hq He. rewrite Hp, Hq, He.
    assert (Hne : present (Some etag) = Some etag).
    { unfold present. destruct (String.eqb_spec etag "") as [->|]; [|reflexivity].
      discriminate Hq. }
    rewrite Hne. apply includes_refl.
  - intros ifRange -> -> ->. reflexivity.
  - intros ifRange Hp Hq. rewrite Hp, Hq, (Hd ifRange Hp).
    destruct (parseHttpDate (res_get "Last-Modified")) as [lm|].
    2: { split; [discriminate|]. intros (? & ? & [=] & _). }
    destruct (Date_parse ifRange) as [since|].
    2: { split; [discriminate|]. intros (? & ? & _ & [=] & _). }
    rewrite Z.leb_le. split.
    + intros Hle. now exists lm, since.
    + intros (? & ? & [= <-] & [= <-] & Hle). exact Hle.
Qed.

End ConditionalRequests.

(* ===================================================================== *)
(** * Global replacement, one match at a time *)
(* ===================================================================== *)

Section GlobalReplace.
Import RegExp.

Lemma search_eq (re : RegExp.t) (fuel : nat) (s : mstate) :
  search re fuel s =
  match run (tree re) Some s with
  | Some fin => Some (result_of re s fin)
  | None =>
      match fuel, rest s with
      | S fuel', String _ t' => search re fuel' (advance s t')
      | _, _ => None
      end
  end.
Proof. destruct fuel; reflexivity. Qed.

(** A match is found at or after the position the search starts from. *)
Lemma search_index_ge (re : RegExp.t) :
  forall (fuel : nat) (s : mstate) (m : match_result),
    search re fuel s = Some m -> consumed s <= index m.
Proof.
  induction fuel as [|fuel IH]; intros s m; rewrite search_eq;
    destruct (run (tree re) Some s) as [fin|].
  - intros [= <-]. reflexivity.
  - discriminate.
  - intros [= <-]. reflexivity.
  - destruct (rest s) as [|c t]; [discriminate|].
    intros H. apply IH in H. cbn in H. lia.
Qed.

(** Where the expression does not match at the first character, the
    replacement keeps that character and goes on with the rest. *)
Lemma replace_g_go_pass (re : RegExp.t) (f : match_result -> string)
    (fuel n : nat) (c : ascii) (t : string) :
  run (tree re) Some (MState n (String c t) []) = None ->
  replace_g_go re f (S fuel) (MState n (String c t) [])
  = String c (replace_g_go re f (S fuel) (MState (S n) t [])).
Proof.
  intros Hrun. cbn [replace_g_go rest consumed String.length].
  rewrite (search_eq re (S (String.length t))), Hrun.
  cbn [rest].
  change (advance (MState n (String c t) []) t) with (MState (S n) t []).
  destruct (search re (String.length t) (MState (S n) t [])) as [m|] eqn:Hm;
    [|reflexivity].
  pose proof (search_index_ge re _ _ _ Hm) as Hge. cbn [consumed] in Hge.
  replace (index m - n) with (S (index m - S n)) by lia.
  cbn [String.substring JsString.drop Nat.add].
  destruct (String.length (matched m)) as [|len];
    [destruct (JsString.drop _ t)|]; reflexivity.
Qed.

(** Where it matches [len] characters, [len] not zero, at the first
    character, they are replaced and the replacement goes on after them. *)
Lemma replace_g_go_hit (re : RegExp.t) (f : match_result -> string)
    (fuel n len : nat) (r : string) (fin : mstate) :
  run (tree re) Some (MState n r []) = Some fin ->
  consumed fin = n + S len -> S len <= String.length r ->
  replace_g_go re f (S fuel) (MState n r [])
  = f (result_of re (MState n r []) fin)
    +:+ replace_g_go re f fuel (MState (n + S len) (JsString.drop (S len) r) []).
Proof.
  intros Hrun Hfin Hlen. cbn [replace_g_go rest consumed].
  rewrite search_eq, Hrun.
  cbn [result_of index matched consumed rest]. unfold text_between.
  cbn [consumed rest]. rewrite Hfin.
  replace (n + S len - n) with (S len) by lia.
  replace (n - n) with 0 by lia.
  assert (Hl : String.length (String.substring 0 (S len) r) = S len).
  { clear - Hlen. revert r Hlen. generalize (S len) as k.
    induction k as [|k IH]; intros r Hlen; destruct r as [|c r]; cbn in *;
      try reflexivity; try lia.
    f_equal. apply IH. lia. }
  rewrite Hl. cbn [Nat.add]. destruct r as [|c r]; [cbn in Hlen; lia|].
  reflexivity.
Qed.

End GlobalReplace.

(* ===================================================================== *)
(** * [utils.js]: [removeDuplicateSlashes]; [application.js]: [path] *)
(* ===================================================================== *)

Section DuplicateSlashes.
Import RegExp.

(** The expression literal [/\/{2,}/g]: a slash, twice or more, as many
    as there are. *)
Definition SLASHES : RegExp.t :=
  Compiled "\/{2,}" (RRep (RChar "/") 2 None true) 0 [].

(** [removeDuplicateSlashes(path)] *)
Definition removeDuplicateSlashes (path : string) : string :=
  replace_g SLASHES (fun _ => "/") path.

(** The slashes a string starts with, and what comes after them. *)
Fixpoint slashes (r : string) : nat :=
  match r with
  | String "/" t => S (slashes t)
  | _ => 0
  end.

Lemma slashes_cons (c : ascii) (t : string) :
  slashes (String c t) = if Ascii.eqb c "/" then S (slashes t) else 0.
Proof.
  destruct (Ascii.eqb_spec c "/") as [->|Hne]; [reflexivity|].
  cbn. destruct c as [[] [] [] [] [] [] [] []]; try reflexivity. congruence.
Qed.

Lemma slashes_length (r : string) : slashes r <= String.length r.
Proof.
  induction r as [|c t IH]; [reflexivity|]. rewrite slashes_cons.
  destruct (Ascii.eqb c "/"); cbn; lia.
Qed.

(** The repetition takes all the slashes there are, if they are
    enough. *)
Lemma rep_slashes (r : string) :
  forall (fuel min n : nat) (cs : list (nat * string)),
    slashes r < fuel ->
    rep (run (RChar "/")) fuel min None true Some (MState n r cs)
    = if min <=? slashes r
      then Some (MState (n + slashes r) (JsString.drop (slashes r) r) cs)
      else None.
Proof.
  induction r as [|c t IH]; intros fuel min n cs Hfuel;
    (destruct fuel as [|fuel]; [lia|]); rewrite rep_unbounded; cbv zeta.
  - rewrite run_RChar_miss by discriminate. cbn [slashes JsString.drop].
    rewrite Nat.add_0_r. now destruct min.
  - rewrite slashes_cons in *.
    destruct (Ascii.eqb_spec c "/") as [->|Hne].
    + rewrite run_RChar_hit. cbn [consumed].
      replace (S n =? n) with false by (symmetry; apply Nat.eqb_neq; lia).
      rewrite andb_false_r, (IH fuel (Nat.pred min) (S n) cs) by lia.
      cbn [JsString.drop].
      replace (S n + slashes t) with (n + S (slashes t)) by lia.
      destruct min as [|min]; cbn [Nat.eqb negb Nat.pred Nat.leb].
      * reflexivity.
      * reflexivity.
    + rewrite run_RChar_miss by congruence. cbn [JsString.drop].
      rewrite Nat.add_0_r. now destruct min.
Qed.

Lemma run_SLASHES (n : nat) (r : string) :
  run (tree SLASHES) Some (MState n r [])
  = if 2 <=? slashes r
    then Some (MState (n + slashes r) (JsString.drop (slashes r) r) [])
    else None.
Proof.
  cbn [tree SLASHES run rest]. apply rep_slashes.
  pose proof (slashes_length r). lia.
Qed.

(** A run of slashes becomes one slash: a slash goes when a slash
    follows it. *)
Fixpoint squeeze (s : string) : string :=
  match s with
  | EmptyString => EmptyString
  | String c t =>
      match t with
      | String d _ =>
          if Ascii.eqb c "/" && Ascii.eqb d "/" then squeeze t
          else String c (squeeze t)
      | EmptyString => String c EmptyString
      end
  end.

Lemma squeeze_cons (c : ascii) (t : string) :
  squeeze (String c t)
  = if Ascii.eqb c "/" && (0 <? slashes t) then squeeze t
    else String c (squeeze t).
Proof.
  destruct t as [|d t]; [now rewrite andb_false_r|].
  cbn [squeeze]. rewrite slashes_cons. now destruct (Ascii.eqb d "/").
Qed.

(** What [squeeze] makes of the slashes a string starts with. *)
Lemma squeeze_slashes (r : string) :
  0 < slashes r ->
  squeeze r = String "/" (squeeze (JsString.drop (slashes r) r)).
Proof.
  induction r as [|c t IH]; [cbn; lia|].
  rewrite slashes_cons, squeeze_cons.
  destruct (Ascii.eqb_spec c "/") as [->|Hne]; [|lia]. intros _.
  cbn [andb JsString.drop].
  destruct (slashes t) as [|k] eqn:Hk.
  - reflexivity.
  - cbn [Nat.ltb Nat.leb]. apply IH. lia.
Qed.

Lemma drop_length (k : nat) (r : string) :
  String.length (JsString.drop k r) = String.length r - k.
Proof.
  revert r. induction k as [|k IH]; intros [|c r]; cbn; try reflexivity; try lia.
  apply IH.
Qed.

Lemma replace_g_go_SLASHES (len : nat) :
  forall (r : string) (fuel n : nat),
    String.length r <= len -> String.length r < fuel ->
    replace_g_go SLASHES (fun _ => "/") fuel (MState n r []) = squeeze r.
Proof.
  induction len as [|len IH]; intros r fuel n Hlen Hfuel;
    (destruct fuel as [|fuel]; [lia|]).
  - destruct r; [reflexivity | cbn in Hlen; lia].
  - destruct r as [|c t]; [reflexivity|].
    cbn [String.length] in Hlen, Hfuel.
    destruct (2 <=? slashes (String c t)) eqn:H2.
    + apply Nat.leb_le in H2.
      pose proof (slashes_length (String c t)) as Hsl.
      cbn [String.length] in Hsl.
      destruct (slashes (String c t)) as [|k] eqn:Hk; [lia|].
      rewrite (replace_g_go_hit SLASHES _ fuel n k (String c t)
                 (MState (n + S k) (JsString.drop (S k) (String c t)) []));
        [| rewrite run_SLASHES, Hk; now replace (2 <=? S k) with true
             by (symmetry; apply Nat.leb_le; lia)
         | reflexivity | cbn [String.length]; lia].
      rewrite IH; [| rewrite drop_length; cbn [String.length]; lia
                   | rewrite drop_length; cbn [String.length]; lia].
      rewrite (squeeze_slashes (String c t)) by lia. rewrite Hk. reflexivity.
    + apply Nat.leb_gt in H2.
      rewrite replace_g_go_pass
        by (rewrite run_SLASHES;
            now replace (2 <=? slashes (String c t)) with false
              by (symmetry; apply Nat.leb_gt; lia)).
      rewrite (IH t (S fuel) (S n)) by lia.
      rewrite squeeze_cons. rewrite slashes_cons in H2.
      destruct (Ascii.eqb c "/"); [|reflexivity].
      replace (0 <? slashes t) with false
        by (symmetry; apply Nat.ltb_ge; lia).
      reflexivity.
Qed.

Lemma removeDuplicateSlashes_squeeze (path : string) :
  removeDuplicateSlashes path = squeeze path.
Proof.
  unfold removeDuplicateSlashes, replace_g.
  apply (replace_g_go_SLASHES (String.length path)); lia.
Qed.

Lemma startsWith_two_slashes (c : ascii) (u : string) :
  JsString.startsWith (String c u) "//"
  = Ascii.eqb c "/" && (0 <? slashes u).
Proof.
  destruct u as [|d u]; cbn [JsString.startsWith];
    rewrite (Ascii.eqb_sym "/" c).
  - cbn. now rewrite !andb_false_r.
  - rewrite slashes_cons, (Ascii.eqb_sym "/" d).
    assert (He : JsString.startsWith u "" = true) by now destruct u.
    rewrite He. now destruct (Ascii.eqb c "/"), (Ascii.eqb d "/").
Qed.

Lemma slashes_squeeze (s : string) :
  slashes (squeeze s) = if 0 <? slashes s then 1 else 0.
Proof.
  induction s as [|c t IH]; [reflexivity|].
  rewrite squeeze_cons, slashes_cons.
  destruct (Ascii.eqb c "/") eqn:Hc; cbn [andb].
  - destruct (0 <? slashes t) eqn:Ht.
    + now rewrite IH.
    + rewrite slashes_cons, Hc, IH. reflexivity.
  - now rewrite slashes_cons, Hc.
Qed.

Lemma squeeze_clean (s : string) : JsString.includes (squeeze s) "//" = false.
Proof.
  induction s as [|c t IH]; [reflexivity|].
  rewrite squeeze_cons.
  destruct (Ascii.eqb c "/" && (0 <? slashes t)) eqn:Hc; [exact IH|].
  change (JsString.includes (String c (squeeze t)) "//")
    with (JsString.startsWith (String c (squeeze t)) "//"
          || JsString.includes (squeeze t) "//").
  rewrite IH, startsWith_two_slashes, slashes_squeeze, orb_false_r.
  destruct (Ascii.eqb c "/"); [|reflexivity].
  cbn [andb] in Hc. now rewrite Hc.
Qed.

Lemma squeeze_id (s : string) :
  JsString.includes s "//" = false -> squeeze s = s.
Proof.
  induction s as [|c t IH]; [reflexivity|].
  change (JsString.includes (String c t) "//")
    with (JsString.startsWith (String c t) "//" || JsString.includes t "//").
  rewrite startsWith_two_slashes, orb_false_iff. intros [Hc Ht].
  rewrite squeeze_cons, Hc. now rewrite IH.
Qed.

Lemma squeeze_length (s : string) :
  String.length (squeeze s) <= String.length s.
Proof.
  induction s as [|c t IH]; [reflexivity|].
  rewrite squeeze_cons.
  destruct (Ascii.eqb c "/" && (0 <? slashes t)); cbn [String.length]; lia.
Qed.

(** X19.  [removeDuplicateSlashes] leaves no two slashes in a row; it
    leaves a path that has none as it is, so that applying it twice is
    applying it once; and it never makes a path longer. *)
Theorem removeDuplicateSlashes_clean (path : string) :
  JsString.includes (removeDuplicateSlashes path) "//" = false /\
  (JsString.includes path "//" = false -> removeDuplicateSlashes path = path) /\
  removeDuplicateSlashes (removeDuplicateSlashes path)
  = removeDuplicateSlashes path /\
  String.length (removeDuplicateSlashes path) <= String.length path.
Proof.
  rewrite !removeDuplicateSlashes_squeeze.
  split; [apply squeeze_clean|]. split; [apply squeeze_id|].
  split; [apply squeeze_id, squeeze_clean | apply squeeze_length].
Qed.

(** [path()] of an application: [mountpath] is its own mount path,
    [ancestors] those of its parent, of its parent's parent and so on, as
    the loop over [parent] finds them. *)
Definition path_of (mountpath : string) (ancestors : list string) : string :=
  let paths := fold_left (fun paths p => p :: paths) ancestors [mountpath] in
  let path := removeDuplicateSlashes (JsString.join paths) in
  if String.eqb path "/" then "" else path.

(** X20.  The path of an application has no two slashes in a row and is
    never ["/"]; an application that is not mounted, at its default mount
    path, has the empty path; one mounted directly in such an
    application, at a path that starts with a slash and has no two in a
    row, has that path, or the empty one when that path is ["/"]. *)
Theorem path_of_mounted (mountpath : string) (ancestors : list string) :
  JsString.includes (path_of mountpath ancestors) "//" = false /\
  path_of mountpath ancestors <> "/" /\
  path_of "/" [] = "" /\
  (0 < slashes mountpath -> JsString.includes mountpath "//" = false ->
   path_of mountpath ["/"] = if String.eqb mountpath "/" then "" else mountpath).
Proof.
  unfold path_of. cbv zeta. split; [|split; [|split]].
  - destruct (String.eqb _ "/"); [reflexivity|].
    rewrite removeDuplicateSlashes_squeeze. apply squeeze_clean.
  - destruct (String.eqb_spec
                (removeDuplicateSlashes
                   (JsString.join
                      (fold_left (fun paths p => p :: paths) ancestors
                         [mountpath]))) "/"); [discriminate | assumption].
  - reflexivity.
  - intros Hs Hclean. cbn [fold_left].
    assert (Hj : JsString.join ["/"; mountpath] = String "/" mountpath).
    { unfold JsString.join. cbn [String.concat].
      destruct mountpath; reflexivity. }
    rewrite Hj, removeDuplicateSlashes_squeeze, squeeze_cons.
    replace (0 <? slashes mountpath) with true
      by (symmetry; now apply Nat.ltb_lt).
    cbn [Ascii.eqb Bool.eqb andb]. now rewrite (squeeze_id _ Hclean).
Qed.

End DuplicateSlashes.

(* ===================================================================== *)
(** * [utils.js]: [stringify] *)
(* ===================================================================== *)

Section Stringify.
Import RegExp.

(** The expression literal [/[<>&]/g]. *)
Definition UNSAFE : RegExp.t := Eval vm_compute in literal "[<>&]".

(** The callback of the [replace]: the escape of the character
    matched. *)
Definition escape_of (m : match_result) : string :=
  match matched m with
  | String c _ =>
      let code := nat_of_ascii c in
      if code =? 60 then "\u003c"
      else if code =? 62 then "\u003e"
      else if code =? 38 then "\u0026"
      else matched m
  | EmptyString => matched m
  end.

(** [stringify(value, replacer, spaces, escape)]; [json] is what
    [JSON.stringify] gives for the value, [None] when it gives
    [undefined]. *)
Definition stringify (json : option string) (escape : bool) : option string :=
  if escape
  then (fun json => replace_g UNSAFE escape_of json) <$> json
  else json.

Definition unsafe (c : ascii) : bool :=
  Ascii.eqb c "<" || Ascii.eqb c ">" || Ascii.eqb c "&".

(** The text with every unsafe character written as its escape. *)
Fixpoint escaped (s : string) : string :=
  match s with
  | EmptyString => EmptyString
  | String c t =>
      (if Ascii.eqb c "<" then "\u003c"
       else if Ascii.eqb c ">" then "\u003e"
       else if Ascii.eqb c "&" then "\u0026"
       else String c EmptyString) +:+ escaped t
  end.

Lemma run_UNSAFE (n : nat) (c : ascii) (t : string) :
  run (tree UNSAFE) Some (MState n (String c t) [])
  = if unsafe c then Some (MState (S n) t []) else None.
Proof.
  cbn [tree UNSAFE run]. unfold one_char, in_set, advance, unsafe.
  cbn [rest existsb in_item xorb consumed caps].
  rewrite (Ascii.eqb_sym "<" c), (Ascii.eqb_sym ">" c), (Ascii.eqb_sym "&" c).
  now rewrite orb_false_r, orb_assoc.
Qed.

Lemma replace_g_go_UNSAFE (s : string) :
  forall (fuel n : nat),
    String.length s < fuel ->
    replace_g_go UNSAFE escape_of fuel (MState n s []) = escaped s.
Proof.
  induction s as [|c t IH]; intros fuel n Hfuel;
    (destruct fuel as [|fuel]; [lia|]); [reflexivity|].
  cbn [String.length] in Hfuel.
  destruct (unsafe c) eqn:Hc.
  - rewrite (replace_g_go_hit UNSAFE escape_of fuel n 0 (String c t)
               (MState (S n) t []));
      [| now rewrite run_UNSAFE, Hc | cbn; lia | cbn; lia].
    cbn [JsString.drop]. rewrite (IH fuel (n + 1)) by lia.
    cbn [escaped]. f_equal.
    unfold escape_of, result_of, text_between.
    cbn [matched consumed rest].
    replace (S n - n) with 1 by lia. cbn [String.substring].
    unfold unsafe in Hc.
    destruct (Ascii.eqb_spec c "<") as [->|H1]; [reflexivity|].
    destruct (Ascii.eqb_spec c ">") as [->|H2]; [reflexivity|].
    destruct (Ascii.eqb_spec c "&") as [->|H3]; [reflexivity|].
    discriminate.
  - rewrite replace_g_go_pass by now rewrite run_UNSAFE, Hc.
    rewrite (IH (S fuel) (S n)) by lia.
    cbn [escaped]. unfold unsafe in Hc. rewrite !orb_false_iff in Hc.
    destruct Hc as ((-> & ->) & ->). reflexivity.
Qed.

Lemma escaped_safe (s : string) (c : ascii) :
  In c (chars (escaped s)) -> unsafe c = false.
Proof.
  induction s as [|a t IH]; [contradiction|].
  cbn [escaped]. rewrite chars_append. intros H.
  apply in_app_or in H as [H|H]; [|exact (IH H)].
  destruct (Ascii.eqb_spec a "<") as [->|H1].
  { unfold chars in H. simpl in H.
    repeat (destruct H as [<-|H]; [reflexivity|]). contradiction. }
  destruct (Ascii.eqb_spec a ">") as [->|H2].
  { unfold chars in H. simpl in H.
    repeat (destruct H as [<-|H]; [reflexivity|]). contradiction. }
  destruct (Ascii.eqb_spec a "&") as [->|H3].
  { unfold chars in H. simpl in H.
    repeat (destruct H as [<-|H]; [reflexivity|]). contradiction. }
  unfold chars in H. simpl in H. destruct H as [<-|[]]. unfold unsafe.
  now rewrite (proj2 (Ascii.eqb_neq _ _) H1), (proj2 (Ascii.eqb_neq _ _) H2),
    (proj2 (Ascii.eqb_neq _ _) H3).
Qed.

Lemma escaped_id (s : string) :
  (forall c, In c (chars s) -> unsafe c = false) -> escaped s = s.
Proof.
  induction s as [|a t IH]; intros H; [reflexivity|].
  cbn [escaped]. rewrite IH by (intros c Hc; apply H; now right).
  specialize (H a (or_introl eq_refl)). unfold unsafe in H.
  rewrite !orb_false_iff in H. destruct H as ((-> & ->) & ->). reflexivity.
Qed.

(** X21.  [stringify] with [escape] set: the text it gives holds none of
    [<], [>], [&], each being written as its escape; a text that holds
    none of them is given as it is; and what [JSON.stringify] makes
    [undefined] stays [undefined].  Without [escape] the text is
    untouched. *)
Theorem stringify_escapes (json : string) :
  (exists out : string,
     stringify (Some json) true = Some out /\
     (forall c : ascii, In c (chars out) -> unsafe c = false) /\
     ((forall c : ascii, In c (chars json) -> unsafe c = false) ->
      out = json)) /\
  stringify None true = None /\
  stringify (Some json) false = Some json.
Proof.
  split; [|split; reflexivity].
  exists (escaped json). split; [|split].
  - unfold stringify, replace_g. cbn [fmap option_fmap option_map].
    f_equal. apply replace_g_go_UNSAFE. lia.
  - intros c Hc. now apply escaped_safe in Hc.
  - apply escaped_id.
Qed.

End Stringify.

(* ===================================================================== *)
(** * Callbacks that act after they have returned *)
(* ===================================================================== *)

Section LateCallbacks.
Context {U : Type}.
Implicit Types (this : @Router U) (r : route_t U) (x : @exchange U)
  (f : @jsfun U).

(** X22.  A callback that returns something that is not a promise and
    calls [next()] only later, from a timer or an I/O callback: when the
    walk resumes the continuation has not been called, so the walk takes
    the request for handled and stops; no entry after this one is
    called. *)
Theorem late_next_ends_walk this (i : nat) r f x (settled : option bool) :
  routes this !! i = Some r -> taken this r x -> callback r = Handler f ->
  let st := preprocessRequest this r x in
  resumed st = true ->
  let re := on_request f (s_x st) in
  when re = Detached -> sig re = Next ->
  resume this i x settled
  = mkResult (settle settled true) (s_trace st ++ [Call (routeKey r)])
      (after (s_x st) re).
Proof.
  intros Hi Htaken Hcb st Hres re Hwhen _.
  apply (walk_return this i r f x settled Hi Htaken Hcb Hres).
  fold st re. unfold seen_signal. now rewrite Hwhen.
Qed.

(** X23.  In a native handler only the synchronous part of the chain
    runs inside the [try]: an error that the first callback of a chain
    throws, or hands to its continuation, once it is no longer
    synchronous (in the promise it returns, or later) reaches neither the
    router's error handler nor the failure page, and nothing more of the
    chain is called. *)
Theorem native_late_error_escapes this r R f
    (optimizedPath : list (route_t U)) x (e : error) :
  optimizedPath !! 0 = Some r -> callback r = Handler f ->
  let st := preprocessRequest this R x in
  resumed st = true ->
  let re := on_request f (s_x st) in
  when re <> Sync -> sig re = Throw e \/ sig re = NextError e ->
  native_handler this R optimizedPath x
  = (s_trace st ++ [Call (routeKey r); Unhandled e], after (s_x st) re).
Proof.
  intros Hr Hcb st Hres re Hwhen Hsig.
  unfold native_handler. fold st. rewrite Hres.
  cbn [chain]. unfold chain_step. rewrite Hr, Hcb. fold re.
  assert (Hin : (true && match when re with Sync => true | _ => false end)
                = false)
    by (destruct (when re); [congruence | reflexivity | reflexivity]).
  cbv zeta. rewrite Hin.
  destruct Hsig as [-> | ->]; reflexivity.
Qed.

End LateCallbacks.

(* ===================================================================== *)
(** * [application.js]: the settings of an application *)
(* ===================================================================== *)

Section ApplicationSettings.
Context {U : Type}.
Implicit Types (this : @Router U).

(** [enable(key)], [disable(key)], [enabled(key)], [disabled(key)] *)
Definition set_setting this (key : string) (v : value) : @Router U :=
  mkRouter (routes this) (paramCallbacks this) (errorRoute this)
    (mountpath this) (<[key := v]> (settings this)) (parent this)
    (uwsApp this).

Definition enable this (key : string) : @Router U :=
  set_setting this key (VBool true).

Definition disable this (key : string) : @Router U :=
  set_setting this key (VBool false).

Definition enabled this (key : string) : bool :=
  truthy (default VUndefined (settings this !! key)).

Definition disabled this (key : string) : bool :=
  negb (truthy (default VUndefined (settings this !! key))).

Lemma foldl_defaults (defaults : list (string * value)) (k : string) (d : value) :
  NoDup defaults.*1 -> In (k, d) defaults -> d <> VUndefined ->
  forall m : gmap string value,
    default VUndefined
      (foldl (fun m kv =>
                if truthy (default VUndefined (m !! kv.1)) then m
                else <[kv.1 := kv.2]> m) m defaults !! k)
    = if truthy (default VUndefined (m !! k))
      then default VUndefined (m !! k) else d.
Proof.
  induction defaults as [|[k' d'] defaults IH]; intros Hnd Hin Hd m;
    [contradiction|].
  cbn [fmap list_fmap fst] in Hnd. apply NoDup_cons in Hnd as [Hk' Hnd].
  cbn [foldl fst snd].
  destruct Hin as [[= -> ->]|Hin].
  - assert (Hkeep : forall m' : gmap string value,
              default VUndefined
                (foldl (fun m kv =>
                          if truthy (default VUndefined (m !! kv.1)) then m
                          else <[kv.1 := kv.2]> m) m' defaults !! k)
              = default VUndefined (m' !! k)).
    { clear IH Hnd. revert Hk'. induction defaults as [|[k2 d2] defaults IH2];
        intros Hk' m'; [reflexivity|].
      cbn [foldl fst snd]. rewrite IH2.
      - destruct (truthy (default VUndefined (m' !! k2))); [reflexivity|].
        rewrite lookup_insert_ne; [reflexivity|].
        intros ->. apply Hk'. cbn. left.
      - intros H. apply Hk'. cbn. now right. }
    rewrite Hkeep.
    destruct (truthy (default VUndefined (m !! k))); [reflexivity|].
    now rewrite lookup_insert_eq.
  - rewrite (IH Hnd Hin Hd).
    assert (Hne : k' <> k).
    { intros ->. apply Hk'. apply list_elem_of_In.
      apply in_map_iff. now exists (k, d). }
    destruct (truthy (default VUndefined (m !! k'))); [reflexivity|].
    now rewrite lookup_insert_ne by exact Hne.
Qed.

(** X24.  The constructor of an application fills in a default
    wherever the settings it is given hold nothing truthy: a setting
    given as [false], [0] or the empty string is replaced by its default
    like one that is not given.  So every application starts with
    case-sensitive routing on, whatever its settings say. *)
Theorem new_Application_defaults (settings0 : gmap string value) :
  (forall (k : string) (d : value), In (k, d) defaultSettings ->
     get (@new_Application U settings0) k
     = if truthy (default VUndefined (settings0 !! k))
       then default VUndefined (settings0 !! k) else d) /\
  truthy (get (@new_Application U settings0) "case sensitive routing") = true.
Proof.
  assert (H : forall (k : string) (d : value), In (k, d) defaultSettings ->
            get (@new_Application U settings0) k
            = if truthy (default VUndefined (settings0 !! k))
              then default VUndefined (settings0 !! k) else d).
  { intros k d Hin. unfold new_Application, get. cbn [settings parent].
    assert (Hd : d <> VUndefined).
    { unfold defaultSettings in Hin. cbn in Hin.
      repeat (destruct Hin as [[= <- <-]|Hin]; [discriminate|]).
      contradiction. }
    assert (Hnd : NoDup defaultSettings.*1).
    { apply NoDup_ListNoDup. unfold defaultSettings. cbn.
      repeat (constructor; [cbn; intros H;
                repeat (destruct H as [H|H]; [discriminate|]); contradiction|]).
      constructor. }
    rewrite <- (foldl_defaults defaultSettings k d Hnd Hin Hd settings0).
    now destruct (default VUndefined _). }
  split; [exact H|].
  rewrite (H "case sensitive routing" (VBool true)).
  - now destruct (truthy (default VUndefined (settings0 !! "case sensitive routing")))
      eqn:Ht.
  - unfold defaultSettings. cbn. tauto.
Qed.


End ApplicationSettings.

(* ===================================================================== *)
(** * A chain that runs out *)
(* ===================================================================== *)

Section ChainRunsOut.
Context {U : Type}.
Implicit Types (this : @Router U) (r : route_t U) (x : @exchange U)
  (f : @jsfun U).

(** A callback that calls [next()] before it returns, and sends
    nothing. *)
Definition passes_on r : Prop :=
  exists f, callback r = Handler f /\
    forall x, sig (on_request f x) = Next /\ when (on_request f x) = Sync /\
              sends (on_request f x) = false.

Lemma chain_passes_on this (optimizedPath : list (route_t U)) :
  Forall passes_on optimizedPath ->
  forall (n i fuel : nat) x,
    i + n = length optimizedPath -> n < fuel ->
    exists x',
      chain this optimizedPath fuel i x true
      = (map (fun r => Call (routeKey r)) (drop i optimizedPath), x') /\
      headersSent (res x') = headersSent (res x).
Proof.
  intros Hall. induction n as [|n IH]; intros i fuel x Hi Hfuel.
  - exists x. rewrite chain_end by lia. rewrite drop_ge by lia. now split.
  - destruct fuel as [|fuel]; [lia|].
    destruct (optimizedPath !! i) as [r|] eqn:Hr.
    2: { apply lookup_ge_None in Hr. lia. }
    destruct (proj1 (Forall_lookup _ _) Hall i r Hr) as (f & Hcb & Hf).
    destruct (Hf x) as (Hsig & Hwhen & Hsends).
    rewrite chain_S. unfold chain_step. rewrite Hr, Hcb, Hsig, Hwhen.
    cbv zeta. cbn [andb]. rewrite (drop_S _ _ _ Hr). cbn [map].
    destruct (IH (S i) fuel (after x (on_request f x)) ltac:(lia) ltac:(lia))
      as (x' & Hc & Hh).
    assert (Hh' : headersSent (res x') = headersSent (res x)).
    { rewrite Hh. cbn. rewrite Hsends. now rewrite orb_false_r. }
    destruct (Nat.leb_spec (length optimizedPath) (S i)) as [Hend|Hmore].
    + exists (after x (on_request f x)). split.
      * now rewrite drop_ge by lia.
      * cbn. rewrite Hsends. now rewrite orb_false_r.
    + exists x'. rewrite Hc. now split.
Qed.

(** X18.  A native handler has no not-found page: when every callback
    of the chain calls [next()] and sends nothing, the handler calls them
    all, in the order of the chain, and ends there with nothing sent. *)
Theorem native_chain_runs_out this R (optimizedPath : list (route_t U)) x :
  has_params R = false ->
  Forall passes_on optimizedPath ->
  exists x',
    native_handler this R optimizedPath x
    = (map (fun r => Call (routeKey r)) optimizedPath, x') /\
    headersSent (res x') = headersSent (res x).
Proof.
  intros Hp Hall. unfold native_handler.
  rewrite (preprocessRequest_no_params this R x Hp). cbn [resumed s_x s_trace].
  destruct (chain_passes_on this optimizedPath Hall (length optimizedPath) 0
              (S (length optimizedPath)) (set_req x (set_params (req x) []))
              eq_refl ltac:(lia)) as (x' & -> & Hh).
  exists x'. split; [reflexivity | exact Hh].
Qed.

End ChainRunsOut.

Section ChainRunsOutScenario.

Lemma native_chain_runs_out_witness :
  exists x',
    native_handler later_app
      (mkRoute "GET" (PStr "/x") (PStr "/x") (Handler (acts Next)) 0 0
         false false)
      [mkRoute "GET" (PStr "/x") (PStr "/x") (Handler (acts Next)) 0 0
         false false]
      (new_exchange "GET" "/x" tt)
    = ([Call 0], x') /\
    headersSent (res x') = false.
Proof.
  apply (native_chain_runs_out later_app
           (mkRoute "GET" (PStr "/x") (PStr "/x") (Handler (acts Next)) 0 0
              false false)
           [mkRoute "GET" (PStr "/x") (PStr "/x") (Handler (acts Next)) 0 0
              false false]
           (new_exchange "GET" "/x" tt)).
  - reflexivity.
  - constructor; [|constructor]. exists (acts Next).
    split; [reflexivity|]. intros x. repeat split.
Defined.

End ChainRunsOutScenario.

(* ===================================================================== *)
(** * More scenarios *)
(* ===================================================================== *)

Section MoreScenarios.

(** [router.get(['/a', '/b'], h1, h2)] *)
Definition two_paths_router : @Router unit :=
  registered
    (createRoute 0 (new_Router ∅) "GET" (Paths [PStr "/a"; PStr "/b"])
       [Cb (Handler (acts Next)); Cb (Handler (acts Return))]).

Lemma createRoute_appends_witness :
  length (routes two_paths_router) = 4 /\
  paramCallbacks two_paths_router = paramCallbacks (new_Router ∅).
Proof.
  destruct (createRoute_appends 0 (new_Router ∅) "GET"
              (Paths [PStr "/a"; PStr "/b"])
              [Cb (Handler (acts Next)); Cb (Handler (acts Return))]
              4 two_paths_router)
    as (_ & Hpc & _ & _ & _ & new & Hr & Hlen & _).
  - vm_compute. reflexivity.
  - split; [|exact Hpc]. rewrite Hr, length_app, Hlen. reflexivity.
Defined.

(** [app.get('/x', h)] *)
Definition only_x : @Router unit :=
  registered
    (verb 0 app0 "get" (OnePath (PStr "/x")) [Cb (Handler (acts Return))]).

Lemma registration_keeps_keys_witness : keyed 1 (routes only_x).
Proof.
  apply (registration_keeps_keys 0 app0 1 only_x).
  - apply keyed_nil.
  - left. exists "get", (OnePath (PStr "/x")), [Cb (Handler (acts Return))].
    vm_compute. reflexivity.
Defined.

Lemma no_native_handler_witness : uwsApp mw_app = uwsApp app0.
Proof.
  apply (no_native_handler 0 app0 "USE" (OnePath (PStr ""))
           [Cb (Handler (acts Next))] 1 mw_app).
  - vm_compute. reflexivity.
  - right. right. right. reflexivity.
Defined.

(** [new Router({ 'case sensitive routing': true })] *)
Definition strict_router : @Router unit :=
  new_Router {["case sensitive routing" := VBool true]}.

Lemma createRoute_without_transport_witness :
  createRoute 0 strict_router "GET" (OnePath (PStr "/x"))
    [Cb (Handler (acts Return))] = None.
Proof.
  apply (createRoute_without_transport 0 strict_router "GET" "/x" "/x").
  - reflexivity.
  - reflexivity.
  - vm_compute. reflexivity.
  - reflexivity.
  - vm_compute. reflexivity.
  - reflexivity.
  - discriminate.
  - discriminate.
Defined.

Lemma not_found_witness :
  createRequestHandler only_x false (new_exchange "POST" "/y" tt)
  = ([], true, send404 (new_exchange "POST" "/y" tt)).
Proof.
  apply (not_found only_x (new_exchange "POST" "/y" tt)).
  - intros [|i] r H; vm_compute in H; [|discriminate].
    injection H as <-. vm_compute. reflexivity.
  - reflexivity.
  - reflexivity.
Defined.


Lemma declined_mount_handled_witness :
  outcome (_routeRequest api_app (new_exchange "GET" "/api/other" tt) 0)
  = Some true /\
  (createRequestHandler api_app false (new_exchange "GET" "/api/other" tt)).1.2
  = false.
Proof.
  assert (Hr : exists r sub,
             routes api_app !! 0 = Some r /\ callback r = SubRouter sub)
    by (eexists; eexists; split; vm_compute; reflexivity).
  destruct Hr as (r & sub & Hr & Hcb).
  assert (Hv : r = default r (routes api_app !! 0)) by now rewrite Hr.
  assert (Hs : sub = match callback r with
                     | SubRouter s => s
                     | Handler _ => sub
                     end) by now rewrite Hcb.
  apply (declined_mount_handled api_app 0 r sub
           (new_exchange "GET" "/api/other" tt) api_prefix "/api/other" false).
  - intros j r' Hj. lia.
  - exact Hr.
  - split; [reflexivity|]. rewrite Hv. vm_compute. reflexivity.
  - exact Hcb.
  - rewrite Hv. vm_compute. reflexivity.
  - rewrite Hv. vm_compute. reflexivity.
  - rewrite Hs, Hv. vm_compute. reflexivity.
  - reflexivity.
Defined.

Lemma middleware_takes_all_witness :
  exists r,
    routes mw_app = routes app0 ++ [r] /\
    callback r = Handler (acts Next) /\ routeKey r = 0%Z /\
    forall rq : Request, methodMatches r rq && pathMatches mw_app r rq = true.
Proof.
  apply (middleware_takes_all 0 app0 (acts Next) 1 mw_app).
  left. split; [discriminate | vm_compute; reflexivity].
Defined.

Definition Users_route : route_t unit :=
  mkRoute "GET" (PStr "/Users") (PStr "/Users") (Handler (acts Return)) 0 0
    false false.


Lemma mountpath_cache_transparent_witness :
  match getFullMountpath_cached ∅
          (set_stack (req (new_exchange "GET" "/api/users" tt)) [PStr "/api"])
  with
  | Some (re, cache') =>
      getFullMountpath
        (set_stack (req (new_exchange "GET" "/api/users" tt)) [PStr "/api"])
      = Some re /\ cache_sound cache' /\ ∅ ⊆ cache'
  | None =>
      getFullMountpath
        (set_stack (req (new_exchange "GET" "/api/users" tt)) [PStr "/api"])
      = None
  end.
Proof.
  apply (proj2 (mountpath_cache_transparent ∅ _)).
  apply (proj1 (mountpath_cache_transparent ∅
                  (req (new_exchange "GET" "/" tt)))).
Defined.

Lemma parseTokenList_join_witness :
  parseTokenList "abc, W/x y" = ["abc"; "W/x y"].
Proof.
  apply (parseTokenList_join ["abc"; "W/x y"]).
  repeat (constructor;
          [repeat split; [discriminate | discriminate |
             unfold chars; simpl; intros H;
             repeat (destruct H as [H|H]; [discriminate|]); contradiction]|]).
  constructor.
Defined.

End MoreScenarios.

Section ConditionalScenarios.

(** [If-Match: abc, W/xyz] against a response with the entity tag
    [xyz]. *)
Definition if_match_headers (name : string) : option string :=
  if String.eqb name "if-match" then Some "abc, W/xyz" else None.

Definition etag_xyz (name : string) : option string :=
  if String.eqb name "etag" then Some "xyz" else None.

Lemma isPreconditionFailure_cases_witness :
  isPreconditionFailure (fun _ => None) if_match_headers etag_xyz = false.
Proof.
  apply (proj1 (proj2 (proj2
           (isPreconditionFailure_cases (fun _ => None) if_match_headers
              etag_xyz)))
           ["abc"; "W/xyz"] "W/xyz" "xyz").
  - reflexivity.
  - repeat (constructor;
            [repeat split; [discriminate | discriminate |
               unfold chars; simpl; intros H;
               repeat (destruct H as [H|H]; [discriminate|]); contradiction]|]).
    constructor.
  - right. now left.
  - reflexivity.
  - right. now left.
Defined.

(** [If-Range] holding the entity tag of the response. *)
Definition quoted_v1 : string := dquote +:+ "v1" +:+ dquote.

Definition if_range_headers (name : string) : option string :=
  if String.eqb name "if-range" then Some quoted_v1 else None.

Definition etag_v1 (name : string) : option string :=
  if String.eqb name "etag" then Some quoted_v1 else None.

Lemma isRangeFresh_cases_witness :
  isRangeFresh (fun _ => None) if_range_headers etag_v1 = true.
Proof.
  apply (proj1 (proj2
           (isRangeFresh_cases (fun _ => None) if_range_headers etag_v1))
           quoted_v1); reflexivity.
Defined.

Lemma path_of_mounted_witness : path_of "/api" ["/"] = "/api".
Proof.
  apply (proj2 (proj2 (proj2 (path_of_mounted "/api" [])))).
  - cbn. lia.
  - reflexivity.
Defined.

(** A callback that calls [next()] from a timer. *)
Definition acts_late : @jsfun unit :=
  mkFun 3 (fun _ => mkReaction Next Detached false false tt)
    (fun _ _ => mkEreaction true false false tt).

(** [app.get('/x', late); app.get('/x', h)] *)
Definition late_app : @Router unit :=
  registered
    ('(k, a) ← verb 0 app0 "get" (OnePath (PStr "/x")) [Cb (Handler acts_late)];
     verb k a "get" (OnePath (PStr "/x")) [Cb (Handler (acts Return))]).

Lemma late_next_ends_walk_witness :
  resume late_app 0 (new_exchange "GET" "/x" tt) None
  = mkResult (Some true) [Call 0] (new_exchange "GET" "/x" tt).
Proof.
  apply (late_next_ends_walk late_app 0
           (mkRoute "GET" (PStr "/x") (PStr "/x") (Handler acts_late) 0 0
              false false)
           acts_late (new_exchange "GET" "/x" tt) None).
  - vm_compute. reflexivity.
  - split; vm_compute; reflexivity.
  - reflexivity.
  - reflexivity.
  - reflexivity.
  - reflexivity.
Defined.

(** A callback whose promise rejects. *)
Definition rejects : @jsfun unit :=
  mkFun 3 (fun _ => mkReaction (Throw (UserError 7)) Async false false tt)
    (fun _ _ => mkEreaction true false false tt).

Definition rejecting_route : route_t unit :=
  mkRoute "GET" (PStr "/x") (PStr "/x") (Handler rejects) 0 0 false false.

Lemma native_late_error_escapes_witness :
  native_handler (set_errorRoute app0 on_failure) rejecting_route
    [rejecting_route] (new_exchange "GET" "/x" tt)
  = ([Call 0; Unhandled (UserError 7)], new_exchange "GET" "/x" tt).
Proof.
  apply (native_late_error_escapes (set_errorRoute app0 on_failure)
           rejecting_route rejecting_route rejects [rejecting_route]
           (new_exchange "GET" "/x" tt) (UserError 7)).
  - reflexivity.
  - reflexivity.
  - reflexivity.
  - discriminate.
  - now left.
Defined.

End ConditionalScenarios.
